(** * Verification of the investment oracle of plan4res/Tools

    A shallow embedding of the parts of [investment_solver/InvestmentFunction.{h,cpp}]
    and [investment_solver/investment_solver.cpp] that carry the oracle's
    contract: the global pool of linearizations, the feasibility gate, the
    vertical and diagonal cuts, the linear (dis)investment term, the error
    paths of [compute], the removal of variables and the inter-stage state
    transfer.

    Conventions of the embedding.
    - A C++ [double] is a value of [dbl]: an IEEE 754 binary64 number, as
      the Standard Library's [SpecFloat] defines it (signed zeros, finite
      numbers with a 53-bit significand, the two infinities, one NaN).
      Every operation rounds to the nearest number, ties to even, on its
      own: no fused multiply-add and no extended precision.
    - A [std::vector] is a [list]; reading or writing outside its range is
      undefined behaviour in C++ and yields [Undefined] here.
    - A function that may throw returns an [outcome].
    - The loop over the scenarios of [compute] is an OpenMP [parallel for]
      when the program is built with OpenMP; the embedding runs it with one
      thread, which takes the scenarios in their order.
    - Classes of the SMS++ framework (Block, Solver, Observer, the unit
      blocks) are outside this repository; what the code asks of them is
      gathered in records of observations that the functions take as
      arguments. *)

From Stdlib Require Import QArith ZArith Bool Lia SpecFloat.
From stdpp Require Import base option list sorting gmap.

Set Default Proof Using "Type".
Local Open Scope nat_scope.

(** ** Doubles *)

Module Dbl.

Abbreviation dbl := spec_float.

(** the precision and the exponent bound of binary64 *)
Definition prec : Z := 53.
Definition emax : Z := 1024.

Abbreviation PInf := (S754_infinity false).
Abbreviation NInf := (S754_infinity true).
Abbreviation NaN := S754_nan.

Definition zero : dbl := S754_zero false.

(** conversion of an integer to [double] *)
Definition of_Z (z : Z) : dbl := binary_normalize prec emax z 0 false.

(** conversion of an [Index] (an unsigned integer) to [double] *)
Definition of_nat (n : nat) : dbl := of_Z (Z.of_nat n).

(** The double that a literal denotes: the number nearest to the ratio
    [q] of two integers that a double holds exactly (as [0.5] is 1/2 and
    [1e-6] is 1/1000000): the correctly rounded quotient. *)
Definition lit (q : Q) : dbl :=
  SFdiv prec emax (of_Z (Qnum q)) (of_Z (Z.pos (Qden q))).

Definition one : dbl := Eval vm_compute in lit 1.

Definition isnan (x : dbl) : bool :=
  match x with NaN => true | _ => false end.

Definition isfinite (x : dbl) : bool :=
  match x with S754_zero _ | S754_finite _ _ _ => true | _ => false end.

Definition dneg (x : dbl) : dbl := SFopp x.
Definition dadd (x y : dbl) : dbl := SFadd prec emax x y.
Definition dsub (x y : dbl) : dbl := SFsub prec emax x y.
Definition dmul (x y : dbl) : dbl := SFmul prec emax x y.
Definition ddiv (x y : dbl) : dbl := SFdiv prec emax x y.

(** [x < y]; every comparison with NaN is false *)
Definition dltb (x y : dbl) : bool := SFltb x y.

(** [x > y] *)
Definition dgtb (x y : dbl) : bool := SFltb y x.

(** [x >= y] *)
Definition dgeb (x y : dbl) : bool := SFleb y x.

Definition dabs (x : dbl) : dbl := SFabs x.

(** [std::max( a , b )] is [( a < b ) ? b : a] *)
Definition dmax (a b : dbl) : dbl := if dltb a b then b else a.

(** Equality of doubles up to the sign of zero: the two numbers are the
    same, or both are zero.  (NaN is counted equal to itself.) *)
Definition deq (x y : dbl) : Prop :=
  match x, y with
  | S754_zero _, S754_zero _ => True
  | _, _ => x = y
  end.

(** The numbers that a [double] can hold: the significand of a finite
    number is normalised and its exponent in range. *)
Definition valid (x : dbl) : Prop := valid_binary prec emax x = true.

End Dbl.

Export Dbl.

Declare Scope dbl_scope.
Delimit Scope dbl_scope with D.
Infix "=d=" := deq (at level 70, no associativity) : dbl_scope.

(** ** Results of functions that may throw *)

(** The exceptions of the code are [std::invalid_argument] and
    [std::logic_error]; the message tells the place of the [throw]. *)
Inductive what : Type :=
| InvalidPoolName             (* "invalid global pool name" / "invalid linearization name" *)
| EmptyCombination            (* "linear combination is empty" *)
| InvalidCoefficient (name : nat) (coeff : dbl)
                              (* "invalid coefficient for linearization with name" *)
| NonConvexCombination        (* "a non-convex combination of diagonal linearizations" *)
| NameDoesNotExist (name : nat) (* "linearization with name ... does not exist" *)
| InvalidVariableIndex (i : nat) (* "invalid Variable index" *)
| WrongIndexInSubset          (* "wrong Variable index in the Subset indices" *)
| NoSubBlock                  (* "there must be at least one sub-Block" *)
| InvalidAssetType (t : nat)  (* "invalid asset type" *)
| DualNotAvailable            (* "dual solution not available" *)
| PrimalNotAvailable          (* "primal solution not available" *)
| UnrecognizedBlock           (* "unrecognized UnitBlock" / "unrecognized NetworkBlock" *)
| NotSameStructure (stage : nat) (* "UCBlocks at stages ... do not have the same structure" *)
| GeneratorCountDiffers (stage prev cur : nat)
                              (* "HydroUnitBlock at stage ... has ..., but corresponding ..." *)
| LengthError                 (* std::length_error of a vector asked to grow too far *)
| External.                   (* thrown by a class outside this repository *)

Inductive exn : Type :=
| invalid_argument (w : what)
| logic_error (w : what).

Inductive outcome (A : Type) : Type :=
| Done (a : A)        (* normal return *)
| Throw (e : exn)     (* a C++ exception leaves the function *)
| Undefined           (* out-of-range access or failed assertion *)
| Hang.               (* the function never returns *)

Arguments Done {A} a.
Arguments Throw {A} e.
Arguments Undefined {A}.
Arguments Hang {A}.

Definition bind {A B} (m : outcome A) (f : A -> outcome B) : outcome B :=
  match m with
  | Done a => f a
  | Throw e => Throw e
  | Undefined => Undefined
  | Hang => Hang
  end.

Notation "'let!' x ':=' m 'in' k" := (bind m (fun x => k))
  (at level 10, x name, m at level 100, k at level 200).

(** [v.empty()] *)
Definition empty {A} (v : list A) : bool :=
  match v with [] => true | _ => false end.

(** [v[ i ]] as a read and as a write *)
Definition vget {A} (v : list A) (i : nat) : outcome A :=
  match v !! i with Some a => Done a | None => Undefined end.

Definition vset {A} (v : list A) (i : nat) (a : A) : outcome (list A) :=
  if decide (i < length v) then Done (<[i := a]> v) else Undefined.

(** [v[ time_horizon - 1 ]] for an unsigned [time_horizon]: at 0 the index
    wraps to the largest one, which no vector has *)
Definition last_time {A} (v : list A) (time_horizon : nat) : outcome A :=
  match time_horizon with
  | 0 => Undefined
  | S t => vget v t
  end.

(** a [for] loop over a list of items, threading the state *)
Fixpoint for_each {A S} (body : A -> S -> outcome S) (items : list A) (s : S)
  : outcome S :=
  match items with
  | [] => Done s
  | a :: rest => let! s' := body a s in for_each body rest s'
  end.
(** ** The global pool of linearizations *)

Module GlobalPool.

Definition LinearCombination := list (nat * dbl).

Record t : Type := mk {
  linearization_constants : list dbl;
  linearization_coefficients : list (list dbl);
  important_linearization_lin_comb : LinearCombination;
  is_diagonal : list bool
}.

Definition size (p : t) : nat := length (linearization_constants p).

Definition resize (n : nat) (p : t) : t :=
  {| linearization_constants := list.resize n NaN (linearization_constants p);
     linearization_coefficients := list.resize n [] (linearization_coefficients p);
     important_linearization_lin_comb := important_linearization_lin_comb p;
     is_diagonal := list.resize n false (is_diagonal p) |}.

Definition store (constant : dbl) (coefficients : list dbl) (name : nat)
    (diagonal_linearization : bool) (p : t) : outcome t :=
  if decide (size p <= name) then Throw (invalid_argument InvalidPoolName)
  else
    let! cf := vset (linearization_coefficients p) name coefficients in
    let! cs := vset (linearization_constants p) name constant in
    let! dg := vset (is_diagonal p) name diagonal_linearization in
    Done {| linearization_constants := cs;
            linearization_coefficients := cf;
            important_linearization_lin_comb := important_linearization_lin_comb p;
            is_diagonal := dg |}.

Definition is_linearization_there (p : t) (name : nat) : bool :=
  match linearization_constants p !! name with
  | Some c => negb (isnan c)
  | None => false
  end.

Definition is_linearization_vertical (p : t) (name : nat) : outcome bool :=
  match linearization_constants p !! name with
  | Some c => if isnan c then Done false
              else let! d := vget (is_diagonal p) name in Done (negb d)
  | None => Done false
  end.

Definition get_linearization_constant (p : t) (name : nat) : outcome dbl :=
  if decide (name < size p) then vget (linearization_constants p) name
  else Throw (invalid_argument (NameDoesNotExist name)).

(** dense read of the coefficients of [name] over the range [first, second) *)
Definition get_linearization_coefficients (p : t) (range : nat * nat)
    (name : nat) : outcome (list dbl) :=
  let! row := vget (linearization_coefficients p) name in
  for_each (fun i g => let! a := vget row i in Done (g ++ [a]))
           (seq (fst range) (snd range - fst range)) [].

(** the lambda [combine] of [store_combination_of_linearizations] *)
Definition combine (x y : list dbl) (multiplier : dbl) : outcome (list dbl) :=
  if decide (length x = length y)
  then Done (zip_with (fun xi yi => dadd xi (dmul multiplier yi)) x y)
  else Undefined.

(** the local variables of the loop over the summands *)
Record acc : Type := mk_acc {
  diagonal_linearization : bool;
  coefficients : list dbl;
  constant : dbl;
  coeff_sum_diagonal : dbl
}.

Definition acc0 : acc := mk_acc false [] zero zero.

Definition summand (p : t) (AAccMlt : dbl) (name_coeff : nat * dbl) (a : acc)
  : outcome acc :=
  let linearization_name := fst name_coeff in
  let coeff := snd name_coeff in
  if dltb coeff (dneg AAccMlt)
  then Throw (invalid_argument (InvalidCoefficient linearization_name coeff))
  else
    let! y := vget (linearization_coefficients p) linearization_name in
    let! cf := (if empty (coefficients a)
          then Done (replicate (length y) zero)
          else combine (coefficients a) y coeff) in
    let! c := vget (linearization_constants p) linearization_name in
    let! d := vget (is_diagonal p) linearization_name in
    Done (mk_acc (if d then true else diagonal_linearization a)
                 cf
                 (dadd (constant a) (dmul coeff c))
                 (if d then dadd (coeff_sum_diagonal a) coeff
                  else coeff_sum_diagonal a)).

Definition store_combination_of_linearizations
    (linear_combination : LinearCombination) (name : nat) (AAccMlt : dbl)
    (p : t) : outcome t :=
  if decide (size p <= name) then Throw (invalid_argument InvalidPoolName)
  else if empty linear_combination
  then Throw (invalid_argument EmptyCombination)
  else
    let! a := for_each (summand p AAccMlt) linear_combination acc0 in
    if diagonal_linearization a &&
       dgtb (dabs (dsub one (coeff_sum_diagonal a)))
            (dmul AAccMlt (of_nat (length linear_combination)))
    then Throw (invalid_argument NonConvexCombination)
    else store (constant a) (coefficients a) name (diagonal_linearization a) p.

Definition delete_linearization (name : nat) (p : t) : outcome t :=
  if decide (size p <= name) then Throw (invalid_argument InvalidPoolName)
  else
    let! cs := vset (linearization_constants p) name NaN in
    let! cf := vset (linearization_coefficients p) name [] in
    Done {| linearization_constants := cs;
            linearization_coefficients := cf;
            important_linearization_lin_comb := important_linearization_lin_comb p;
            is_diagonal := is_diagonal p |}.

Definition invalidate (p : t) : t :=
  {| linearization_constants := replicate (length (linearization_constants p)) NaN;
     linearization_coefficients := linearization_coefficients p;
     important_linearization_lin_comb := important_linearization_lin_comb p;
     is_diagonal := is_diagonal p |}.

End GlobalPool.
(** ** The investment function *)

Module InvestmentFunction.

Inductive ConstraintSide : Type := eLHS | eRHS.

(** the values of [enum AssetType]; a vector of asset types read from a
    file may hold any unsigned integer *)
Definition eUnitBlock : nat := 0.
Definition eLine : nat := 1.

(** the status returned by [compute]: the three values the function sets
    itself and the ones an inner solver reports *)
Inductive compute_type : Type :=
| kUnEval
| kOK
| kError
| kInner (code : Z).

(** an active variable: the object a [ColVariable *] of [v_x] points to *)
Module ColVariable.
Record t : Type := mk { id : nat; get_value : dbl }.
End ColVariable.
Abbreviation ColVariable := ColVariable.t.

(** a Modification handed to the Observer *)
Inductive Modification : Type :=
| C05FunctionModVarsRngd (vars : list ColVariable) (range : nat * nat)
| C05FunctionModVarsSbst (vars : list ColVariable) (subset : list nat)
| GlobalPoolAdded (names : list nat)
| GlobalPoolRemoved (names : list nat)
| NaNshift.

(** The data members of the class that the modelled functions read or
    write.  [Index] is [nat] and [Inf< Index >()] is [None].  The last four
    fields record what the function has done to objects it does not own:
    which inner Blocks it holds locked under its identity, which inner
    Solvers carry its identity, how often the handlers of
    [eBeforeTermination] ran, and the Modifications sent to the Observer
    (most recent first). *)
Record t : Type := mk {
  v_x : list ColVariable;
  f_blocks_are_updated : bool;
  f_status : compute_type;
  f_diagonal_linearization_required : bool;
  f_compute_linearization : bool;
  AAccMlt : dbl;
  f_ignore_modifications : bool;
  f_reformulated_bounds : bool;
  f_has_value : bool;
  f_has_diagonal_linearization : bool;
  f_value : dbl;
  f_constraints_tolerance : dbl;
  v_asset_indices : list nat;
  v_asset_type : list nat;
  v_linearization : list dbl;
  v_cost : list dbl;
  v_disinvestment_cost : list dbl;
  v_installed_quantity : list dbl;
  v_lower_bound : list dbl;
  v_A : list (list dbl);
  v_constraints_lower_bound : list dbl;
  v_constraints_upper_bound : list dbl;
  f_violated_constraint : option nat * ConstraintSide;
  global_pool : GlobalPool.t;
  is_locked : list bool;
  has_Observer : bool;
  block_locked : gset nat;
  solver_has_id : gset nat;
  events_handled : nat;
  modifications : list Modification
}.

Definition eta (s : t) : t :=
  mk (v_x s) (f_blocks_are_updated s) (f_status s)
     (f_diagonal_linearization_required s) (f_compute_linearization s)
     (AAccMlt s) (f_ignore_modifications s) (f_reformulated_bounds s)
     (f_has_value s) (f_has_diagonal_linearization s) (f_value s)
     (f_constraints_tolerance s) (v_asset_indices s) (v_asset_type s)
     (v_linearization s) (v_cost s) (v_disinvestment_cost s)
     (v_installed_quantity s) (v_lower_bound s) (v_A s)
     (v_constraints_lower_bound s) (v_constraints_upper_bound s)
     (f_violated_constraint s) (global_pool s) (is_locked s) (has_Observer s)
     (block_locked s) (solver_has_id s) (events_handled s) (modifications s).

(** [setter proj] builds the assignment to the field [proj]: the record
    rebuilt from its fields with the one field replaced. *)
Ltac setter proj :=
  let v := fresh "v" in
  let s := fresh "s" in
  intros v s;
  let e := eval cbv delta [eta] beta in (eta s) in
  lazymatch eval pattern (proj s) in e with
  | ?F _ => let r := eval cbv beta in (F v) in exact r
  end.

Definition set_v_x : list ColVariable -> t -> t := ltac:(setter v_x).
Definition set_f_blocks_are_updated : bool -> t -> t :=
  ltac:(setter f_blocks_are_updated).
Definition set_f_status : compute_type -> t -> t := ltac:(setter f_status).
Definition set_f_diagonal_linearization_required : bool -> t -> t :=
  ltac:(setter f_diagonal_linearization_required).
Definition set_f_ignore_modifications : bool -> t -> t :=
  ltac:(setter f_ignore_modifications).
Definition set_f_reformulated_bounds : bool -> t -> t :=
  ltac:(setter f_reformulated_bounds).
Definition set_f_has_value : bool -> t -> t := ltac:(setter f_has_value).
Definition set_f_has_diagonal_linearization : bool -> t -> t :=
  ltac:(setter f_has_diagonal_linearization).
Definition set_f_value : dbl -> t -> t := ltac:(setter f_value).
Definition set_v_asset_indices : list nat -> t -> t :=
  ltac:(setter v_asset_indices).
Definition set_v_asset_type : list nat -> t -> t := ltac:(setter v_asset_type).
Definition set_v_linearization : list dbl -> t -> t :=
  ltac:(setter v_linearization).
Definition set_v_cost : list dbl -> t -> t := ltac:(setter v_cost).
Definition set_v_disinvestment_cost : list dbl -> t -> t :=
  ltac:(setter v_disinvestment_cost).
Definition set_f_violated_constraint : option nat * ConstraintSide -> t -> t :=
  ltac:(setter f_violated_constraint).
Definition set_global_pool : GlobalPool.t -> t -> t := ltac:(setter global_pool).
Definition set_is_locked : list bool -> t -> t := ltac:(setter is_locked).
Definition set_block_locked : gset nat -> t -> t := ltac:(setter block_locked).
Definition set_solver_has_id : gset nat -> t -> t := ltac:(setter solver_has_id).
Definition set_events_handled : nat -> t -> t := ltac:(setter events_handled).
Definition set_modifications : list Modification -> t -> t :=
  ltac:(setter modifications).

(** What the function observes of the objects it does not own: its inner
    Blocks (one SDDPBlock per slot), their Solvers and the unit and network
    blocks below them.  A scenario is run on a slot. *)
Record World : Type := mkWorld {
  objective_sense_is_min : bool;
    (* get_inner_block_objective_sense() == Objective::eMin *)
  number_sub_blocks : nat;                      (* v_Block.size() *)
  is_owned_by : nat -> bool;                    (* v_Block[ i ]->is_owned_by( f_id ) *)
  lock : nat -> bool;                           (* v_Block[ i ]->lock( f_id ) *)
  has_solver : nat -> bool;                     (* get_solver( i ) != nullptr *)
  scenario_set_size : nat;                      (* get_scenario_set().size() *)
  time_horizon : nat;                           (* get_time_horizon() *)
  update_sub_blocks : option exn;
    (* update_unit_blocks and update_network_blocks over all slots:
       the exception they end with, if any *)
  solver_compute : nat -> nat -> compute_type;  (* solver->compute( true ) *)
  has_var_solution : nat -> nat -> bool;
  has_dual_solution : nat -> nat -> bool;
  solver_var_value : nat -> nat -> dbl;         (* solver->get_var_value() *)
  stage_linearization :
    nat -> nat -> nat -> list (nat * nat) -> list (nat * nat) ->
    list (nat * dbl) * option exn;
    (* update_linearization_unit_blocks followed by
       update_linearization_network_blocks for a scenario, a slot and a
       stage: the additions [v_linearization[ var_index ] += amount] they
       make, in order, and the exception they end with, if any *)
  with_OpenMP : bool
    (* the program is built with OpenMP ([_OPENMP] is defined), so that the
       pragmas are obeyed; without it they are ignored *)
}.

Definition get_number_scenarios (w : World) : nat :=
  if decide (number_sub_blocks w = 0) then 0 else scenario_set_size w.

Definition get_number_stages (w : World) : nat :=
  if decide (number_sub_blocks w = 0) then 0 else time_horizon w.

(** [get_inner_block_objective_sense] asserts that slot 0 exists *)
Definition worst_value (w : World) : outcome dbl :=
  if decide (0 < number_sub_blocks w)
  then Done (if objective_sense_is_min w then PInf else NInf)
  else Undefined.

Definition handle_events (s : t) : t :=
  set_events_handled (S (events_handled s)) s.

Definition get_installed_quantity (s : t) (asset : nat) : outcome dbl :=
  if empty (v_installed_quantity s) then Done one
  else vget (v_installed_quantity s) asset.

Definition get_var_value (s : t) (i : nat) (actual : bool) : outcome dbl :=
  let! x := vget (v_x s) i in
  if f_reformulated_bounds s && negb actual then
    match v_lower_bound s !! i with
    | Some l => if dgtb l NInf then Done (dadd (ColVariable.get_value x) l)
                else Done (ColVariable.get_value x)
    | None => Done (ColVariable.get_value x)
    end
  else Done (ColVariable.get_value x).

Definition get_var_lower_bound (s : t) (i : nat) : dbl :=
  match v_lower_bound s !! i with Some l => l | None => NInf end.

Definition get_cost (s : t) (i : nat) : dbl :=
  match v_cost s !! i with Some c => c | None => zero end.

Definition get_disinvestment_cost (s : t) (i : nat) : dbl :=
  match v_disinvestment_cost s !! i with Some c => c | None => zero end.

Definition reformulated_bounds (reformulated : bool) (s : t) : t :=
  set_f_reformulated_bounds reformulated s.

Definition reset_linearization (s : t) : t :=
  set_v_linearization (replicate (length (v_x s)) zero) s.

(** *** Feasibility of the linear constraints *)

Definition compute_linear_constraint_value (s : t) (i : nat) : outcome dbl :=
  let! row := vget (v_A s) i in
  for_each (fun j value =>
              let! a := vget row j in
              let! x := get_var_value s j false in
              Done (dadd value (dmul a x)))
           (seq 0 (length row)) zero.

(** the body of the loop of [is_feasible] for row [i]: the violated side,
    if one is *)
Definition check_row (s : t) (i : nat) : outcome (option ConstraintSide) :=
  let! constraint_value := compute_linear_constraint_value s i in
  let! lb := vget (v_constraints_lower_bound s) i in
  let lower_violation := dsub lb constraint_value in
  if dgtb lower_violation zero &&
     dgtb (ddiv lower_violation (dmax one (dabs lb)))
          (f_constraints_tolerance s)
  then Done (Some eLHS)
  else
    let! ub := vget (v_constraints_upper_bound s) i in
    let upper_violation := dsub constraint_value ub in
    if dgtb upper_violation zero &&
       dgtb (ddiv upper_violation (dmax one (dabs ub)))
            (f_constraints_tolerance s)
    then Done (Some eRHS)
    else Done None.

Fixpoint is_feasible_rows (s : t) (rows : list nat) : outcome (bool * t) :=
  match rows with
  | [] => Done (true, s)
  | i :: rest =>
      let! side := check_row s i in
      match side with
      | Some sd => Done (false, set_f_violated_constraint (Some i, sd) s)
      | None => is_feasible_rows s rest
      end
  end.

Definition is_feasible (s : t) : outcome (bool * t) :=
  let start := match fst (f_violated_constraint s) with
               | Some i => i + 1
               | None => 0
               end in
  is_feasible_rows s (seq start (length (v_A s) - start)).

(** *** Linearizations *)

Definition sign_of (side : ConstraintSide) : dbl :=
  match side with eLHS => lit (-1) | eRHS => lit 1 end.

Definition has_linearization (diagonal : bool) (s : t) : outcome (bool * t) :=
  if diagonal then
    let s := set_f_diagonal_linearization_required true s in
    Done (f_has_diagonal_linearization s, s)
  else
    let s := set_f_diagonal_linearization_required false s in
    match fst (f_violated_constraint s) with
    | Some i =>
        let sign := sign_of (snd (f_violated_constraint s)) in
        let! row := vget (v_A s) i in
        let! lin := for_each (fun j lin =>
                                let! a := vget row j in
                                vset lin j (dmul sign a))
                             (seq 0 (length (v_x s))) (v_linearization s) in
        Done (true, set_v_linearization lin s)
    | None => Done (false, s)
    end.

Definition compute_new_linearization (diagonal : bool) (s : t)
  : outcome (bool * t) :=
  if diagonal then Done (false, s)
  else let! r := is_feasible s in Done (negb (fst r), snd r).

(** [get_linearization_coefficients( g , range , name )], dense version:
    the values written to [g] *)
Definition get_linearization_coefficients (s : t) (range : nat * nat)
    (name : option nat) : outcome (list dbl) :=
  let second := Nat.min (snd range) (length (v_x s)) in
  if decide (second <= fst range) then Done []
  else
    match name with
    | Some n => GlobalPool.get_linearization_coefficients
                  (global_pool s) (fst range, second) n
    | None =>
        if f_diagonal_linearization_required s then
          for_each (fun i g => let! a := vget (v_linearization s) i in
                               Done (g ++ [a]))
                   (seq (fst range) (second - fst range)) []
        else
          match fst (f_violated_constraint s) with
          | Some i =>
              let sign := sign_of (snd (f_violated_constraint s)) in
              let! row := vget (v_A s) i in
              for_each (fun j g => let! a := vget row j in
                                   Done (g ++ [dmul sign a]))
                       (seq (fst range) (second - fst range)) []
          | None => Undefined
          end
    end.

Definition get_linearization_constant (s : t) (name : option nat)
  : outcome dbl :=
  match name with
  | None =>
      if f_diagonal_linearization_required s then
        for_each (fun i alpha =>
                    let! g := vget (v_linearization s) i in
                    let! x := get_var_value s i true in
                    Done (dsub alpha (dmul g x)))
                 (seq 0 (length (v_linearization s))) (f_value s)
      else
        match fst (f_violated_constraint s) with
        | Some i =>
            let! row := vget (v_A s) i in
            let! alpha :=
              (if f_reformulated_bounds s then
                 for_each (fun j alpha =>
                             match v_lower_bound s !! j with
                             | Some l =>
                                 if dgtb l NInf
                                 then let! a := vget row j in
                                      Done (dadd alpha (dmul a l))
                                 else Done alpha
                             | None => Done alpha
                             end)
                          (seq 0 (length row)) zero
               else Done zero) in
            match snd (f_violated_constraint s) with
            | eLHS => let! lb := vget (v_constraints_lower_bound s) i in
                      Done (dsub lb alpha)
            | eRHS => let! ub := vget (v_constraints_upper_bound s) i in
                      Done (dsub alpha ub)
            end
        | None => Undefined
        end
  | Some n => GlobalPool.get_linearization_constant (global_pool s) n
  end.

Definition get_value (w : World) (s : t) : outcome dbl :=
  if f_has_value s then Done (f_value s) else worst_value w.

Definition is_convex (s : t) : bool := true.

Definition is_concave (s : t) : bool := false.

(** *** The slots handed to the scenarios *)

Fixpoint first_unlocked (locked : list bool) (i : nat) : option nat :=
  match locked with
  | [] => None
  | b :: rest => if b then first_unlocked rest (S i) else Some i
  end.

(** When no slot is free the function sleeps and looks again; run by a
    single thread it finds the same vector again and never returns. *)
Definition lock_sub_block (w : World) (s : t) : outcome (nat * t) :=
  let locked := if empty (is_locked s)
                then replicate (number_sub_blocks w) false
                else is_locked s in
  match first_unlocked locked 0 with
  | Some i => Done (i, set_is_locked (<[i := true]> locked) s)
  | None => Hang
  end.

Definition unlock_sub_block (i : nat) (s : t) : outcome t :=
  let! l := vset (is_locked s) i false in
  Done (set_is_locked l s).

(** *** update_blocks and update_linearization

    Both are called inside a [try] block.  Their result is the state they
    leave together with the exception they end with, if any. *)

(** the loop over the assets that opens both functions: the pairs (asset
    index, variable index) of the unit blocks and of the lines;
    [update_blocks] also reads the value of each variable *)
Fixpoint classify_loop (s : t) (with_value : bool) (idx : list nat)
    (acc : list (nat * nat) * list (nat * nat))
  : outcome ((list (nat * nat) * list (nat * nat)) * option exn) :=
  match idx with
  | [] => Done (acc, None)
  | i :: rest =>
      let! asset_type := vget (v_asset_type s) i in
      let! asset_index := vget (v_asset_indices s) i in
      let! _x := (if with_value then get_var_value s i false else Done zero) in
      if decide (asset_type = eUnitBlock)
      then classify_loop s with_value rest
                         (fst acc ++ [(asset_index, i)], snd acc)
      else if decide (asset_type = eLine)
      then classify_loop s with_value rest
                         (fst acc, snd acc ++ [(asset_index, i)])
      else Done (acc, Some (logic_error (InvalidAssetType asset_type)))
  end.

Definition classify_assets (s : t) (with_value : bool)
  : outcome ((list (nat * nat) * list (nat * nat)) * option exn) :=
  classify_loop s with_value (seq 0 (length (v_asset_indices s))) ([], []).

Definition update_blocks (w : World) (s : t) : outcome (t * option exn) :=
  let saved_f_ignore_modifications := f_ignore_modifications s in
  let s := set_f_ignore_modifications true s in
  let! c := classify_assets s true in
  match snd c with
  | Some e => Done (s, Some e)
  | None =>
      match update_sub_blocks w with
      | Some e => Done (s, Some e)
      | None =>
          let s := set_f_ignore_modifications saved_f_ignore_modifications s in
          Done (set_f_blocks_are_updated true s, None)
      end
  end.

(** [v_linearization[ var_index ] += amount] *)
Definition add_to (addition : nat * dbl) (lin : list dbl) : outcome (list dbl) :=
  let! g := vget lin (fst addition) in
  vset lin (fst addition) (dadd g (snd addition)).

Fixpoint update_linearization_stages (w : World) (scenario sub_block_index : nat)
    (block_indices line_indices : list (nat * nat)) (stages : list nat)
    (lin : list dbl) : outcome (list dbl * option exn) :=
  match stages with
  | [] => Done (lin, None)
  | stage :: rest =>
      let r := stage_linearization w scenario sub_block_index stage
                                   block_indices line_indices in
      let! lin' := for_each add_to (fst r) lin in
      match snd r with
      | Some e => Done (lin', Some e)
      | None =>
          update_linearization_stages w scenario sub_block_index
                                      block_indices line_indices rest lin'
      end
  end.

Definition update_linearization (w : World) (scenario sub_block_index : nat)
    (s : t) : outcome (t * option exn) :=
  let! c := classify_assets s false in
  match snd c with
  | Some e => Done (s, Some e)
  | None =>
      let block_indices := fst (fst c) in
      let line_indices := snd (fst c) in
      if negb (has_solver w sub_block_index &&
               has_dual_solution w scenario sub_block_index)
      then Done (s, Some (logic_error DualNotAvailable))
      else if negb (empty block_indices) &&
              negb (has_solver w sub_block_index &&
                    has_var_solution w scenario sub_block_index)
      then Done (s, Some (logic_error PrimalNotAvailable))
      else
        let! r := update_linearization_stages w scenario sub_block_index
                    block_indices line_indices
                    (seq 0 (time_horizon w)) (v_linearization s) in
        Done (set_v_linearization (fst r) s, snd r)
  end.

(** *** compute *)

(** the local variables of the loop over the scenarios *)
Record scenario_loop : Type := mk_loop {
  this : t;
  interrupt_loop : bool;
  error_status : compute_type;
  simulation_value : dbl
}.

(** The body of the loop over the scenarios.  Built without OpenMP the loop
    is an ordinary [for] loop.  Built with OpenMP it is a [parallel for];
    the model then runs it with one thread, which takes the scenarios in
    their order.  [update_linearization] is called inside a [critical]
    region and the [catch] is outside of it: OpenMP requires a throw inside
    a [critical] region to be caught inside the same region, so with OpenMP
    an exception of [update_linearization] has no defined outcome. *)
Definition scenario_body (w : World) (scenario : nat) (l : scenario_loop)
  : outcome scenario_loop :=
  if interrupt_loop l then Done l
  else
    let! r := lock_sub_block w (this l) in
    let sub_block_index := fst r in
    let s := snd r in
    if negb (has_solver w sub_block_index) then Undefined
    else
      let status := solver_compute w scenario sub_block_index in
      if negb (has_var_solution w scenario sub_block_index) then
        let! s := unlock_sub_block sub_block_index s in
        Done (mk_loop s true status (simulation_value l))
      else
        let s := set_f_status status s in
        let! u := (if f_compute_linearization s
                   then update_linearization w scenario sub_block_index s
                   else Done (s, None)) in
        match snd u with
        | Some _ =>
            if with_OpenMP w then Undefined
            else
              let! s := unlock_sub_block sub_block_index (fst u) in
              Done (mk_loop s true kError (simulation_value l))
        | None =>
            let value := dadd (simulation_value l)
                              (solver_var_value w scenario sub_block_index) in
            let! s := unlock_sub_block sub_block_index (fst u) in
            Done (mk_loop s false (error_status l) value)
        end.

(** the loop that tries to lock the inner Blocks: the vector [owned] and the
    state, or the state at the Block that could not be locked *)
Fixpoint lock_blocks (w : World) (idx : list nat) (owned : list bool) (s : t)
  : (list bool * t) + t :=
  match idx with
  | [] => inl (owned, s)
  | i :: rest =>
      let o := is_owned_by w i in
      if negb o && negb (lock w i) then inr s
      else lock_blocks w rest (owned ++ [o])
             (if o then s else set_block_locked ({[ i ]} ∪ block_locked s) s)
  end.

Definition lend_identity (w : World) (s : t) : t :=
  foldl (fun s i => if has_solver w i
                    then set_solver_has_id ({[ i ]} ∪ solver_has_id s) s
                    else s)
        s (seq 0 (number_sub_blocks w)).

(** the loops that give the Solvers their identity back and unlock the
    inner Blocks; after an interrupted loop they also free every slot *)
Definition release (w : World) (owned : list bool) (slots : bool) (s : t)
  : outcome t :=
  for_each (fun i s =>
              let s := if has_solver w i
                       then set_solver_has_id (solver_has_id s ∖ {[ i ]}) s
                       else s in
              let! o := vget owned i in
              let s := if negb o
                       then set_block_locked (block_locked s ∖ {[ i ]}) s
                       else s in
              if slots then unlock_sub_block i s else Done s)
           (seq 0 (number_sub_blocks w)) s.

(** the linear term of the objective *)
Definition linear_term (s : t) : outcome t :=
  for_each (fun i s =>
              let! installed_quantity := get_installed_quantity s i in
              let! x := get_var_value s i false in
              let! g := vget (v_linearization s) i in
              if dgtb x installed_quantity then
                let cost := get_cost s i in
                let s := set_f_value
                           (dadd (f_value s)
                                 (dmul cost (dsub x installed_quantity))) s in
                Done (set_v_linearization
                        (<[i := dadd g cost]> (v_linearization s)) s)
              else
                let disinvestment_cost := get_disinvestment_cost s i in
                let s := set_f_value
                           (dadd (f_value s)
                                 (dmul disinvestment_cost
                                       (dsub installed_quantity x))) s in
                Done (set_v_linearization
                        (<[i := dsub g disinvestment_cost]>
                           (v_linearization s)) s))
           (seq 0 (length (v_x s))) s.

(** [f_value = worst_value(); f_status = kError; handle_events(...);
    return( f_status )] *)
Definition return_error (w : World) (s : t) : outcome (compute_type * t) :=
  let! wv := worst_value w in
  let s := handle_events (set_f_status kError (set_f_value wv s)) in
  Done (f_status s, s).

(** [compute] returns [f_status]; the result of the model is that value and
    the state left behind.  The function is cut in two at the loop over the
    scenarios.  Writing the values of the variables and of the function to
    the output file is not modelled. *)

(** [compute] up to the loop over the scenarios: the result, if the
    function returns before the loop, or the vector [owned] and the state
    with which the loop is entered *)
Definition compute_prologue (w : World) (changedvars : bool) (s : t)
  : outcome ((compute_type * t) + (list bool * t)) :=
  if negb changedvars && f_blocks_are_updated s then
    let s := handle_events s in Done (inl (f_status s, s))
  else
    let s := reset_linearization s in
    let s := set_f_has_diagonal_linearization false s in
    let s := set_f_has_value false s in
    let s := set_f_violated_constraint (None, eLHS) s in
    let! r := is_feasible s in
    let s := snd r in
    if negb (fst r) then
      let s := set_f_has_value true s in
      let! wv := worst_value w in
      let s := handle_events (set_f_status kOK (set_f_value wv s)) in
      Done (inl (f_status s, s))
    else if decide (number_sub_blocks w = 0)
    then Throw (logic_error NoSubBlock)
    else
      match lock_blocks w (seq 0 (number_sub_blocks w)) [] s with
      | inr s => let! r := return_error w s in Done (inl r)
      | inl (owned, s) =>
          let s := lend_identity w s in
          let! u := (if changedvars || negb (f_blocks_are_updated s)
                     then update_blocks w s
                     else Done (s, None)) in
          match snd u with
          | Some _ =>
              let! s := release w owned false (fst u) in
              let! r := return_error w s in
              Done (inl r)
          | None => Done (inr (owned, fst u))
          end
      end.

(** [compute] from the loop over the scenarios on *)
Definition compute_scenarios (w : World) (owned : list bool) (s : t)
  : outcome (compute_type * t) :=
  let num_scenarios := get_number_scenarios w in
  let s := set_f_value zero s in
  let saved_f_ignore_modifications := f_ignore_modifications s in
  let s := set_f_ignore_modifications true s in
  let s := set_f_status kUnEval s in
  let! l := for_each (scenario_body w) (seq 0 num_scenarios)
                     (mk_loop s false kError zero) in
  if interrupt_loop l then
    let! s := release w owned true (this l) in
    return_error w s
  else
    let s := set_f_value (simulation_value l) (this l) in
    let s := set_f_ignore_modifications saved_f_ignore_modifications s in
    let s := set_f_value (ddiv (f_value s) (of_nat num_scenarios)) s in
    let s := set_v_linearization
               (map (fun g => ddiv g (of_nat num_scenarios))
                    (v_linearization s)) s in
    let! s := linear_term s in
    let! s := release w owned false s in
    let s := set_f_has_diagonal_linearization (f_compute_linearization s) s in
    let s := set_f_has_value true s in
    let s := handle_events (set_f_status kOK s) in
    Done (f_status s, s).

Definition compute (w : World) (changedvars : bool) (s : t)
  : outcome (compute_type * t) :=
  let! r := compute_prologue w changedvars s in
  match r with
  | inl result => Done result
  | inr (owned, s) => compute_scenarios w owned s
  end.

(** *** Removing variables

    [issueMod] stands for the answer of [f_Observer->issue_mod( issueMod )].
    Clearing [generator_node_map], a cache that only the linearization of
    the unit blocks reads, is not modelled. *)

(** [v.erase( v.begin() + i )] *)
Definition verase {A} (v : list A) (i : nat) : outcome (list A) :=
  if decide (i < length v) then Done (delete i v) else Undefined.

(** [v.erase( v.begin() + first , v.begin() + second )] *)
Definition verase_range {A} (v : list A) (first second : nat)
  : outcome (list A) :=
  if decide (first <= second /\ second <= length v)
  then Done (take first v ++ drop second v)
  else Undefined.

Definition add_Modification (issueMod : bool) (m : Modification) (s : t) : t :=
  if has_Observer s && issueMod
  then set_modifications (m :: modifications s) s
  else s.

Definition remove_variable (i : nat) (issueMod : bool) (s : t) : outcome t :=
  if decide (length (v_x s) <= i)
  then Throw (logic_error (InvalidVariableIndex i))
  else
    let! var := vget (v_x s) i in
    let! x := verase (v_x s) i in
    let! asset_indices := verase (v_asset_indices s) i in
    let! asset_type := verase (v_asset_type s) i in
    let s := set_v_x x s in
    let s := set_v_asset_indices asset_indices s in
    let s := set_v_asset_type asset_type s in
    let s := set_f_blocks_are_updated false s in
    Done (add_Modification issueMod
            (C05FunctionModVarsRngd [var] (i, i + 1)) s).

Definition clear_variables (s : t) : t :=
  set_v_disinvestment_cost []
    (set_v_cost [] (set_v_asset_type [] (set_v_asset_indices [] (set_v_x [] s)))).

Definition remove_variables_range (range : nat * nat) (issueMod : bool) (s : t)
  : outcome t :=
  let first := fst range in
  let second := Nat.min (snd range) (length (v_x s)) in
  if decide (second <= first) then Done s
  else
    let s := set_f_blocks_are_updated false s in
    if decide (first = 0 /\ second = length (v_x s)) then
      let vars := v_x s in
      Done (add_Modification issueMod
              (C05FunctionModVarsRngd vars (first, second))
              (clear_variables s))
    else
      let vars := take (second - first) (drop first (v_x s)) in
      let! x := verase_range (v_x s) first second in
      let! asset_indices := verase_range (v_asset_indices s) first second in
      let! asset_type := verase_range (v_asset_type s) first second in
      let! cost := verase_range (v_cost s) first second in
      let! disinvestment_cost :=
        verase_range (v_disinvestment_cost s) first second in
      let s := set_v_x x s in
      let s := set_v_asset_indices asset_indices s in
      let s := set_v_asset_type asset_type s in
      let s := set_v_cost cost s in
      let s := set_v_disinvestment_cost disinvestment_cost s in
      Done (add_Modification issueMod
              (C05FunctionModVarsRngd vars (first, second)) s).

(** The first loop of [compact]: [nit] runs over the indices after the
    first one, [i] over the positions of [x], [xit] is the position written
    next.  Every turn either passes an index or reads [x[ i ]], so the loop
    takes at most [length x + length nit] turns before it ends or reads
    outside [x]; [fuel] counts the turns. *)
Fixpoint compact_loop {A} (fuel : nat) (x : list A) (xit i : nat)
    (nit : list nat) : outcome (list A * nat * nat) :=
  match nit with
  | [] => Done (x, xit, i)
  | n :: rest =>
      match fuel with
      | 0 => Undefined
      | S fuel =>
          if decide (n = i) then compact_loop fuel x xit (S i) rest
          else
            let! a := vget x i in
            let! x' := vset x xit a in
            compact_loop fuel x' (S xit) (S i) nit
      end
  end.

(** the second loop of [compact]: the positions after the last index *)
Definition compact_tail {A} (x : list A) (xit i : nat) : outcome (list A) :=
  let! r := for_each (fun i r =>
                        let! a := vget (fst r) i in
                        let! x' := vset (fst r) (snd r) a in
                        Done (x', S (snd r)))
                     (seq i (length x - i)) (x, xit) in
  Done (fst r).

Definition compact {A} (x : list A) (indices : list nat) : outcome (list A) :=
  match indices with
  | [] => Undefined
  | i :: rest =>
      let! r := compact_loop (length x + length rest) x i (S i) rest in
      let! x' := compact_tail (fst (fst r)) (snd (fst r)) (snd r) in
      if decide (length indices <= length x')
      then Done (take (length x' - length indices) x')
      else Throw (logic_error LengthError)
  end.

Definition remove_variables_subset (indices : list nat) (ordered : bool)
    (issueMod : bool) (s : t) : outcome t :=
  if empty indices then
    if empty (v_x s) then Done s
    else
      let vars := v_x s in
      let s := clear_variables s in
      let s := set_f_blocks_are_updated false s in
      Done (add_Modification issueMod (C05FunctionModVarsSbst vars []) s)
  else
    let indices := if ordered then indices else merge_sort le indices in
    match last indices with
    | None => Undefined
    | Some back =>
        if decide (length (v_x s) <= back)
        then Throw (invalid_argument WrongIndexInSubset)
        else
          let s := set_f_blocks_are_updated false s in
          let! vars := (if has_Observer s && issueMod
                        then for_each (fun nm vars =>
                                         let! v := vget (v_x s) nm in
                                         Done (vars ++ [v]))
                                      indices []
                        else Done []) in
          let! asset_indices := compact (v_asset_indices s) indices in
          let! asset_type := compact (v_asset_type s) indices in
          let! cost := compact (v_cost s) indices in
          let! disinvestment_cost :=
            compact (v_disinvestment_cost s) indices in
          let! x := compact (v_x s) indices in
          let s := set_v_asset_indices asset_indices s in
          let s := set_v_asset_type asset_type s in
          let s := set_v_cost cost s in
          let s := set_v_disinvestment_cost disinvestment_cost s in
          let s := set_v_x x s in
          Done (add_Modification issueMod
                  (C05FunctionModVarsSbst vars indices) s)
    end.

(** *** The pool seen through the function *)

Definition store_combination_of_linearizations
    (coefficients : GlobalPool.LinearCombination) (name : nat)
    (issueMod : bool) (s : t) : outcome t :=
  let! p := GlobalPool.store_combination_of_linearizations
              coefficients name (AAccMlt s) (global_pool s) in
  Done (add_Modification issueMod (GlobalPoolAdded [name])
          (set_global_pool p s)).

Definition store_linearization (name : nat) (issueMod : bool) (s : t)
  : outcome t :=
  if decide (GlobalPool.size (global_pool s) <= name)
  then Throw (invalid_argument InvalidPoolName)
  else
    let! constant := get_linearization_constant s None in
    let! p := GlobalPool.store constant (v_linearization s) name
                (f_diagonal_linearization_required s) (global_pool s) in
    Done (add_Modification issueMod (GlobalPoolAdded [name])
            (set_global_pool p s)).

End InvestmentFunction.
(** ** The initial up and down time of a thermal unit

    [compute_init_up_down_time] of [investment_solver.cpp] walks back in
    time from the last time of stage [stage - 1].  What it reads of the
    classes of the framework is gathered here: of a thermal unit its time
    horizon and the commitment of generator 0 at each time; of the unit at
    stage [stage - 1] the value of the shut-down variable at the last time,
    if [get_shut_down] returns one; and for an earlier stage the thermal
    unit that the [AbstractPath] finds there, if what it finds is one. *)

Module UpDownTime.

Record ThermalUnit : Type := mkThermalUnit {
  get_time_horizon : nat;
  get_commitment : list dbl
}.

Definition half : dbl := lit (1 # 2).

(** The counter is an [int]; [++] and [--] past its range are undefined
    behaviour. *)
Definition int_fits (z : Z) : bool :=
  ((-2147483648 <=? z) && (z <=? 2147483647))%Z.

Definition increment (z : Z) : outcome Z :=
  if int_fits (z + 1) then Done (z + 1)%Z else Undefined.

Definition decrement (z : Z) : outcome Z :=
  if int_fits (z - 1) then Done (z - 1)%Z else Undefined.

(** The loop [for( t = 1 ; t < time_horizon ; ++t , --commitment )];
    [commitment] is the position the pointer is at, [turns] the turns
    left.  The result is [inl] of the value returned from inside the loop
    or [inr] of the counter the loop ends with. *)
Fixpoint within_stage (values : list dbl) (commitment turns : nat)
    (on : bool) (init_up_down_time : Z) : outcome (Z + Z) :=
  match turns with
  | 0 => Done (inr init_up_down_time)
  | S turns =>
      let! current := vget values commitment in
      let! before := (match commitment with
                      | 0 => Undefined
                      | S c => vget values c
                      end) in
      if dgtb (dabs (dsub current before)) half
      then Done (inl init_up_down_time)
      else
        let! init_up_down_time :=
          (if on then increment init_up_down_time
           else decrement init_up_down_time) in
        within_stage values (commitment - 1) turns on init_up_down_time
  end.

(** the loop over [outer_t]; [previous_unit] is read through a null
    pointer when the path does not lead to a thermal unit *)
Fixpoint across_stages (earlier : nat -> option ThermalUnit) (stage : nat)
    (outer_ts : list nat) (previous_unit : ThermalUnit) (on : bool)
    (init_up_down_time : Z) : outcome Z :=
  match outer_ts with
  | [] => Done init_up_down_time
  | outer_t :: outer_ts =>
      let time_horizon := get_time_horizon previous_unit in
      let! r := within_stage (get_commitment previous_unit)
                  (time_horizon - 1) (time_horizon - 1) on
                  init_up_down_time in
      match r with
      | inl returned => Done returned
      | inr init_up_down_time =>
          if decide (outer_t = stage - 1) then Done init_up_down_time
          else
            match earlier (stage - outer_t - 2) with
            | None => Undefined
            | Some previous_unit =>
                let! commitment :=
                  last_time (get_commitment previous_unit)
                            (get_time_horizon previous_unit) in
                if on then
                  if dgeb commitment half
                  then
                    let! init_up_down_time := increment init_up_down_time in
                    across_stages earlier stage outer_ts previous_unit on
                                  init_up_down_time
                  else Done init_up_down_time
                else
                  if dltb commitment half
                  then
                    let! init_up_down_time := decrement init_up_down_time in
                    across_stages earlier stage outer_ts previous_unit on
                                  init_up_down_time
                  else Done init_up_down_time
            end
      end
  end.

(** The pointer [get_commitment( 0 ) + time_horizon - 1] is formed before
    anything is read; with a time horizon of 0 it lies before the array. *)
Definition compute_init_up_down_time (earlier : nat -> option ThermalUnit)
    (previous_unit : ThermalUnit) (shutdown : option dbl) (stage : nat)
  : outcome Z :=
  if decide (get_time_horizon previous_unit = 0) then Undefined
  else if match shutdown with Some v => dgeb v half | None => false end
  then Done 0%Z
  else
    let! commitment := last_time (get_commitment previous_unit)
                                 (get_time_horizon previous_unit) in
    let on := dgeb commitment half in
    across_stages earlier stage (seq 0 stage) previous_unit on
                  (if on then 1 else -1)%Z.

End UpDownTime.

(** ** The global pool: the other member functions *)

Module PoolMaintenance.
Import GlobalPool.

Definition set_linearization_constant (constant : dbl) (name : nat) (p : t)
  : outcome t :=
  if decide (size p <= name)
  then Throw (invalid_argument (NameDoesNotExist name))
  else
    let! cs := vset (linearization_constants p) name constant in
    Done {| linearization_constants := cs;
            linearization_coefficients := linearization_coefficients p;
            important_linearization_lin_comb := important_linearization_lin_comb p;
            is_diagonal := is_diagonal p |}.

Definition set_important_linearization (coefficients : LinearCombination)
    (p : t) : t :=
  {| linearization_constants := linearization_constants p;
     linearization_coefficients := linearization_coefficients p;
     important_linearization_lin_comb := coefficients;
     is_diagonal := is_diagonal p |}.

(** the body of the two loops of [delete_linearizations] *)
Definition delete_if_there (i : nat) (p : t) : outcome t :=
  if is_linearization_there p i then delete_linearization i p else Done p.

(** [std::sort] is a sort by [<=]; [which.back()] is the last name *)
Definition delete_linearizations (which : list nat) (ordered : bool) (p : t)
  : outcome t :=
  if empty which then for_each delete_if_there (seq 0 (size p)) p
  else
    let which := if ordered then which else merge_sort le which in
    match last which with
    | None => Undefined
    | Some back =>
        if decide (size p <= back)
        then Throw (invalid_argument InvalidPoolName)
        else for_each delete_if_there which p
    end.

(** [std::copy( src.cbegin() , src.cend() , dst.begin() )]: writing past
    the end of [dst] is undefined behaviour *)
Definition vcopy {A} (src dst : list A) : outcome (list A) :=
  if decide (length src <= length dst)
  then Done (src ++ drop (length src) dst)
  else Undefined.

(** [clone( const GlobalPool & global_pool )] *)
Definition clone (global_pool : t) (p : t) : outcome t :=
  let p := if decide (size p < size global_pool)
           then resize (size global_pool) p
           else p in
  let! dg := vcopy (is_diagonal global_pool) (is_diagonal p) in
  let! cs := vcopy (linearization_constants global_pool)
                   (linearization_constants p) in
  let! cf := for_each (fun i cf =>
                         let! y := vget (linearization_coefficients global_pool) i in
                         vset cf i y)
                      (seq 0 (length cs)) (linearization_coefficients p) in
  Done {| linearization_constants := cs;
          linearization_coefficients := cf;
          important_linearization_lin_comb :=
            important_linearization_lin_comb global_pool;
          is_diagonal := dg |}.

(** [clone( GlobalPool && global_pool )]: the vectors of [global_pool] are
    moved into this pool, which is then resized to the larger of the two
    sizes *)
Definition clone_move (global_pool : t) (p : t) : t :=
  let size := Nat.max (size p) (size global_pool) in
  resize size global_pool.

(** [GlobalPool::empty()] *)
Definition empty (p : t) : bool := forallb isnan (linearization_constants p).

End PoolMaintenance.

(** ** The investment function: parameters and State *)

Module FunctionState.
Import InvestmentFunction.

(** [set_par( intGPMaxSz , value )]: the exception for a negative value, or
    the state left.  The Modification is sent without asking
    [issue_mod]. *)
Inductive set_par_result : Type :=
| MustBeNonNegative        (* std::invalid_argument, "intGPMaxSz must be non-negative" *)
| ParSet (s : t).

Definition set_par_intGPMaxSz (value : Z) (s : t) : set_par_result :=
  if decide (value < 0)%Z then MustBeNonNegative
  else
    let value := Z.to_nat value in
    let old_size := GlobalPool.size (global_pool s) in
    let s := set_global_pool (GlobalPool.resize value (global_pool s)) s in
    if has_Observer s && bool_decide (value < old_size) then
      let which := seq value (GlobalPool.size (global_pool s) - value) in
      ParSet (set_modifications (GlobalPoolRemoved which :: modifications s) s)
    else ParSet s.

(** [get_int_par( intGPMaxSz )] *)
Definition get_int_par_intGPMaxSz (s : t) : Z :=
  Z.of_nat (GlobalPool.size (global_pool s)).

(** An [InvestmentFunctionState] holds a global pool.  [get_State] builds
    one from a pool with no name and clones the pool of the function into
    it. *)
Definition get_State (s : t) : outcome GlobalPool.t :=
  PoolMaintenance.clone (global_pool s) (GlobalPool.mk [] [] [] []).

(** the Modifications of the two [put_State]: that all the linearizations
    were removed, if there was one, and the names of those added, if there
    is one; they are sent without asking [issue_mod] *)
Definition tell_State (global_pool_was_empty : bool) (s : t) : t :=
  if negb (has_Observer s) then s
  else
    let s := if negb global_pool_was_empty
             then set_modifications (GlobalPoolRemoved [] :: modifications s) s
             else s in
    let p := global_pool s in
    let added := List.filter (GlobalPool.is_linearization_there p)
                             (seq 0 (GlobalPool.size p)) in
    if empty added then s
    else set_modifications (GlobalPoolAdded added :: modifications s) s.

(** [put_State( const State & state )] *)
Definition put_State (state : GlobalPool.t) (s : t) : outcome t :=
  let global_pool_was_empty := PoolMaintenance.empty (global_pool s) in
  let! p := PoolMaintenance.clone state (global_pool s) in
  Done (tell_State global_pool_was_empty (set_global_pool p s)).

(** [put_State( State && state )] *)
Definition put_State_move (state : GlobalPool.t) (s : t) : t :=
  let global_pool_was_empty := PoolMaintenance.empty (global_pool s) in
  let p := PoolMaintenance.clone_move state (global_pool s) in
  tell_State global_pool_was_empty (set_global_pool p s).

(** [delete_linearization( name , issueMod )] *)
Definition delete_linearization (name : nat) (issueMod : bool) (s : t)
  : outcome t :=
  let! p := GlobalPool.delete_linearization name (global_pool s) in
  Done (add_Modification issueMod (GlobalPoolRemoved [name])
          (set_global_pool p s)).

(** [delete_linearizations( which , ordered , issueMod )]; the Modification
    carries [which] as the pool left it, sorted if it was not ordered *)
Definition delete_linearizations (which : list nat) (ordered : bool)
    (issueMod : bool) (s : t) : outcome t :=
  let! p := PoolMaintenance.delete_linearizations which ordered
              (global_pool s) in
  let which := if empty which then which
               else if ordered then which else merge_sort le which in
  Done (add_Modification issueMod (GlobalPoolRemoved which)
          (set_global_pool p s)).

End FunctionState.

(** ** The transfer of state between consecutive stages
    ([investment_solver.cpp]) *)

Module StateBridge.

(** The classes of Block the solver tells apart by [dynamic_cast], with what
    the transfer reads of each: for a hydro unit the number of generators,
    the time horizon and the flow rate of each generator at each time; for a
    thermal unit the time horizon, the active power and the commitment of
    generator 0 at each time and the value of the shut-down variable at the
    last time, if [get_shut_down] returns one; for a battery the time
    horizon, the active power and the storage level. *)
Inductive BlockClass : Type :=
| HydroUnitBlock (number_generators time_horizon : nat)
                 (flow_rate : list (list dbl))
| ThermalUnitBlock (time_horizon : nat) (active_power commitment : list dbl)
                   (shut_down : option dbl)
| BatteryUnitBlock (time_horizon : nat) (active_power storage_level : list dbl)
| IntermittentUnitBlock
| SlackUnitBlock
| HydroSystemUnitBlock
| DCNetworkBlock
| UCBlock.

(** a Block: its address, its class and its nested Blocks *)
#[warnings="-register-all"]
Inductive Block : Type :=
| Node (id : nat) (class : BlockClass) (nested_Blocks : list Block).

Definition id_of (b : Block) : nat := match b with Node i _ _ => i end.
Definition class_of (b : Block) : BlockClass :=
  match b with Node _ c _ => c end.
Definition get_nested_Blocks (b : Block) : list Block :=
  match b with Node _ _ n => n end.
Definition get_number_nested_Blocks (b : Block) : nat :=
  length (get_nested_Blocks b).

(** the calls made on the Blocks of the later stage *)
Inductive call : Type :=
| set_initial_flow_rate (unit : nat) (flow_rate : list dbl)
| set_initial_power (unit : nat) (power : dbl)
| set_initial_storage (unit : nat) (storage : dbl)
| set_init_updown_time (unit : nat) (time : Z).

(** The global flags of the solver, and what the [AbstractPath] of the
    framework finds: [element_at unit k] is the Block that the path built
    for the unit with address [unit] leads to in the UCBlock of stage [k]
    ([path.get_element< Block >( get_uc_block( sddp_block , k ) )]), if it
    leads to one. *)
Record Driver : Type := mkDriver {
  simulate_investment : bool;
  single_scenario : bool;
  element_at : nat -> nat -> option Block
}.

(** [dynamic_cast< ThermalUnitBlock * >] of what the path finds, and what
    [compute_init_up_down_time] reads of the unit found *)
Definition thermal_unit_of (b : option Block) : option UpDownTime.ThermalUnit :=
  match b with
  | Some (Node _ (ThermalUnitBlock time_horizon _ commitment _) _) =>
      Some (UpDownTime.mkThermalUnit time_horizon commitment)
  | _ => None
  end.

Definition update_hydro_unit (previous_block block : Block) (stage : nat)
  : outcome (bool * list call) :=
  match class_of block, class_of previous_block with
  | HydroUnitBlock unit_generators _ _,
    HydroUnitBlock number_generators time_horizon previous_flow_rate =>
      if decide (number_generators <> unit_generators)
      then Throw (logic_error
                    (GeneratorCountDiffers stage number_generators
                                           unit_generators))
      else
        let! flow_rate :=
          for_each (fun g flow_rate =>
                      let! row := vget previous_flow_rate g in
                      let! v := last_time row time_horizon in
                      Done (flow_rate ++ [v]))
                   (seq 0 number_generators) [] in
        Done (true, [set_initial_flow_rate (id_of block) flow_rate])
  | HydroUnitBlock _ _ _, _ | _, HydroUnitBlock _ _ _ =>
      Throw (logic_error (NotSameStructure stage))
  | _, _ => Done (false, [])
  end.

Definition update_battery_unit (previous_block block : Block) (stage : nat)
  : outcome (bool * list call) :=
  match class_of block, class_of previous_block with
  | BatteryUnitBlock _ _ _,
    BatteryUnitBlock time_horizon active_power storage_level =>
      let! p := last_time active_power time_horizon in
      let! l := last_time storage_level time_horizon in
      Done (true, [set_initial_power (id_of block) p;
                   set_initial_storage (id_of block) l])
  | BatteryUnitBlock _ _ _, _ | _, BatteryUnitBlock _ _ _ =>
      Throw (logic_error (NotSameStructure stage))
  | _, _ => Done (false, [])
  end.

Definition update_thermal_unit (d : Driver) (previous_block block : Block)
    (stage : nat) : outcome (bool * list call) :=
  match class_of block, class_of previous_block with
  | ThermalUnitBlock _ _ _ _,
    ThermalUnitBlock time_horizon active_power commitment shut_down =>
      let! updown :=
        (if simulate_investment d && single_scenario d then
           let! t := UpDownTime.compute_init_up_down_time
                       (fun k => thermal_unit_of (element_at d (id_of block) k))
                       (UpDownTime.mkThermalUnit time_horizon commitment)
                       shut_down stage in
           Done [set_init_updown_time (id_of block) t]
         else Done []) in
      let! p := last_time active_power time_horizon in
      Done (true, updown ++ [set_initial_power (id_of block) p])
  | ThermalUnitBlock _ _ _ _, _ | _, ThermalUnitBlock _ _ _ _ =>
      Throw (logic_error (NotSameStructure stage))
  | _, _ => Done (false, [])
  end.

(** [update_hydro_unit( ... ) || update_thermal_unit( ... ) ||
    update_battery_unit( ... )] *)
Definition update_unit (d : Driver) (previous_block block : Block)
    (stage : nat) : outcome (list call) :=
  let! h := update_hydro_unit previous_block block stage in
  if fst h then Done (snd h)
  else
    let! t := update_thermal_unit d previous_block block stage in
    if fst t then Done (snd t)
    else
      let! b := update_battery_unit previous_block block stage in
      Done (snd b).

Fixpoint number_of_blocks (b : Block) : nat :=
  match b with
  | Node _ _ nested =>
      S ((fix total (l : list Block) : nat :=
            match l with
            | [] => 0
            | b' :: l' => number_of_blocks b' + total l'
            end) nested)
  end.

Definition blocks_in (queue : list Block) : nat :=
  foldr (fun b n => number_of_blocks b + n) 0 queue.

(** The [while] loop of [callback] over the two queues.  Every turn takes
    one Block from the queue and adds its nested Blocks, so the loop takes
    as many turns as there are Blocks in and below the queue; [fuel] counts
    the turns. *)
Fixpoint callback_loop (d : Driver) (fuel stage : nat)
    (blocks previous_blocks : list Block) (calls : list call)
  : outcome (list call) :=
  match blocks with
  | [] => Done calls
  | block :: blocks =>
      match fuel, previous_blocks with
      | 0, _ => Hang
      | _, [] => Undefined
      | S fuel, previous_block :: previous_blocks =>
          let n := get_number_nested_Blocks block in
          if decide (n <> get_number_nested_Blocks previous_block)
          then Throw (logic_error (NotSameStructure stage))
          else
            let blocks := blocks ++ get_nested_Blocks block in
            let previous_blocks :=
              previous_blocks ++ get_nested_Blocks previous_block in
            let! c := update_unit d previous_block block stage in
            callback_loop d fuel stage blocks previous_blocks (calls ++ c)
      end
  end.

(** [callback( sddp_block , stage )], given the UCBlocks of the stages
    [stage - 1] and [stage]: the calls it makes, in order *)
Definition callback (d : Driver) (stage : nat)
    (previous_uc_block uc_block : Block) : outcome (list call) :=
  if decide (stage = 0) then Done []
  else callback_loop d (number_of_blocks uc_block) stage
                     [uc_block] [previous_uc_block] [].

End StateBridge.

(** ** The investment function: Modifications of the inner Blocks *)

Module Observing.
Import InvestmentFunction.

(** [send_nuclear_modification]; the Modification is handed to the Observer
    without asking [issue_mod].  Clearing [generator_node_map] is not
    modelled. *)
Definition send_nuclear_modification (s : t) : t :=
  let s := set_global_pool (GlobalPool.invalidate (global_pool s)) s in
  let s := set_f_blocks_are_updated false s in
  if has_Observer s
  then set_modifications (NaNshift :: modifications s) s
  else s.

(** [add_Modification( mod , chnl )], which an inner Block calls when it
    has changed; the function does not look at [mod] *)
Definition add_Modification (s : t) : t :=
  if f_ignore_modifications s then s else send_nuclear_modification s.

End Observing.

(** * Properties *)

(** ** Vectors and loops *)

Lemma vget_lookup {A} (v : list A) i a : v !! i = Some a -> vget v i = Done a.
Proof. unfold vget. intros ->. reflexivity. Qed.

Lemma vget_Done {A} (v : list A) i a : vget v i = Done a -> v !! i = Some a.
Proof. unfold vget. destruct (v !! i); intros H; inversion H; reflexivity. Qed.

Lemma vget_lt {A} (v : list A) i : i < length v -> exists a, vget v i = Done a.
Proof.
  intros H. destruct (lookup_lt_is_Some_2 v i H) as [a Ha].
  exists a. apply vget_lookup, Ha.
Qed.

Lemma vset_lt {A} (v : list A) i a :
  i < length v -> vset v i a = Done (<[i := a]> v).
Proof. unfold vset. intros H. destruct (decide (i < length v)); [reflexivity | lia]. Qed.

Lemma vset_Done {A} (v v' : list A) i a :
  vset v i a = Done v' -> i < length v /\ v' = <[i := a]> v.
Proof.
  unfold vset. destruct (decide (i < length v)); intros H; inversion H. auto.
Qed.

Lemma for_each_app {A S} (body : A -> S -> outcome S) l1 l2 s :
  for_each body (l1 ++ l2) s =
  let! s' := for_each body l1 s in for_each body l2 s'.
Proof.
  revert s. induction l1 as [|a l1 IH]; intros s; simpl; [reflexivity|].
  destruct (body a s); simpl; auto.
Qed.

(** ** Doubles *)

Module DblFacts.

Lemma deq_refl x : (x =d= x)%D.
Proof. destruct x; simpl; auto. Qed.

Lemma deq_sym x y : (x =d= y)%D -> (y =d= x)%D.
Proof. destruct x, y; simpl; auto. Qed.

Lemma deq_trans x y z : (x =d= y)%D -> (y =d= z)%D -> (x =d= z)%D.
Proof. destruct x, y, z; simpl; auto; congruence. Qed.

#[global] Instance deq_equivalence : Equivalence deq.
Proof.
  split; [exact deq_refl | exact deq_sym | exact deq_trans].
Qed.

Lemma deq_eq x y : x = y -> (x =d= y)%D.
Proof. intros ->. apply deq_refl. Qed.

(** two numbers that are equal up to the sign of zero, by cases *)
Lemma deq_cases x y :
  (x =d= y)%D ->
  x = y \/ exists s s', x = S754_zero s /\ y = S754_zero s'.
Proof.
  destruct x, y; simpl; intros H; try (left; exact H); right; eauto.
Qed.

(** numbers other than zero are equal up to the sign of zero only when
    they are the same *)
Lemma deq_nonzero x y :
  (x =d= y)%D -> (forall s, x <> S754_zero s) -> x = y.
Proof.
  intros H Hx. destruct (deq_cases x y H) as [E | (s & s' & E & _)];
    [exact E | destruct (Hx s E)].
Qed.

Ltac deq_split H :=
  let s := fresh "s" in
  let s' := fresh "s" in
  apply deq_cases in H as [H | (s & s' & -> & ->)]; [subst|].

#[global] Instance dneg_proper : Proper (deq ==> deq) dneg.
Proof.
  intros x x' H. deq_split H; [apply deq_refl | exact I].
Qed.

#[global] Instance dadd_proper : Proper (deq ==> deq ==> deq) dadd.
Proof.
  intros x x' H1 y y' H2. deq_split H1; deq_split H2;
    try apply deq_refl.
  - destruct x' as [[]|[]| |]; destruct s, s0; simpl; auto.
  - destruct y' as [[]|[]| |]; destruct s, s0; simpl; auto.
  - destruct s, s0, s1, s2; exact I.
Qed.

#[global] Instance dsub_proper : Proper (deq ==> deq ==> deq) dsub.
Proof.
  intros x x' H1 y y' H2. deq_split H1; deq_split H2;
    try apply deq_refl.
  - destruct x' as [[]|[]| |]; destruct s, s0; simpl; auto.
  - destruct y' as [[]|[]| |]; destruct s, s0; simpl; auto.
  - destruct s, s0, s1, s2; exact I.
Qed.

#[global] Instance dmul_proper : Proper (deq ==> deq ==> deq) dmul.
Proof.
  intros x x' H1 y y' H2. deq_split H1; deq_split H2;
    try apply deq_refl.
  - destruct x' as [[]|[]| |]; destruct s, s0; simpl; auto.
  - destruct y' as [[]|[]| |]; destruct s, s0; simpl; auto.
  - destruct s, s0, s1, s2; exact I.
Qed.

#[global] Instance dltb_proper : Proper (deq ==> deq ==> eq) dltb.
Proof.
  intros x x' H1 y y' H2. deq_split H1; deq_split H2; reflexivity.
Qed.

#[global] Instance dgtb_proper : Proper (deq ==> deq ==> eq) dgtb.
Proof. intros x x' Hx y y' Hy. unfold dgtb. apply dltb_proper; assumption. Qed.

Lemma dadd_zero_r x : (dadd x zero =d= x)%D.
Proof. destruct x as [[]|[]| |]; simpl; auto. Qed.

Lemma dadd_zero_l x : (dadd zero x =d= x)%D.
Proof. destruct x as [[]|[]| |]; simpl; auto. Qed.

Lemma dsub_zero_r x : (dsub x zero =d= x)%D.
Proof. destruct x as [[]|[]| |]; simpl; auto. Qed.

(** a finite number times zero is zero *)
Lemma dmul_zero_r a : isfinite a = true -> (dmul a zero =d= zero)%D.
Proof. destruct a as [[]|[]| |]; simpl; auto; discriminate. Qed.

(** the sum of two doubles does not depend on their order *)
Lemma dadd_comm x y : dadd x y = dadd y x.
Proof.
  destruct x as [[]|[]| |sx mx ex], y as [[]|[]| |sy my ey];
    try reflexivity.
  unfold dadd, SFadd. rewrite (Z.min_comm ey ex). f_equal. apply Z.add_comm.
Qed.

(** *** Multiplication by 1 and by -1 is exact *)

Lemma digits_shift m :
  Z.pos (digits2_pos (Pos.iter xO m 52)) = (Z.pos (digits2_pos m) + 52)%Z.
Proof.
  cbn [Pos.iter digits2_pos]. rewrite !Pos2Z.inj_succ. lia.
Qed.

Lemma canonical_round s m e :
  fexp prec emax (Z.pos (digits2_pos m) + e) = e ->
  (e <= emax - prec)%Z ->
  binary_round_aux prec emax s (Z.pos (Pos.iter xO m 52)) (-52 + e) loc_Exact =
  S754_finite s m e.
Proof.
  intros Hc He. unfold binary_round_aux.
  assert (H1 : shr_fexp prec emax (Z.pos (Pos.iter xO m 52)) (-52 + e)
                 loc_Exact =
               ({| shr_m := Z.pos m; shr_r := false; shr_s := false |}, e)).
  { unfold shr_fexp. cbn [Zdigits2]. rewrite digits_shift.
    replace (Z.pos (digits2_pos m) + 52 + (-52 + e))%Z
      with (Z.pos (digits2_pos m) + e)%Z by lia.
    rewrite Hc. replace (e - (-52 + e))%Z with 52%Z by lia.
    unfold shr. cbn [shr_record_of_loc iter_pos Pos.iter shr_1].
    f_equal. lia. }
  rewrite H1.
  cbn [shr_m loc_of_shr_record shr_r shr_s round_nearest_even].
  assert (H2 : shr_fexp prec emax (Z.pos m) e loc_Exact =
               ({| shr_m := Z.pos m; shr_r := false; shr_s := false |}, e)).
  { unfold shr_fexp. cbn [Zdigits2]. rewrite Hc, Z.sub_diag. reflexivity. }
  rewrite H2. cbn [shr_m].
  apply Z.leb_le in He. rewrite He. reflexivity.
Qed.

Lemma valid_finite s m e :
  valid (S754_finite s m e) ->
  fexp prec emax (Z.pos (digits2_pos m) + e) = e /\ (e <= emax - prec)%Z.
Proof.
  unfold valid. cbn [valid_binary]. unfold bounded, canonical_mantissa.
  intros H. apply andb_true_iff in H as [Hc He].
  apply Z.eqb_eq in Hc. apply Z.leb_le in He. auto.
Qed.

Lemma dmul_one_l x : valid x -> dmul (lit 1) x = x.
Proof.
  change (lit 1) with (S754_finite false 4503599627370496 (-52)).
  destruct x as [s|s| |s m e]; try reflexivity.
  intros H. apply valid_finite in H as [Hc He].
  unfold dmul, SFmul. cbn [xorb].
  change (4503599627370496 * m)%positive with (Pos.iter xO m 52%positive).
  apply canonical_round; assumption.
Qed.

Lemma dmul_minus_one_l x : valid x -> dmul (lit (-1)) x = dneg x.
Proof.
  change (lit (-1)) with (S754_finite true 4503599627370496 (-52)).
  destruct x as [s|s| |s m e]; try reflexivity.
  intros H. apply valid_finite in H as [Hc He].
  unfold dmul, SFmul. cbn [xorb dneg SFopp].
  change (4503599627370496 * m)%positive with (Pos.iter xO m 52%positive).
  apply canonical_round; assumption.
Qed.

End DblFacts.

Export DblFacts.

(** ** The global pool *)

Module PoolFacts.
Import GlobalPool.

(** the three vectors of the pool have the size of the pool *)
Definition well_sized (p : t) : Prop :=
  length (linearization_coefficients p) = size p /\
  length (is_diagonal p) = size p.

(** every name of the combination is a name of the pool, and the
    linearizations named have [n] coefficients each *)
Definition names_in (p : t) (n : nat) (L : LinearCombination) : Prop :=
  Forall (fun nc => exists y c d,
            linearization_coefficients p !! fst nc = Some y /\ length y = n /\
            linearization_constants p !! fst nc = Some c /\
            is_diagonal p !! fst nc = Some d) L.

Definition diagonal (p : t) (name : nat) : bool :=
  match is_diagonal p !! name with Some d => d | None => false end.

Definition stored_constant (p : t) (name : nat) : dbl :=
  match linearization_constants p !! name with Some c => c | None => NaN end.

Definition stored_coefficients (p : t) (name : nat) : list dbl :=
  match linearization_coefficients p !! name with Some y => y | None => [] end.

(** some multiplier is smaller than minus the tolerance *)
Definition negative_multiplier (AAccMlt : dbl) (L : LinearCombination) : bool :=
  existsb (fun nc => dltb (snd nc) (dneg AAccMlt)) L.

Definition some_diagonal (p : t) (L : LinearCombination) : bool :=
  existsb (fun nc => diagonal p (fst nc)) L.

(** the multipliers of the diagonal summands, in the order of [L] *)
Fixpoint diagonal_multipliers (p : t) (L : LinearCombination) : list dbl :=
  match L with
  | [] => []
  | nc :: L' => if diagonal p (fst nc)
                then snd nc :: diagonal_multipliers p L'
                else diagonal_multipliers p L'
  end.

(** sums are taken from the left, as the code accumulates them *)
Definition dsum (l : list dbl) : dbl := foldl dadd zero l.

(** the sum of the diagonal multipliers differs from 1 by more than the
    tolerance times the number of summands *)
Definition far_from_convex (p : t) (AAccMlt : dbl) (L : LinearCombination)
  : bool :=
  dgtb (dabs (dsub one (dsum (diagonal_multipliers p L))))
       (dmul AAccMlt (of_nat (length L))).


(** the weighted sum of the stored constants *)
Definition weighted_constants (p : t) (L : LinearCombination) : list dbl :=
  map (fun nc => dmul (snd nc) (stored_constant p (fst nc))) L.

(** the weighted sum of the stored coefficients, by component *)
Definition add_scaled (m : dbl) (x y : list dbl) : list dbl :=
  zip_with (fun xi yi => dadd xi (dmul m yi)) x y.

Definition weighted_coefficients (p : t) (n : nat) (L : LinearCombination)
  : list dbl :=
  foldl (fun x nc => add_scaled (snd nc) x (stored_coefficients p (fst nc)))
        (replicate n zero) L.

Lemma summand_Done p tol n nc a :
  names_in p n [nc] ->
  dltb (snd nc) (dneg tol) = false ->
  (coefficients a = [] \/ length (coefficients a) = n) ->
  exists cf,
    summand p tol nc a =
      Done (mk_acc (diagonal p (fst nc) || diagonal_linearization a) cf
                   (dadd (constant a) (dmul (snd nc) (stored_constant p (fst nc))))
                   (if diagonal p (fst nc)
                    then dadd (coeff_sum_diagonal a) (snd nc)
                    else coeff_sum_diagonal a)) /\
    (cf = [] \/ length cf = n) /\
    (n <> 0 -> cf = if empty (coefficients a) then replicate n zero
                    else add_scaled (snd nc) (coefficients a)
                                    (stored_coefficients p (fst nc))).
Proof.
  intros Hn Hneg Hcf. apply Forall_inv in Hn.
  destruct Hn as (y & c & d & Hy & Hlen & Hc & Hd).
  unfold summand, diagonal, stored_constant, stored_coefficients.
  rewrite Hneg, (vget_lookup _ _ _ Hy), (vget_lookup _ _ _ Hc),
    (vget_lookup _ _ _ Hd), Hy, Hc, Hd. simpl.
  destruct (coefficients a) as [|x0 xs] eqn:E; simpl.
  - eexists; split; [destruct d; reflexivity|]. rewrite length_replicate, Hlen.
    split; [right; reflexivity | reflexivity].
  - destruct Hcf as [Hcf | Hcf]; [discriminate|].
    unfold combine. simpl in Hcf.
    destruct (decide (length (x0 :: xs) = length y)) as [e|ne];
      [|simpl in ne; lia].
    simpl. eexists; split; [destruct d; reflexivity|].
    split; [right | reflexivity].
    destruct y as [|y0 ys]; simpl in *; [lia|].
    rewrite length_zip_with. lia.
Qed.


(** the loop over the summands, when no multiplier is refused *)
Lemma loop_Done p tol n L : forall a,
  names_in p n L ->
  negative_multiplier tol L = false ->
  (coefficients a = [] \/ length (coefficients a) = n) ->
  exists cf,
    for_each (summand p tol) L a =
      Done (mk_acc (some_diagonal p L || diagonal_linearization a) cf
                   (foldl dadd (constant a) (weighted_constants p L))
                   (foldl dadd (coeff_sum_diagonal a)
                          (diagonal_multipliers p L))) /\
    (cf = [] \/ length cf = n).
Proof.
  induction L as [|nc L IH]; intros a Hn Hneg Hcf; simpl.
  - exists (coefficients a). destruct a; simpl. auto.
  - simpl in Hneg. apply orb_false_elim in Hneg as [Hneg1 Hneg2].
    inversion Hn as [|? ? Hn1 Hn2]; subst.
    destruct (summand_Done p tol n nc a) as (cf & -> & Hcf' & _); auto.
    { constructor; [exact Hn1 | constructor]. }
    simpl.
    destruct (IH (mk_acc (diagonal p (fst nc) || diagonal_linearization a) cf
                    (dadd (constant a) (dmul (snd nc) (stored_constant p (fst nc))))
                    (if diagonal p (fst nc)
                     then dadd (coeff_sum_diagonal a) (snd nc)
                     else coeff_sum_diagonal a)))
      as (cf2 & -> & Hcf2); auto.
    exists cf2. split; [|exact Hcf2]. simpl.
    destruct (diagonal p (fst nc)); simpl; try reflexivity.
    rewrite orb_true_r. reflexivity.
Qed.


Lemma store_Done constant coefficients name d p :
  well_sized p -> name < size p ->
  store constant coefficients name d p =
    Done {| linearization_constants := <[name := constant]> (linearization_constants p);
            linearization_coefficients :=
              <[name := coefficients]> (linearization_coefficients p);
            important_linearization_lin_comb := important_linearization_lin_comb p;
            is_diagonal := <[name := d]> (is_diagonal p) |}.
Proof.
  intros [H1 H2] Hn. unfold store, size in *.
  destruct (decide _) as [?|_]; [lia|].
  rewrite !vset_lt by lia. reflexivity.
Qed.

End PoolFacts.

Module PoolTheorems.
Import GlobalPool PoolFacts.

(** The combination as the code forms it: when the summands have [n > 0]
    coefficients, the coefficients stored are the weighted sum of the
    summands after the first; the stored constant is the weighted sum of all
    the constants. *)
Lemma loop_coefficients p tol n L : forall a,
  n <> 0 ->
  names_in p n L ->
  negative_multiplier tol L = false ->
  length (coefficients a) = n ->
  exists acc',
    for_each (summand p tol) L a = Done acc' /\
    coefficients acc' =
      foldl (fun x nc => add_scaled (snd nc) x (stored_coefficients p (fst nc)))
            (coefficients a) L.
Proof.
  induction L as [|nc L IH]; intros a Hn0 Hn Hneg Hcf; simpl.
  - eauto.
  - simpl in Hneg. apply orb_false_elim in Hneg as [Hneg1 Hneg2].
    inversion Hn as [|? ? Hn1 Hn2]; subst.
    destruct (summand_Done p tol (length (coefficients a)) nc a)
      as (cf & -> & Hcf' & Heq); auto.
    { constructor; [exact Hn1 | constructor]. }
    specialize (Heq Hn0). simpl.
    assert (Hne : empty (coefficients a) = false).
    { destruct (coefficients a); [simpl in Hn0; lia | reflexivity]. }
    rewrite Hne in Heq.
    destruct Hcf' as [-> | Hlen].
    { exfalso. symmetry in Heq. unfold add_scaled in Heq.
      apply (f_equal length) in Heq. rewrite length_zip_with in Heq.
      destruct Hn1 as (y & c & d & Hy & Hlen & _).
      unfold stored_coefficients in Heq. rewrite Hy in Heq. simpl in Heq. lia. }
    match goal with
    | |- context [for_each _ L ?a'] =>
        destruct (IH a') as (acc' & -> & Hacc'); auto
    end.
    exists acc'. split; [reflexivity|]. rewrite Hacc'. simpl. rewrite Heq.
    reflexivity.
Qed.


(** What [store_combination_of_linearizations] stores when it succeeds, for
    summands with [n > 0] coefficients: the constant is the weighted sum of
    the constants of all the summands, the coefficients are the weighted sum
    of the coefficients of the summands after the first. *)
Lemma combination_as_computed p nc L name tol n :
  well_sized p -> name < size p -> n <> 0 ->
  names_in p n (nc :: L) ->
  negative_multiplier tol (nc :: L) = false ->
  some_diagonal p (nc :: L) && far_from_convex p tol (nc :: L) = false ->
  exists p',
    store_combination_of_linearizations (nc :: L) name tol p = Done p' /\
    linearization_coefficients p' !! name = Some (weighted_coefficients p n L) /\
    linearization_constants p' !! name =
      Some (dsum (weighted_constants p (nc :: L))) /\
    is_diagonal p' !! name = Some (some_diagonal p (nc :: L)).
Proof.
  intros Hw Hname Hn0 Hn Hneg Hconv.
  unfold store_combination_of_linearizations.
  destruct (decide (size p <= name)) as [?|_]; [lia|].
  cbn [empty for_each].
  pose proof Hneg as Hneg'. cbn [negative_multiplier existsb] in Hneg'.
  apply orb_false_elim in Hneg' as [Hneg1 Hneg2].
  inversion Hn as [|? ? Hn1 Hn2]; subst.
  destruct (summand_Done p tol n nc acc0) as (cf & -> & _ & Heq); auto.
  { constructor; [exact Hn1 | constructor]. }
  specialize (Heq Hn0). cbn [acc0 coefficients empty] in Heq. subst cf.
  cbn [bind acc0 diagonal_linearization constant coeff_sum_diagonal].
  match goal with
  | |- context [for_each _ L ?a'] =>
      destruct (loop_Done p tol n L a') as (cf & E1 & _); auto;
      [right; apply length_replicate|];
      destruct (loop_coefficients p tol n L a') as (acc' & E2 & Hcf); auto;
      [apply length_replicate|]
  end.
  rewrite E1 in E2. inversion E2; subst acc'. clear E2.
  rewrite E1. cbn [bind diagonal_linearization coeff_sum_diagonal constant
                   coefficients] in *.
  assert (Hd : some_diagonal p L || (diagonal p nc.1 || false) =
               some_diagonal p (nc :: L)).
  { cbn [some_diagonal existsb]. rewrite orb_false_r, orb_comm. reflexivity. }
  assert (Hs : foldl dadd (if diagonal p nc.1 then dadd zero nc.2 else zero)
                     (diagonal_multipliers p L) =
               dsum (diagonal_multipliers p (nc :: L))).
  { unfold dsum. cbn [diagonal_multipliers].
    destruct (diagonal p nc.1); reflexivity. }
  rewrite Hd, Hs.
  unfold far_from_convex in Hconv. rewrite Hconv.
  rewrite store_Done by assumption.
  destruct Hw as [Hw1 Hw2]. unfold size in *.
  eexists; split; [reflexivity|]. cbn.
  rewrite !list_lookup_insert_eq by lia.
  repeat split. rewrite Hcf. reflexivity.
Qed.


(** two diagonal linearizations with coefficients (1,0) and (0,1) and
    constants [a] and [b] under the names 0 and 1, and a free name 2 *)
Definition two_diagonals (a b : dbl) : t :=
  {| linearization_constants := [a; b; NaN];
     linearization_coefficients := [[lit 1; lit 0]; [lit 0; lit 1]; []];
     important_linearization_lin_comb := [];
     is_diagonal := [true; true; false] |}.

Definition halves : LinearCombination := [(0, lit (1 # 2)); (1, lit (1 # 2))].

(** C1, at the combination of the specification: with weights 0.5 and 0.5
    on the names 0 and 1 the call succeeds and stores a diagonal
    linearization whose constant is 0.5a + 0.5b, but whose coefficients are
    (0, 0.5): the coefficients of the first summand are left out. *)
Theorem C1_first_summand_left_out (a b : dbl) :
  exists p',
    store_combination_of_linearizations halves 2 (lit (1 # 1000000))
                                        (two_diagonals a b) = Done p' /\
    get_linearization_coefficients p' (0, 2) 2 = Done [lit 0; lit (1 # 2)] /\
    (exists c, get_linearization_constant p' 2 = Done c /\
               c =d= dadd (dmul (lit (1 # 2)) a) (dmul (lit (1 # 2)) b))%D /\
    is_diagonal p' !! 2 = Some true.
Proof.
  destruct (combination_as_computed (two_diagonals a b) (0, lit (1 # 2))
              [(1, lit (1 # 2))] 2 (lit (1 # 1000000)) 2)
    as (p' & E & Hcf & Hc & Hd).
  - split; reflexivity.
  - cbn. lia.
  - lia.
  - repeat constructor; cbn; eauto 10.
  - vm_compute. reflexivity.
  - vm_compute. reflexivity.
  - exists p'. split; [exact E|].
    split; [|split].
    + unfold get_linearization_coefficients. rewrite (vget_lookup _ _ _ Hcf).
      vm_compute. reflexivity.
    + unfold get_linearization_constant.
      assert (Hlt : 2 < size p').
      { unfold size. apply lookup_lt_is_Some. eauto. }
      destruct (decide (2 < size p')); [|lia].
      rewrite (vget_lookup _ _ _ Hc). eexists; split; [reflexivity|].
      apply (deq_trans _
               (dadd (dadd zero (dmul (lit (1 # 2)) a))
                     (dmul (lit (1 # 2)) b))).
      * apply deq_eq. reflexivity.
      * rewrite dadd_zero_l. reflexivity.
    + rewrite Hd. reflexivity.
Qed.






End PoolTheorems.
(** ** The investment function: feasibility and cuts *)

Module CutFacts.
Import InvestmentFunction.

(** row [i] of the linear constraints holds at the current point within the
    relative tolerance: the check of the row reports no violated side *)
Definition row_holds (s : t) (i : nat) : Prop := check_row s i = Done None.

Definition row_violated (s : t) (i : nat) (side : ConstraintSide) : Prop :=
  check_row s i = Done (Some side).

Definition feasible (s : t) : Prop :=
  forall i, i < length (v_A s) -> row_holds s i.


(** every row of the constraints has one column per variable *)
Definition columns_match (s : t) : Prop :=
  Forall (fun row => length row = length (v_x s)) (v_A s).

(** the shift [s_j] of variable [j]: its lower bound when the bounds are
    reformulated and that bound is finite, 0 otherwise *)
Definition shift (s : t) (j : nat) : dbl :=
  if f_reformulated_bounds s then
    match v_lower_bound s !! j with
    | Some l => if isfinite l then l else zero
    | None => zero
    end
  else zero.

(** the sum over [j] of [row_j * s_j] *)
Definition shifted_sum (s : t) (row : list dbl) : dbl :=
  foldl dadd zero (imap (fun j a => dmul a (shift s j)) row).

(** a lower bound is a finite number or minus infinity *)
Definition lower_bound_ok (l : dbl) : Prop :=
  isfinite l = true \/ l = NInf.

(** a finite number that a [double] can hold *)
Definition finite (x : dbl) : Prop := isfinite x = true /\ valid x.

Definition bound_of (s : t) (i : nat) (side : ConstraintSide) : option dbl :=
  match side with
  | eLHS => v_constraints_lower_bound s !! i
  | eRHS => v_constraints_upper_bound s !! i
  end.

(** the coefficients of the cut of a violated side: minus the row for the
    lower side, the row for the upper side *)
Definition signed_row (side : ConstraintSide) (row : list dbl) : list dbl :=
  match side with eLHS => map dneg row | eRHS => row end.

Definition vertical_constant (s : t) (side : ConstraintSide) (bound : dbl)
    (row : list dbl) : dbl :=
  match side with
  | eLHS => dsub bound (shifted_sum s row)
  | eRHS => dsub (shifted_sum s row) bound
  end.

Lemma read_loop {A B} (f : A -> B) (v : list A) n : forall k g0,
  k + n <= length v ->
  for_each (fun i g => let! a := vget v i in Done (g ++ [f a])) (seq k n) g0 =
  Done (g0 ++ map f (take n (drop k v))).
Proof.
  induction n as [|n IH]; intros k g0 Hk; simpl.
  - rewrite app_nil_r. reflexivity.
  - destruct (lookup_lt_is_Some_2 v k) as [a Ha]; [lia|].
    rewrite (vget_lookup _ _ _ Ha). simpl.
    rewrite IH by lia.
    rewrite (drop_S _ _ _ Ha). simpl. rewrite <- app_assoc. reflexivity.
Qed.

(** a loop that overwrites the positions [k .. k+n) of [lin] from [row] *)
Lemma write_loop (f : dbl -> dbl) (row : list dbl) n : forall k lin,
  k + n <= length row -> k + n <= length lin ->
  for_each (fun j lin => let! a := vget row j in vset lin j (f a)) (seq k n) lin =
  Done (take k lin ++ map f (take n (drop k row)) ++ drop (k + n) lin).
Proof.
  induction n as [|n IH]; intros k lin Hr Hl; simpl.
  - rewrite Nat.add_0_r, take_drop. reflexivity.
  - destruct (lookup_lt_is_Some_2 row k) as [a Ha]; [lia|].
    rewrite (vget_lookup _ _ _ Ha). simpl.
    rewrite vset_lt by lia. simpl.
    rewrite IH by (rewrite ?length_insert; lia).
    f_equal. rewrite (drop_S _ _ _ Ha). simpl.
    rewrite take_insert_lt by lia.
    rewrite drop_insert_lt by lia.
    replace (S k + n) with (k + S n) by lia.
    assert (Hk : k < length lin) by lia.
    destruct (lookup_lt_is_Some_2 lin k Hk) as [b Hb].
    rewrite (take_S_r _ _ _ Hb).
    rewrite insert_app_r_alt by (rewrite length_take; lia).
    rewrite length_take, Nat.min_l by lia. rewrite Nat.sub_diag. simpl.
    rewrite <- app_assoc. simpl. rewrite Nat.add_succ_r. reflexivity.
Qed.


Lemma foldl_dadd_deq l : forall acc acc',
  (acc =d= acc')%D -> (foldl dadd acc l =d= foldl dadd acc' l)%D.
Proof.
  induction l as [|x l IH]; intros acc acc' H; simpl; [exact H|].
  apply IH. rewrite H. reflexivity.
Qed.

Lemma signed_row_deq side row :
  Forall finite row ->
  Forall2 deq (map (dmul (sign_of side)) row) (signed_row side row).
Proof.
  intros Hfin. destruct side; cbn [sign_of signed_row].
  - induction Hfin as [|a row [_ Ha] _ IH]; cbn [map]; constructor; auto.
    rewrite (dmul_minus_one_l _ Ha). reflexivity.
  - induction Hfin as [|a row [_ Ha] _ IH]; cbn [map]; constructor; auto.
    rewrite (dmul_one_l _ Ha). reflexivity.
Qed.

Lemma finite_above_minus_infinity l : isfinite l = true -> dgtb l NInf = true.
Proof. destruct l as [[]|[]| |[]]; try discriminate; reflexivity. Qed.

(** the loop of [get_linearization_constant] over the columns of the
    violated row, under reformulated bounds *)
Lemma shift_loop s row :
  f_reformulated_bounds s = true ->
  Forall lower_bound_ok (v_lower_bound s) ->
  forall row' k acc acc',
    drop k row = row' -> Forall finite row' -> (acc =d= acc')%D ->
    exists r,
      for_each (fun j alpha =>
                  match v_lower_bound s !! j with
                  | Some l =>
                      if dgtb l NInf
                      then let! a := vget row j in Done (dadd alpha (dmul a l))
                      else Done alpha
                  | None => Done alpha
                  end) (seq k (length row')) acc = Done r /\
      (r =d= foldl dadd acc' (imap (fun j a => dmul a (shift s (k + j))) row'))%D.
Proof.
  intros Href Hlb row'.
  induction row' as [|a row' IH]; intros k acc acc' Hdrop Hfin Hacc;
    cbn [length seq for_each imap foldl].
  - eauto.
  - assert (Ha : row !! k = Some a).
    { rewrite <- (Nat.add_0_r k), <- lookup_drop, Hdrop. reflexivity. }
    assert (Hdrop' : drop (S k) row = row').
    { rewrite (drop_S _ _ _ Ha) in Hdrop. inversion Hdrop. reflexivity. }
    apply Forall_cons in Hfin as [[Hq _] Hfin'].
    assert (Hstep : forall alpha, exists alpha',
      match v_lower_bound s !! k with
      | Some l =>
          if dgtb l NInf
          then let! a := vget row k in Done (dadd alpha (dmul a l))
          else Done alpha
      | None => Done alpha
      end = Done alpha' /\
      (alpha' =d= dadd alpha (dmul a (shift s (k + 0))))%D).
    { intros alpha. unfold shift. rewrite Href, Nat.add_0_r.
      destruct (v_lower_bound s !! k) as [l|] eqn:El.
      - pose proof (proj1 (Forall_lookup _ _) Hlb _ _ El) as Hok.
        destruct Hok as [Hl | ->].
        + rewrite (finite_above_minus_infinity _ Hl), Hl.
          rewrite (vget_lookup _ _ _ Ha). cbn [bind].
          eexists; split; [reflexivity|]. reflexivity.
        + change (dgtb NInf NInf) with false. cbn [isfinite].
          eexists; split; [reflexivity|].
          rewrite (dmul_zero_r _ Hq), dadd_zero_r. reflexivity.
      - eexists; split; [reflexivity|].
        rewrite (dmul_zero_r _ Hq), dadd_zero_r. reflexivity. }
    destruct (Hstep acc) as (alpha' & -> & Halpha). cbn [bind].
    destruct (IH (S k) alpha' (dadd acc' (dmul a (shift s (k + 0))))
                 Hdrop' Hfin') as (r & -> & Hr).
    { rewrite Halpha, Hacc. reflexivity. }
    exists r. split; [reflexivity|]. rewrite Hr.
    apply deq_eq. f_equal. apply imap_ext. intros j x _. simpl.
    rewrite Nat.add_succ_r. reflexivity.
Qed.

Lemma shifted_sum_natural s row :
  f_reformulated_bounds s = false -> Forall finite row ->
  (shifted_sum s row =d= zero)%D.
Proof.
  intros Href Hfin. unfold shifted_sum.
  assert (H : forall acc k,
             (foldl dadd acc (imap (fun j a => dmul a (shift s (k + j))) row)
              =d= acc)%D).
  { induction Hfin as [|a row [Hq _] _ IH]; intros acc k; cbn [imap foldl].
    - reflexivity.
    - erewrite imap_ext; [rewrite (IH _ (S k))|].
      + unfold shift. rewrite Href. cbv iota.
        rewrite (dmul_zero_r _ Hq), dadd_zero_r. reflexivity.
      + intros j x _. simpl. rewrite Nat.add_succ_r. reflexivity. }
  apply (H zero 0).
Qed.

Lemma has_linearization_vertical s i side row :
  f_violated_constraint s = (Some i, side) ->
  v_A s !! i = Some row ->
  length row = length (v_x s) ->
  length (v_linearization s) = length (v_x s) ->
  has_linearization false s =
    Done (true,
          set_v_linearization (map (dmul (sign_of side)) row)
            (set_f_diagonal_linearization_required false s)).
Proof.
  intros Hv Hrow Hlen Hlin. unfold has_linearization.
  cbn [f_violated_constraint set_f_diagonal_linearization_required
       v_A v_x v_linearization].
  rewrite Hv. cbn [fst snd]. rewrite (vget_lookup _ _ _ Hrow). cbn [bind].
  rewrite write_loop by lia. cbn [bind].
  rewrite take_0, drop_0, <- Hlen, firstn_all, drop_ge by lia.
  rewrite app_nil_r. reflexivity.
Qed.


(** C3: once a violated side [(i, side)] is recorded, the vertical
    linearization read back has the coefficients [-a_i] for the lower side
    and [+a_i] for the upper side, and the constant [l_i - sum_j a_ij s_j]
    for the lower side and [sum_j a_ij s_j - u_i] for the upper side, where
    [s_j] is the lower bound of variable [j] when the bounds are
    reformulated and that bound is finite, and 0 otherwise. *)
Theorem C3_vertical_linearization s i side row bound :
  f_violated_constraint s = (Some i, side) ->
  v_A s !! i = Some row ->
  bound_of s i side = Some bound ->
  length row = length (v_x s) ->
  length (v_linearization s) = length (v_x s) ->
  Forall finite row ->
  Forall lower_bound_ok (v_lower_bound s) ->
  exists s' g c,
    has_linearization false s = Done (true, s') /\
    get_linearization_coefficients s' (0, length (v_x s)) None = Done g /\
    get_linearization_constant s' None = Done c /\
    Forall2 deq g (signed_row side row) /\
    (c =d= vertical_constant s side bound row)%D.
Proof.
  intros Hv Hrow Hb Hlen Hlin Hfin Hlb.
  rewrite (has_linearization_vertical s i side row) by assumption.
  eexists; exists (map (dmul (sign_of side)) row).
  assert (Hc : exists alpha,
    (if f_reformulated_bounds s
     then for_each (fun j alpha =>
                      match v_lower_bound s !! j with
                      | Some l =>
                          if dgtb l NInf
                          then let! a := vget row j in
                               Done (dadd alpha (dmul a l))
                          else Done alpha
                      | None => Done alpha
                      end) (seq 0 (length row)) zero
     else Done zero) = Done alpha /\ (alpha =d= shifted_sum s row)%D).
  { destruct (f_reformulated_bounds s) eqn:Href.
    - destruct (shift_loop s row Href Hlb row 0 zero zero) as (r & E & Hr);
        auto using drop_0; [reflexivity|].
      exists r. split; [exact E | exact Hr].
    - eexists; split; [reflexivity|].
      symmetry. apply shifted_sum_natural; assumption. }
  destruct Hc as (alpha & Ealpha & Halpha).
  exists (match side with eLHS => dsub bound alpha | eRHS => dsub alpha bound end).
  split; [reflexivity|]. split; [|split; [|split]].
  - unfold get_linearization_coefficients.
    cbn [fst snd v_x set_v_linearization
         set_f_diagonal_linearization_required
         f_diagonal_linearization_required f_violated_constraint v_A
         global_pool v_linearization].
    rewrite Nat.min_id.
    destruct (decide (length (v_x s) <= 0)) as [Hz|Hz].
    + destruct row; [reflexivity | simpl in Hlen; lia].
    + rewrite Hv. cbn [fst snd]. rewrite (vget_lookup _ _ _ Hrow). cbn [bind].
      rewrite Nat.sub_0_r, read_loop by lia.
      rewrite drop_0, <- Hlen, firstn_all. reflexivity.
  - unfold get_linearization_constant.
    cbn [f_diagonal_linearization_required set_v_linearization
         set_f_diagonal_linearization_required f_violated_constraint v_A
         f_reformulated_bounds v_lower_bound v_constraints_lower_bound
         v_constraints_upper_bound].
    rewrite Hv. cbn [fst snd]. rewrite (vget_lookup _ _ _ Hrow). cbn [bind].
    rewrite Ealpha. cbn [bind].
    destruct side; cbn [bound_of] in Hb; rewrite (vget_lookup _ _ _ Hb);
      reflexivity.
  - apply signed_row_deq. exact Hfin.
  - destruct side; cbn [vertical_constant]; rewrite Halpha; reflexivity.
Qed.

(** the point (3, 1) against the constraint [x_0 + x_1 <= 2] *)
Definition over_the_limit : t :=
  mk [ColVariable.mk 0 (lit 3); ColVariable.mk 1 (lit 1)]
     false kOK false true (lit (1 # 1000000)) false false true false PInf
     (lit (1 # 1000000)) [0; 1] [eUnitBlock; eUnitBlock] [zero; zero]
     [lit 10; lit 20] [zero; zero] [zero; zero] [zero; zero]
     [[lit 1; lit 1]] [NInf] [lit 2] (Some 0, eRHS)
     (GlobalPool.mk [] [] [] []) [] false ∅ ∅ 1 [].

Lemma C3_vertical_linearization_witness :
  exists s' g c,
    has_linearization false over_the_limit = Done (true, s') /\
    get_linearization_coefficients s' (0, 2) None = Done g /\
    get_linearization_constant s' None = Done c /\
    Forall2 deq g [lit 1; lit 1] /\
    (c =d= vertical_constant over_the_limit eRHS (lit 2) [lit 1; lit 1])%D.
Proof.
  apply (C3_vertical_linearization over_the_limit 0 eRHS [lit 1; lit 1] (lit 2)).
  - reflexivity.
  - reflexivity.
  - reflexivity.
  - reflexivity.
  - reflexivity.
  - repeat constructor.
  - repeat constructor.
Defined.

(** *** The test of a row, spelled out *)

(** the value of variable [j] as the model outside sees it: the internal
    value plus the lower bound when the bounds are reformulated and the
    variable has a lower bound above minus infinity *)
Definition externalized (s : t) (j : nat) (x : ColVariable) : dbl :=
  if f_reformulated_bounds s then
    match v_lower_bound s !! j with
    | Some l => if dgtb l NInf
                then dadd (ColVariable.get_value x) l
                else ColVariable.get_value x
    | None => ColVariable.get_value x
    end
  else ColVariable.get_value x.

Definition externals (s : t) : list dbl := imap (externalized s) (v_x s).

(** the value [a_i0 * x_0 + a_i1 * x_1 + ...] of a row at the external
    values, summed from 0 in the order of the columns *)
Definition row_value (s : t) (row : list dbl) : dbl :=
  foldl (fun v ax => dadd v (dmul (fst ax) (snd ax))) zero
        (zip row (externals s)).

(** the relative tolerance: the gap is positive and, divided by
    [max( 1 , |bound| )], it is larger than the tolerance *)
Definition exceeds (tolerance bound gap : dbl) : bool :=
  dgtb gap zero && dgtb (ddiv gap (dmax one (dabs bound))) tolerance.

(** the side that a row of value [v] violates: the lower side goes first *)
Definition violated_side (tolerance lb ub v : dbl) : option ConstraintSide :=
  if exceeds tolerance lb (dsub lb v) then Some eLHS
  else if exceeds tolerance ub (dsub v ub) then Some eRHS
  else None.

(** what the test of row [i] answers, when the row has its two bounds *)
Definition side_of_row (s : t) (i : nat) (side : option ConstraintSide)
  : Prop :=
  exists row lb ub,
    v_A s !! i = Some row /\
    v_constraints_lower_bound s !! i = Some lb /\
    v_constraints_upper_bound s !! i = Some ub /\
    violated_side (f_constraints_tolerance s) lb ub (row_value s row) = side.



Lemma get_var_value_external s j x :
  v_x s !! j = Some x -> get_var_value s j false = Done (externalized s j x).
Proof.
  intros Hx. unfold get_var_value, externalized.
  rewrite (vget_lookup _ _ _ Hx). cbn [bind negb]. rewrite andb_true_r.
  destruct (f_reformulated_bounds s); [|reflexivity].
  destruct (v_lower_bound s !! j) as [l|]; [|reflexivity].
  destruct (dgtb l NInf); reflexivity.
Qed.

Lemma row_value_loop s row : forall n k acc,
  k + n = length row -> length row <= length (v_x s) ->
  for_each (fun j value =>
              let! a := vget row j in
              let! x := get_var_value s j false in
              Done (dadd value (dmul a x))) (seq k n) acc =
  Done (foldl (fun v ax => dadd v (dmul (fst ax) (snd ax))) acc
              (zip (drop k row) (drop k (externals s)))).
Proof.
  induction n as [|n IH]; intros k acc Hk Hlen.
  - rewrite (drop_ge row) by lia. reflexivity.
  - destruct (lookup_lt_is_Some_2 row k) as [a Ha]; [lia|].
    destruct (lookup_lt_is_Some_2 (v_x s) k) as [x Hx]; [lia|].
    assert (He : externals s !! k = Some (externalized s k x)).
    { unfold externals. rewrite list_lookup_imap, Hx. reflexivity. }
    rewrite (drop_S _ _ _ Ha), (drop_S _ _ _ He).
    cbn [seq for_each zip_with foldl fst snd].
    rewrite (vget_lookup _ _ _ Ha). cbn [bind].
    rewrite (get_var_value_external _ _ _ Hx). cbn [bind].
    apply IH; lia.
Qed.

Lemma compute_linear_constraint_value_spec s i row :
  v_A s !! i = Some row -> length row <= length (v_x s) ->
  compute_linear_constraint_value s i = Done (row_value s row).
Proof.
  intros Hrow Hlen. unfold compute_linear_constraint_value.
  rewrite (vget_lookup _ _ _ Hrow). cbn [bind].
  rewrite (row_value_loop s row (length row) 0 zero) by lia.
  rewrite !drop_0. reflexivity.
Qed.

(** the test of a row in [is_feasible] is the test spelled out above *)
Lemma check_row_spec s i row lb ub :
  v_A s !! i = Some row -> length row <= length (v_x s) ->
  v_constraints_lower_bound s !! i = Some lb ->
  v_constraints_upper_bound s !! i = Some ub ->
  check_row s i =
    Done (violated_side (f_constraints_tolerance s) lb ub (row_value s row)).
Proof.
  intros Hrow Hlen Hlb Hub. unfold check_row.
  rewrite (compute_linear_constraint_value_spec s i row Hrow Hlen).
  cbn [bind]. rewrite (vget_lookup _ _ _ Hlb). cbn [bind].
  unfold violated_side, exceeds.
  destruct (dgtb (dsub lb (row_value s row)) zero &&
            dgtb (ddiv (dsub lb (row_value s row)) (dmax one (dabs lb)))
                 (f_constraints_tolerance s)); [reflexivity|].
  rewrite (vget_lookup _ _ _ Hub). cbn [bind].
  destruct (dgtb (dsub (row_value s row) ub) zero &&
            dgtb (ddiv (dsub (row_value s row) ub) (dmax one (dabs ub)))
                 (f_constraints_tolerance s)); reflexivity.
Qed.

(** every row of the constraints has a lower and an upper bound *)
Definition bounds_match (s : t) : Prop :=
  length (v_constraints_lower_bound s) = length (v_A s) /\
  length (v_constraints_upper_bound s) = length (v_A s).


(** a row is within the tolerance or violated on one side *)
Lemma side_of_row_total s i :
  bounds_match s -> i < length (v_A s) -> exists side, side_of_row s i side.
Proof.
  intros [Hl Hu] Hi.
  destruct (lookup_lt_is_Some_2 (v_A s) i Hi) as [row Hrow].
  destruct (lookup_lt_is_Some_2 (v_constraints_lower_bound s) i) as [lb Hlb];
    [lia|].
  destruct (lookup_lt_is_Some_2 (v_constraints_upper_bound s) i) as [ub Hub];
    [lia|].
  eexists. exists row, lb, ub. repeat split; eassumption.
Qed.

End CutFacts.
(** ** The investment function: reformulated bounds *)

Module ReformulationFacts.
Import InvestmentFunction CutFacts.















End ReformulationFacts.

(** ** The investment function: compute *)

Module ComputeFacts.
Import InvestmentFunction CutFacts.

(** the data members that no step of [compute] after the reset of the
    result writes, except for the flags set on its last lines *)
Definition core (s : t) :=
  (v_x s, v_asset_indices s, v_asset_type s, v_cost s, v_disinvestment_cost s,
   v_installed_quantity s, v_lower_bound s, v_A s,
   v_constraints_lower_bound s, v_constraints_upper_bound s,
   f_constraints_tolerance s, f_reformulated_bounds s,
   f_compute_linearization s, f_has_value s, f_has_diagonal_linearization s,
   f_violated_constraint s, global_pool s, has_Observer s, modifications s).

(** what the steps before the loop over the scenarios leave alone *)
Definition inner (s : t) :=
  (is_locked s, v_linearization s, events_handled s).

(** what the loop over the scenarios leaves alone *)
Definition outer (s : t) :=
  (block_locked s, solver_has_id s, events_handled s,
   f_ignore_modifications s, f_blocks_are_updated s, f_value s).

(** every slot is free *)
Definition slots_free (n : nat) (locked : list bool) : Prop :=
  locked = [] \/ locked = replicate n false.

Ltac inv_step :=
  match goal with
  | H : Done _ = Done _ |- _ => inversion H; clear H; subst
  | H : Throw _ = Done _ |- _ => discriminate H
  | H : Undefined = Done _ |- _ => discriminate H
  | H : Hang = Done _ |- _ => discriminate H
  | H : (_, _) = (_, _) |- _ => inversion H; clear H; subst
  | H : bind ?m _ = Done _ |- _ =>
      let E := fresh "E" in destruct m eqn:E; cbn [bind] in H
  | H : (if ?b then _ else _) = Done _ |- _ =>
      let E := fresh "E" in destruct b eqn:E
  | H : match ?x with _ => _ end = Done _ |- _ =>
      let E := fresh "E" in destruct x eqn:E
  end.

Ltac inv_all := repeat inv_step.

Lemma for_each_invariant {A S} (P : S -> Prop) (body : A -> S -> outcome S)
    items :
  (forall a s s', P s -> body a s = Done s' -> P s') ->
  forall s s', P s -> for_each body items s = Done s' -> P s'.
Proof.
  intros Hbody. induction items as [|a items IH]; intros s s' Hs H; simpl in H.
  - inversion H; subst. exact Hs.
  - destruct (body a s) as [s1| | |] eqn:E; simpl in H; try discriminate.
    eapply IH; [|exact H]. eapply Hbody; eauto.
Qed.

Lemma lock_blocks_frame w idx : forall owned s owned' s',
  lock_blocks w idx owned s = inl (owned', s') ->
  core s' = core s /\ inner s' = inner s /\
  f_blocks_are_updated s' = f_blocks_are_updated s /\
  length owned' = length owned + length idx.
Proof.
  induction idx as [|i idx IH]; intros owned s owned' s' H; simpl in H.
  - inversion H; subst. repeat split; simpl; lia.
  - destruct (negb (is_owned_by w i) && negb (lock w i)); [discriminate|].
    apply IH in H as (H1 & H2 & H3 & H4).
    rewrite H1, H2, H3, H4, length_app. simpl.
    destruct (is_owned_by w i); repeat split; lia.
Qed.


Lemma lend_identity_frame w s :
  core (lend_identity w s) = core s /\
  inner (lend_identity w s) = inner s /\
  f_blocks_are_updated (lend_identity w s) = f_blocks_are_updated s.
Proof.
  unfold lend_identity. generalize (seq 0 (number_sub_blocks w)).
  intros l. revert s. induction l as [|i l IH]; intros s; simpl.
  - repeat split.
  - destruct (IH (if has_solver w i
                  then set_solver_has_id ({[i]} ∪ solver_has_id s) s else s))
      as (H1 & H2 & H3).
    rewrite H1, H2, H3. destruct (has_solver w i); repeat split.
Qed.

Lemma update_blocks_frame w s s' e :
  update_blocks w s = Done (s', e) ->
  core s' = core s /\ inner s' = inner s.
Proof.
  unfold update_blocks. intros H. inv_all; split; reflexivity.
Qed.

Lemma unlock_sub_block_frame i s s' :
  unlock_sub_block i s = Done s' ->
  core s' = core s /\ outer s' = outer s /\
  v_linearization s' = v_linearization s /\
  i < length (is_locked s) /\ is_locked s' = <[i := false]> (is_locked s).
Proof.
  unfold unlock_sub_block. intros H. inv_all.
  apply vset_Done in E as [Hlt ->]. repeat split. exact Hlt.
Qed.

Lemma unlock_sub_block_Done i s :
  i < length (is_locked s) ->
  unlock_sub_block i s = Done (set_is_locked (<[i := false]> (is_locked s)) s).
Proof.
  intros H. unfold unlock_sub_block. rewrite vset_lt by exact H. reflexivity.
Qed.

Lemma first_unlocked_replicate n k :
  0 < n -> first_unlocked (replicate n false) k = Some k.
Proof. destruct n; [lia|]. reflexivity. Qed.

Lemma lock_sub_block_free w s :
  0 < number_sub_blocks w ->
  slots_free (number_sub_blocks w) (is_locked s) ->
  lock_sub_block w s =
    Done (0, set_is_locked (<[0 := true]> (replicate (number_sub_blocks w) false)) s).
Proof.
  intros Hn [H | H]; unfold lock_sub_block; rewrite H.
  - cbn [empty]. rewrite first_unlocked_replicate by exact Hn. reflexivity.
  - destruct (number_sub_blocks w) as [|n] eqn:En; [lia|]. reflexivity.
Qed.

Lemma add_to_length a lin lin' :
  add_to a lin = Done lin' -> length lin' = length lin.
Proof.
  unfold add_to. intros H. inv_all.
  apply vset_Done in H as [_ ->]. apply length_insert.
Qed.

Lemma update_linearization_stages_length w sc sb bi li stages :
  forall lin lin' e,
    update_linearization_stages w sc sb bi li stages lin = Done (lin', e) ->
    length lin' = length lin.
Proof.
  induction stages as [|st stages IH]; intros lin lin' e H; simpl in H.
  - inversion H; subst. reflexivity.
  - destruct (for_each add_to (stage_linearization w sc sb st bi li).1 lin)
      as [lin1| | |] eqn:E; cbn [bind] in H; try discriminate.
    assert (Hlen : length lin1 = length lin).
    { apply (for_each_invariant (fun l => length l = length lin) add_to
               _ (fun a l l' Hl Ha => eq_trans (add_to_length a l l' Ha) Hl)
               lin lin1 eq_refl E). }
    destruct (stage_linearization w sc sb st bi li).2.
    + inversion H; subst. exact Hlen.
    + apply IH in H. lia.
Qed.

Lemma update_linearization_frame w sc sb s s' e :
  update_linearization w sc sb s = Done (s', e) ->
  core s' = core s /\ outer s' = outer s /\ is_locked s' = is_locked s /\
  length (v_linearization s') = length (v_linearization s).
Proof.
  unfold update_linearization. intros H. inv_all; repeat split.
  match goal with
  | H : update_linearization_stages _ _ _ _ _ _ _ = Done ?r |- _ =>
      destruct r; apply update_linearization_stages_length in H; exact H
  end.
Qed.


(** what holds of the local variables of the loop before every scenario *)
Definition loop_inv (w : World) (s0 : t) (l : scenario_loop) : Prop :=
  core (this l) = core s0 /\ outer (this l) = outer s0 /\
  length (v_linearization (this l)) = length (v_linearization s0) /\
  slots_free (number_sub_blocks w) (is_locked (this l)) /\
  (interrupt_loop l = true ->
   is_locked (this l) = replicate (number_sub_blocks w) false).

(** every addition to the linearization falls on one of its [m] components *)
Definition additions_in_range (w : World) (m : nat) : Prop :=
  forall sc sb st bi li,
    Forall (fun a => fst a < m) (fst (stage_linearization w sc sb st bi li)).

(** the update of the linearization for scenario [k] ends with an
    exception, whatever the linearization accumulated so far *)
Definition update_throws (w : World) (s : t) (k : nat) : Prop :=
  forall s1,
    v_asset_indices s1 = v_asset_indices s ->
    v_asset_type s1 = v_asset_type s ->
    length (v_linearization s1) = length (v_x s) ->
    exists s2 e, update_linearization w k 0 s1 = Done (s2, Some e).

(** the update of the linearization for scenario [k] returns, whatever
    the linearization accumulated so far *)
Definition update_returns (w : World) (s : t) (k : nat) : Prop :=
  forall s1,
    v_asset_indices s1 = v_asset_indices s ->
    v_asset_type s1 = v_asset_type s ->
    length (v_linearization s1) = length (v_x s) ->
    exists s2, update_linearization w k 0 s1 = Done (s2, None).



Lemma insert_replicate_free n :
  <[0 := false]> (<[0 := true]> (replicate n false)) = replicate n false.
Proof. destruct n; reflexivity. Qed.

Lemma scenario_body_inv w s0 sc l l' :
  0 < number_sub_blocks w ->
  loop_inv w s0 l ->
  scenario_body w sc l = Done l' ->
  loop_inv w s0 l'.
Proof.
  intros Hn (Hc & Ho & Hlen & Hfree & Hint) H. unfold scenario_body in H.
  destruct (interrupt_loop l) eqn:Ei;
    [inversion H; subst; repeat split; try assumption; rewrite Ei; exact Hint|].
  rewrite (lock_sub_block_free w _ Hn Hfree) in H. cbn [bind fst snd] in H.
  destruct (has_solver w 0); cbn [negb] in H; [|discriminate].
  assert (Hfinal : forall s1 s2,
            core s1 = core s0 -> outer s1 = outer s0 ->
            length (v_linearization s1) = length (v_linearization s0) ->
            is_locked s1 = <[0 := true]> (replicate (number_sub_blocks w) false) ->
            unlock_sub_block 0 s1 = Done s2 ->
            forall b,
            core s2 = core s0 /\ outer s2 = outer s0 /\
            length (v_linearization s2) = length (v_linearization s0) /\
            slots_free (number_sub_blocks w) (is_locked s2) /\
            (b = true ->
             is_locked s2 = replicate (number_sub_blocks w) false)).
  { intros s1 s2 H1 H2 H3 H4 Hu b.
    apply unlock_sub_block_frame in Hu as (U1 & U2 & U3 & _ & U5).
    rewrite U1, U2, U3, U5, H4, insert_replicate_free.
    repeat split; try assumption. right. reflexivity. }
  destruct (has_var_solution w sc 0); cbn [negb] in H.
  - match type of H with
    | bind (bind ?u _) _ = _ => destruct u as [[s1 e]| | |] eqn:Eu
    | bind ?u _ = _ => destruct u as [[s1 e]| | |] eqn:Eu
    end; cbn [bind fst snd] in H; try discriminate.
    assert (Hs1 : core s1 = core s0 /\ outer s1 = outer s0 /\
                  length (v_linearization s1) = length (v_linearization s0) /\
                  is_locked s1 =
                    <[0 := true]> (replicate (number_sub_blocks w) false)).
    { destruct (f_compute_linearization _) in Eu.
      - apply update_linearization_frame in Eu as (U1 & U2 & U3 & U4).
        rewrite U1, U2, U3, U4. repeat split; assumption.
      - inversion Eu; subst. repeat split; assumption. }
    destruct Hs1 as (H1 & H2 & H3 & H4).
    destruct e; inv_all; unfold loop_inv; cbn [this];
      match goal with
      | E : unlock_sub_block 0 ?s1 = Done ?s2 |- _ =>
          apply (Hfinal s1 s2); auto
      end.
  - inv_all. unfold loop_inv; cbn [this].
    match goal with
    | E : unlock_sub_block 0 ?s1 = Done ?s2 |- _ =>
        apply (Hfinal s1 s2); auto
    end.
Qed.

Lemma scenario_loop_inv w s0 scenarios : forall l l',
  0 < number_sub_blocks w ->
  loop_inv w s0 l ->
  for_each (scenario_body w) scenarios l = Done l' ->
  loop_inv w s0 l'.
Proof.
  intros l l' Hn Hl H.
  apply (for_each_invariant (loop_inv w s0) (scenario_body w) scenarios
           (fun a s s' Hs Hb => scenario_body_inv w s0 a s s' Hn Hs Hb)
           l l' Hl H).
Qed.



Lemma add_to_total m additions : forall lin,
  Forall (fun a => fst a < m) additions -> length lin = m ->
  exists lin', for_each add_to additions lin = Done lin' /\ length lin' = m.
Proof.
  induction additions as [|a additions IH]; intros lin Hin Hlen;
    cbn [for_each].
  - eauto.
  - apply Forall_cons in Hin as [Ha Hin].
    unfold add_to at 1. destruct (vget_lt lin (fst a)) as [g ->]; [lia|].
    cbn [bind]. rewrite vset_lt by lia. cbn [bind].
    apply IH; [exact Hin | rewrite length_insert; exact Hlen].
Qed.






(** the loop that returns what [compute] took: it ends, it frees every
    slot when asked to, and it leaves locked no inner Block that [compute]
    locked, nor its identity in any Solver *)
Lemma release_total w owned slots : forall m k s,
  k + m <= length owned ->
  (slots = true ->
   is_locked s = replicate (number_sub_blocks w) false /\
   k + m <= number_sub_blocks w) ->
  exists s',
    for_each (fun i s =>
                let s := if has_solver w i
                         then set_solver_has_id (solver_has_id s ∖ {[ i ]}) s
                         else s in
                let! o := vget owned i in
                let s := if negb o
                         then set_block_locked (block_locked s ∖ {[ i ]}) s
                         else s in
                if slots then unlock_sub_block i s else Done s)
             (seq k m) s = Done s' /\
    core s' = core s /\ is_locked s' = is_locked s /\
    v_linearization s' = v_linearization s /\ f_value s' = f_value s /\
    events_handled s' = events_handled s /\ f_status s' = f_status s /\
    block_locked s' ⊆ block_locked s /\
    solver_has_id s' ⊆ solver_has_id s /\
    (forall i, k <= i < k + m -> owned !! i = Some false ->
               i ∉ block_locked s') /\
    (forall i, k <= i < k + m -> has_solver w i = true ->
               i ∉ solver_has_id s').
Proof.
  induction m as [|m IH]; intros k s Hown Hslots; cbn [seq for_each].
  - exists s. repeat split; try reflexivity; intros; lia.
  - destruct (lookup_lt_is_Some_2 owned k) as [o Ho]; [lia|].
    rewrite (vget_lookup _ _ _ Ho). cbn [bind].
    set (s1 := if has_solver w k
               then set_solver_has_id (solver_has_id s ∖ {[ k ]}) s else s).
    set (s2 := if negb o
               then set_block_locked (block_locked s1 ∖ {[ k ]}) s1 else s1).
    assert (H12 : core s2 = core s /\ is_locked s2 = is_locked s /\
                  v_linearization s2 = v_linearization s /\
                  f_value s2 = f_value s /\
                  events_handled s2 = events_handled s /\
                  f_status s2 = f_status s /\
                  block_locked s2 ⊆ block_locked s /\
                  solver_has_id s2 ⊆ solver_has_id s /\
                  (o = false -> k ∉ block_locked s2) /\
                  (has_solver w k = true -> k ∉ solver_has_id s2)).
    { subst s1 s2. destruct (has_solver w k), o; cbn;
        repeat split; try reflexivity; try discriminate;
        try apply subseteq_difference_l; try reflexivity;
        intros _; apply not_elem_of_difference; right;
        apply elem_of_singleton; reflexivity. }
    destruct H12 as (C2 & L2 & V2 & F2 & E2 & St2 & B2 & S2 & Bk & Sk).
    assert (Hs3 : exists s3,
              (if slots then unlock_sub_block k s2 else Done s2) = Done s3 /\
              core s3 = core s2 /\ is_locked s3 = is_locked s2 /\
              v_linearization s3 = v_linearization s2 /\
              f_value s3 = f_value s2 /\
              events_handled s3 = events_handled s2 /\
              f_status s3 = f_status s2 /\
              block_locked s3 = block_locked s2 /\
              solver_has_id s3 = solver_has_id s2).
    { destruct slots; [|exists s2; repeat split].
      destruct (Hslots eq_refl) as [Hl Hk].
      rewrite unlock_sub_block_Done
        by (rewrite L2, Hl, length_replicate; lia).
      eexists; split; [reflexivity|]. cbn.
      rewrite L2, Hl, insert_replicate. repeat split. }
    destruct Hs3 as (s3 & -> & C3 & L3 & V3 & F3 & E3 & St3 & B3 & S3).
    cbn [bind].
    destruct (IH (S k) s3)
      as (s' & Es' & C' & L' & V' & F' & E' & St' & B' & S' & Bi & Si).
    { lia. }
    { intros Hs. destruct (Hslots Hs) as [Hl Hk].
      split; [rewrite L3, L2; exact Hl | lia]. }
    exists s'. split; [exact Es'|].
    rewrite C', C3, C2, L', L3, L2, V', V3, V2, F', F3, F2, E', E3, E2,
      St', St3, St2.
    repeat split.
    + rewrite B', B3. exact B2.
    + rewrite S', S3. exact S2.
    + intros i Hi Hoi. destruct (decide (i = k)) as [-> | Hne].
      * rewrite Ho in Hoi. inversion Hoi; subst.
        intros Hin. apply B' in Hin. rewrite B3 in Hin. exact (Bk eq_refl Hin).
      * apply Bi; [lia | exact Hoi].
    + intros i Hi Hsi. destruct (decide (i = k)) as [-> | Hne].
      * intros Hin. apply S' in Hin. rewrite S3 in Hin. exact (Sk Hsi Hin).
      * apply Si; [lia | exact Hsi].
Qed.


(** the state after the assignments that open an evaluation: the
    linearization is zero, no value, no diagonal linearization and no
    violated constraint are recorded *)
Definition fresh (s : t) : t :=
  set_f_violated_constraint (None, eLHS)
    (set_f_has_value false
       (set_f_has_diagonal_linearization false (reset_linearization s))).

Lemma is_feasible_rows_all s rows :
  (forall j, j ∈ rows -> row_holds s j) ->
  is_feasible_rows s rows = Done (true, s).
Proof.
  induction rows as [|i rows IH]; intros H; cbn [is_feasible_rows].
  - reflexivity.
  - rewrite (H i) by (apply elem_of_cons; auto). cbn [bind].
    apply IH. intros j Hj. apply H. apply elem_of_cons. auto.
Qed.

Lemma is_feasible_rows_first s before i side after :
  (forall j, j ∈ before -> row_holds s j) ->
  row_violated s i side ->
  is_feasible_rows s (before ++ i :: after) =
    Done (false, set_f_violated_constraint (Some i, side) s).
Proof.
  induction before as [|j before IH]; intros H Hi; cbn [is_feasible_rows app].
  - rewrite Hi. reflexivity.
  - rewrite (H j) by (apply elem_of_cons; auto). cbn [bind].
    apply IH; [|exact Hi]. intros j' Hj'. apply H. apply elem_of_cons. auto.
Qed.

Lemma is_feasible_rows_true s rows s' :
  is_feasible_rows s rows = Done (true, s') ->
  s' = s /\ forall j, j ∈ rows -> row_holds s j.
Proof.
  induction rows as [|i rows IH]; cbn [is_feasible_rows]; intros H.
  - inversion H; subst. split; [reflexivity|]. intros j Hj.
    apply elem_of_nil in Hj. contradiction.
  - destruct (check_row s i) as [[sd|]| | |] eqn:E; cbn [bind] in H;
      try discriminate.
    apply IH in H as [-> H]. split; [reflexivity|].
    intros j Hj. apply elem_of_cons in Hj as [-> | Hj]; [exact E | auto].
Qed.


Lemma seq_split_at n i :
  i < n -> seq 0 n = seq 0 i ++ i :: seq (S i) (n - S i).
Proof.
  intros H. replace n with (i + S (n - S i)) at 1 by lia.
  rewrite seq_app. reflexivity.
Qed.

Lemma is_feasible_fresh s :
  is_feasible (fresh s) = is_feasible_rows (fresh s) (seq 0 (length (v_A s))).
Proof.
  unfold is_feasible.
  change (fst (f_violated_constraint (fresh s))) with (@None nat).
  cbv iota. change (v_A (fresh s)) with (v_A s).
  rewrite Nat.sub_0_r. reflexivity.
Qed.


Lemma is_feasible_true s s' :
  is_feasible (fresh s) = Done (true, s') -> s' = fresh s /\ feasible s.
Proof.
  rewrite is_feasible_fresh. intros H.
  apply (is_feasible_rows_true (fresh s)) in H as [-> H].
  split; [reflexivity|]. intros j Hj. apply (H j). apply elem_of_seq. lia.
Qed.



(** [compute] reaches the loop over the scenarios only from a point where
    every constraint holds, with every inner Block accounted for in
    [owned], and having touched neither the slots nor the event handlers *)
Lemma prologue_continue w cv s owned s1 :
  compute_prologue w cv s = Done (inr (owned, s1)) ->
  0 < number_sub_blocks w /\ length owned = number_sub_blocks w /\
  core s1 = core (fresh s) /\ inner s1 = inner (fresh s) /\ feasible s.
Proof.
  unfold compute_prologue. intros H.
  destruct (negb cv && f_blocks_are_updated s); [discriminate|].
  fold (fresh s) in H.
  destruct (is_feasible (fresh s)) as [[b s0]| | |] eqn:Ef; cbn [bind fst snd] in H;
    try discriminate.
  destruct b; cbn [negb] in H; cycle 1.
  { destruct (worst_value w); cbn [bind] in H; discriminate. }
  apply is_feasible_true in Ef as [-> Hfeas].
  destruct (decide (number_sub_blocks w = 0)) as [|Hn]; [discriminate|].
  destruct (lock_blocks w (seq 0 (number_sub_blocks w)) [] (fresh s))
    as [[ow s2]|s2] eqn:El; cycle 1.
  { destruct (return_error w s2); cbn [bind] in H; discriminate. }
  apply lock_blocks_frame in El as (L1 & L2 & L3 & L4).
  rewrite length_seq in L4. cbn [length] in L4.
  destruct (lend_identity_frame w s2) as (I1 & I2 & I3).
  match type of H with
  | bind ?u _ = _ => destruct u as [[s3 e]| | |] eqn:Eu
  end; cbn [bind fst snd] in H; try discriminate.
  assert (Hs3 : core s3 = core (lend_identity w s2) /\
                inner s3 = inner (lend_identity w s2)).
  { destruct (cv || _) in Eu.
    - apply update_blocks_frame in Eu. exact Eu.
    - inversion Eu; subst. split; reflexivity. }
  destruct Hs3 as (U1 & U2).
  destruct e as [e|].
  { destruct (release w ow false s3); cbn [bind] in H; [|discriminate..].
    destruct (return_error w a); cbn [bind] in H; discriminate. }
  inversion H; subst. repeat split; try lia; try assumption.
  - rewrite U1, I1, L1. reflexivity.
  - rewrite U2, I2, L2. reflexivity.
Qed.


Lemma core_fields s s' :
  core s = core s' ->
  v_x s = v_x s' /\ v_asset_indices s = v_asset_indices s' /\
  v_asset_type s = v_asset_type s' /\ v_cost s = v_cost s' /\
  v_disinvestment_cost s = v_disinvestment_cost s' /\
  v_installed_quantity s = v_installed_quantity s' /\
  v_lower_bound s = v_lower_bound s' /\
  f_reformulated_bounds s = f_reformulated_bounds s' /\
  f_compute_linearization s = f_compute_linearization s' /\
  f_has_value s = f_has_value s' /\
  f_has_diagonal_linearization s = f_has_diagonal_linearization s' /\
  f_violated_constraint s = f_violated_constraint s'.
Proof.
  unfold core. intros H. inversion H. repeat split; assumption.
Qed.

Lemma inner_fields s s' :
  inner s = inner s' ->
  is_locked s = is_locked s' /\ v_linearization s = v_linearization s' /\
  events_handled s = events_handled s'.
Proof. unfold inner. intros H. inversion H. repeat split; assumption. Qed.


(** the state with which the loop over the scenarios is entered *)
Definition at_loop (s1 : t) : t :=
  set_f_status kUnEval (set_f_ignore_modifications true (set_f_value zero s1)).

Lemma linear_term_frame s s' :
  linear_term s = Done s' ->
  core s' = core s /\ is_locked s' = is_locked s /\
  block_locked s' = block_locked s /\ solver_has_id s' = solver_has_id s /\
  events_handled s' = events_handled s.
Proof.
  unfold linear_term.
  apply (for_each_invariant
           (fun s1 => core s1 = core s /\ is_locked s1 = is_locked s /\
                      block_locked s1 = block_locked s /\
                      solver_has_id s1 = solver_has_id s /\
                      events_handled s1 = events_handled s)).
  - intros i s1 s2 (H1 & H2 & H3 & H4 & H5) Hb. inv_all; cbn;
      repeat split; assumption.
  - repeat split.
Qed.


Lemma scenario_body_core w sc l l' :
  scenario_body w sc l = Done l' ->
  core (this l') = core (this l) /\
  length (v_linearization (this l')) = length (v_linearization (this l)).
Proof.
  unfold scenario_body. intros H.
  destruct (interrupt_loop l); [inversion H; subst; split; reflexivity|].
  unfold lock_sub_block in H.
  destruct (first_unlocked _ 0); cbn [bind fst snd] in H; [|discriminate].
  destruct (negb (has_solver w n)); [discriminate|].
  destruct (negb (has_var_solution w sc n)).
  - inv_all. apply unlock_sub_block_frame in E as (Hu & _ & Hv & _).
    cbn [this]. rewrite Hu, Hv. split; reflexivity.
  - match type of H with
    | bind ?u _ = _ => destruct u as [[s1 e]| | |] eqn:Eu
    end; cbn [bind fst snd] in H; try discriminate.
    assert (Hs1 : core s1 = core (this l) /\
                  length (v_linearization s1) =
                    length (v_linearization (this l))).
    { destruct (f_compute_linearization _) in Eu.
      - apply update_linearization_frame in Eu as (-> & _ & _ & ->).
        split; reflexivity.
      - inversion Eu; subst. split; reflexivity. }
    destruct e; inv_all;
      match goal with
      | H : unlock_sub_block _ _ = Done _ |- _ =>
          apply unlock_sub_block_frame in H as (Hu & _ & Hv & _)
      end; cbn [this]; rewrite Hu, Hv; exact Hs1.
Qed.

Lemma scenario_loop_core w scenarios : forall l l',
  for_each (scenario_body w) scenarios l = Done l' ->
  core (this l') = core (this l) /\
  length (v_linearization (this l')) = length (v_linearization (this l)).
Proof.
  induction scenarios as [|sc scenarios IH]; intros l l' H; cbn [for_each] in H.
  - inversion H; subst. split; reflexivity.
  - destruct (scenario_body w sc l) as [l1| | |] eqn:E; cbn [bind] in H;
      try discriminate.
    destruct (IH _ _ H) as [-> ->]. apply (scenario_body_core _ _ _ _ E).
Qed.


(** *** When the steps of [compute] return *)


(** every asset has its type and is a unit block or a line *)
Definition types_ok (s : t) : Prop :=
  length (v_asset_indices s) <= length (v_asset_type s) /\
  forall i ty, i < length (v_asset_indices s) -> v_asset_type s !! i = Some ty ->
               ty = eUnitBlock \/ ty = eLine.

(** and it has its variable *)
Definition assets_ok (s : t) : Prop :=
  types_ok s /\ length (v_asset_indices s) <= length (v_x s).

Lemma classify_loop_valid s with_value idx : forall acc,
  types_ok s ->
  (with_value = true -> length (v_asset_indices s) <= length (v_x s)) ->
  Forall (fun i => i < length (v_asset_indices s)) idx ->
  exists r, classify_loop s with_value idx acc = Done (r, None).
Proof.
  induction idx as [|i idx IH]; intros acc Hok Hx Hidx; cbn [classify_loop].
  - eauto.
  - apply Forall_cons in Hidx as [Hi Hidx].
    destruct Hok as (Hty & Hvalid).
    destruct (lookup_lt_is_Some_2 (v_asset_type s) i) as [ty Ety]; [lia|].
    destruct (lookup_lt_is_Some_2 (v_asset_indices s) i) as [ai Eai]; [lia|].
    rewrite (vget_lookup _ _ _ Ety), (vget_lookup _ _ _ Eai). cbn [bind].
    assert (Hv : exists v, (if with_value then get_var_value s i false
                            else Done zero) = Done v).
    { destruct with_value; [|eauto].
      destruct (lookup_lt_is_Some_2 (v_x s) i) as [x Ex];
        [specialize (Hx eq_refl); lia|].
      rewrite (CutFacts.get_var_value_external _ _ _ Ex). eauto. }
    destruct Hv as (v & ->). cbn [bind].
    destruct (Hvalid i ty Hi Ety) as [-> | ->].
    + destruct (decide (eUnitBlock = eUnitBlock)); [|congruence].
      apply IH; [split; assumption | exact Hx | exact Hidx].
    + destruct (decide (eLine = eUnitBlock)); [discriminate|].
      destruct (decide (eLine = eLine)); [|congruence].
      apply IH; [split; assumption | exact Hx | exact Hidx].
Qed.

Lemma classify_assets_valid s with_value :
  types_ok s ->
  (with_value = true -> length (v_asset_indices s) <= length (v_x s)) ->
  exists r, classify_assets s with_value = Done (r, None).
Proof.
  intros Hok Hx. unfold classify_assets.
  apply classify_loop_valid; [exact Hok | exact Hx |].
  apply Forall_forall. intros i Hi. apply elem_of_seq in Hi. lia.
Qed.





(** the solver of scenario [sc] delivers what the evaluation asks of it:
    a primal solution and, when the linearization is computed, a dual
    solution and the terms of the linearization without an exception *)
Definition scenario_ok (w : World) (s : t) (sc : nat) : Prop :=
  has_var_solution w sc 0 = true /\
  (f_compute_linearization s = true ->
   has_dual_solution w sc 0 = true /\
   forall st bi li, snd (stage_linearization w sc 0 st bi li) = None).

Lemma update_linearization_stages_returns w sc bi li m stages : forall lin,
  additions_in_range w m -> length lin = m ->
  (forall st bi li, snd (stage_linearization w sc 0 st bi li) = None) ->
  exists lin', update_linearization_stages w sc 0 bi li stages lin =
                 Done (lin', None).
Proof.
  induction stages as [|st stages IH]; intros lin Hw Hlen Hnone;
    cbn [update_linearization_stages].
  - eauto.
  - destruct (add_to_total m _ lin (Hw sc 0 st bi li) Hlen) as (lin' & -> & Hl').
    cbn [bind]. rewrite Hnone. apply IH; assumption.
Qed.

Lemma update_linearization_returns w sc s0 :
  has_solver w 0 = true -> assets_ok s0 ->
  additions_in_range w (length (v_x s0)) ->
  has_var_solution w sc 0 = true ->
  has_dual_solution w sc 0 = true ->
  (forall st bi li, snd (stage_linearization w sc 0 st bi li) = None) ->
  update_returns w s0 sc.
Proof.
  intros Hsolver [[H1 H2] _] Hw Hvar Hdual Hnone s1 Hai Hat Hlin.
  unfold update_linearization.
  destruct (classify_assets_valid s1 false) as (r & Er).
  { unfold types_ok. rewrite Hai, Hat. split; assumption. }
  { discriminate. }
  rewrite Er. cbn [bind snd fst].
  rewrite Hsolver, Hdual, Hvar. cbn [andb negb]. rewrite andb_false_r.
  destruct (update_linearization_stages_returns w sc r.1 r.2
              (length (v_x s0)) (seq 0 (time_horizon w)) (v_linearization s1)
              Hw Hlin Hnone) as (lin' & ->).
  cbn [bind fst snd]. eauto.
Qed.

(** one turn of the loop for a scenario whose solver delivers *)
Lemma scenario_body_succeeds w s0 sc l :
  0 < number_sub_blocks w ->
  has_solver w 0 = true ->
  assets_ok s0 ->
  length (v_linearization s0) = length (v_x s0) ->
  additions_in_range w (length (v_x s0)) ->
  scenario_ok w s0 sc ->
  loop_inv w s0 l -> interrupt_loop l = false ->
  exists l',
    scenario_body w sc l = Done l' /\ interrupt_loop l' = false /\
    simulation_value l' =
      dadd (simulation_value l) (solver_var_value w sc 0) /\
    loop_inv w s0 l'.
Proof.
  intros Hn Hsolver Hok Hlin Hw [Hvar Hsc] Hl Hint.
  assert (H : exists l', scenario_body w sc l = Done l' /\
                         interrupt_loop l' = false /\
                         simulation_value l' =
                           dadd (simulation_value l)
                                (solver_var_value w sc 0)).
  { destruct Hl as (Hc & Ho & Hlen & Hfree & _).
    unfold scenario_body. rewrite Hint.
    rewrite (lock_sub_block_free w _ Hn Hfree). cbn [bind fst snd].
    rewrite Hsolver, Hvar. cbn [negb].
    set (s1 := set_is_locked _ (this l)).
    assert (Hunlock : forall s2,
              is_locked s2 = is_locked s1 -> exists s3,
                unlock_sub_block 0 s2 = Done s3).
    { intros s2 H2. rewrite unlock_sub_block_Done; [eauto|].
      rewrite H2. subst s1. cbn. rewrite length_insert, length_replicate.
      exact Hn. }
    pose proof (core_fields _ _ Hc)
      as (_ & Cai & Cat & _ & _ & _ & _ & _ & Ccl & _).
    change (f_compute_linearization (set_f_status (solver_compute w sc 0) s1))
      with (f_compute_linearization (this l)).
    rewrite Ccl.
    destruct (f_compute_linearization s0) eqn:Ecl.
    - destruct (Hsc eq_refl) as [Hdual Hnone].
      destruct (update_linearization_returns w sc s0 Hsolver Hok Hw Hvar
                  Hdual Hnone (set_f_status (solver_compute w sc 0) s1))
        as (s2 & Eu).
      { exact Cai. } { exact Cat. } { cbn. rewrite Hlen. exact Hlin. }
      rewrite Eu. cbn [bind fst snd].
      pose proof (update_linearization_frame _ _ _ _ _ _ Eu) as (_ & _ & U3 & _).
      destruct (Hunlock s2 U3) as (s3 & ->). cbn [bind].
      eexists; repeat split; reflexivity.
    - cbn [bind fst snd].
      destruct (Hunlock (set_f_status (solver_compute w sc 0) s1) eq_refl)
        as (s3 & ->).
      cbn [bind]. eexists; repeat split; reflexivity. }
  destruct H as (l' & E & Hint' & Hval).
  exists l'. split; [exact E|]. split; [exact Hint'|]. split; [exact Hval|].
  apply (scenario_body_inv w s0 sc l l' Hn Hl E).
Qed.

(** the sum of the values of the scenarios, in their order *)
Definition scenario_sum (w : World) (scenarios : list nat) (start : dbl) : dbl :=
  foldl (fun v sc => dadd v (solver_var_value w sc 0)) start scenarios.

Lemma scenario_loop_succeeds w s0 scenarios :
  0 < number_sub_blocks w ->
  has_solver w 0 = true ->
  assets_ok s0 ->
  length (v_linearization s0) = length (v_x s0) ->
  additions_in_range w (length (v_x s0)) ->
  (forall sc, sc ∈ scenarios -> scenario_ok w s0 sc) ->
  forall l,
    loop_inv w s0 l -> interrupt_loop l = false ->
    exists l',
      for_each (scenario_body w) scenarios l = Done l' /\
      interrupt_loop l' = false /\
      simulation_value l' = scenario_sum w scenarios (simulation_value l) /\
      loop_inv w s0 l'.
Proof.
  intros Hn Hsolver Hok Hlin Hw. unfold scenario_sum.
  induction scenarios as [|sc scenarios IH]; intros Hsc l Hl Hint;
    cbn [for_each foldl].
  - eauto.
  - destruct (scenario_body_succeeds w s0 sc l Hn Hsolver Hok Hlin Hw)
      as (l1 & -> & Hint1 & <- & Hl1); try assumption.
    { apply Hsc. apply elem_of_cons. auto. }
    cbn [bind]. apply IH; try assumption.
    intros k Hk. apply Hsc. apply elem_of_cons. auto.
Qed.

(** one turn of the loop in a program built with OpenMP, for a scenario
    whose update of the linearization throws *)
Lemma scenario_body_throws w s0 sc l :
  0 < number_sub_blocks w ->
  has_solver w 0 = true ->
  length (v_linearization s0) = length (v_x s0) ->
  with_OpenMP w = true ->
  has_var_solution w sc 0 = true ->
  f_compute_linearization s0 = true ->
  update_throws w s0 sc ->
  loop_inv w s0 l -> interrupt_loop l = false ->
  scenario_body w sc l = Undefined.
Proof.
  intros Hn Hsolver Hlin Homp Hvar Hcl Hthrow (Hc & Ho & Hlen & Hfree & _) Hint.
  unfold scenario_body. rewrite Hint.
  rewrite (lock_sub_block_free w _ Hn Hfree). cbn [bind fst snd].
  rewrite Hsolver, Hvar. cbn [negb].
  set (s1 := set_is_locked _ (this l)).
  pose proof (core_fields _ _ Hc)
    as (_ & Cai & Cat & _ & _ & _ & _ & _ & Ccl & _).
  change (f_compute_linearization (set_f_status (solver_compute w sc 0) s1))
    with (f_compute_linearization (this l)).
  rewrite Ccl, Hcl.
  destruct (Hthrow (set_f_status (solver_compute w sc 0) s1))
    as (s2 & e & ->).
  { exact Cai. } { exact Cat. } { cbn. rewrite Hlen. exact Hlin. }
  cbn [bind fst snd]. rewrite Homp. reflexivity.
Qed.

End ComputeFacts.
(** ** The investment function: the linear term and examples *)

Module ComputeTheorems.
Import InvestmentFunction CutFacts ComputeFacts.

(** the value of variable [i] as the model outside sees it is [xi] *)
Definition external_value (s : t) (i : nat) (xi : dbl) : Prop :=
  exists x, v_x s !! i = Some x /\ xi = externalized s i x.

(** the installed quantity of asset [i] is [q]: 1 when the function has
    been given no installed quantities *)
Definition installed (s : t) (i : nat) (q : dbl) : Prop :=
  if empty (v_installed_quantity s) then q = one
  else v_installed_quantity s !! i = Some q.

(** what the linear term adds to the value for asset [i], whose
    externalized value is [xi] and installed quantity [q] *)
Definition value_term (s : t) (i : nat) (xi q : dbl) : dbl :=
  if dgtb xi q then dmul (get_cost s i) (dsub xi q)
  else dmul (get_disinvestment_cost s i) (dsub q xi).

(** what it makes of component [i] of the linearization, which is [g] *)
Definition slope (s : t) (i : nat) (xi q g : dbl) : dbl :=
  if dgtb xi q then dadd g (get_cost s i)
  else dsub g (get_disinvestment_cost s i).

(** an operational model with one slot and two scenarios of cost zero *)
Definition calm : World :=
  mkWorld true 1 (fun _ => false) (fun _ => true) (fun _ => true) 2 1 None
    (fun _ _ => kOK) (fun _ _ => true) (fun _ _ => true) (fun _ _ => lit 0)
    (fun _ _ _ _ _ => ([], None)) false.

(** the same, but the solver finds no primal solution for scenario 1 *)
Definition failing : World :=
  mkWorld true 1 (fun _ => false) (fun _ => true) (fun _ => true) 2 1 None
    (fun _ _ => kOK) (fun sc _ => negb (sc =? 1)) (fun _ _ => true)
    (fun _ _ => lit 0) (fun _ _ _ _ _ => ([], None)) false.

(** the same as [calm], but the solver has no dual solution for scenario
    1, in a program built without OpenMP and in one built with it *)
Definition without_dual (openmp : bool) : World :=
  mkWorld true 1 (fun _ => false) (fun _ => true) (fun _ => true) 2 1 None
    (fun _ _ => kOK) (fun _ _ => true) (fun sc _ => negb (sc =? 1))
    (fun _ _ => lit 0) (fun _ _ _ _ _ => ([], None)) openmp.

(** one asset with installed quantity 4, cost 10 and disinvestment cost 3,
    at the point [x] *)
Definition one_asset (x : Q) (linearize : bool) : t :=
  mk [ColVariable.mk 0 (lit x)]
     false kUnEval false linearize (lit (1 # 1000000)) false false false false
     zero (lit (1 # 1000000)) [0] [eUnitBlock] []
     [lit 10] [lit 3] [lit 4] [lit 0]
     [] [] [] (None, eLHS)
     (GlobalPool.mk [] [] [] []) [] false ∅ ∅ 0 [].

(** the same asset with the lower bound [l] and reformulated bounds: the
    variable holds [x], the model outside sees [x + l] *)
Definition shifted_asset (x l : Q) : t :=
  mk [ColVariable.mk 0 (lit x)]
     false kUnEval false true (lit (1 # 1000000)) false true false false
     zero (lit (1 # 1000000)) [0] [eUnitBlock] []
     [lit 10] [lit 3] [lit 4] [lit l]
     [] [] [] (None, eLHS)
     (GlobalPool.mk [] [] [] []) [] false ∅ ∅ 0 [].

(** two assets of costs 10 and 20 at the point (3, 1) with the constraint
    [x_0 + x_1 <= u] *)
Definition two_assets (u : Q) (linearize : bool) : t :=
  mk [ColVariable.mk 0 (lit 3); ColVariable.mk 1 (lit 1)]
     false kUnEval false linearize (lit (1 # 1000000)) false false false false
     zero (lit (1 # 1000000)) [0; 1] [eUnitBlock; eUnitBlock] []
     [lit 10; lit 20] [zero; zero] [zero; zero] [zero; zero]
     [[lit 1; lit 1]] [NInf] [lit u] (None, eLHS)
     (GlobalPool.mk [] [] [] []) [] false ∅ ∅ 0 [].

Lemma accessors_core s s0 i :
  core s = core s0 ->
  get_var_value s i false = get_var_value s0 i false /\
  get_installed_quantity s i = get_installed_quantity s0 i /\
  get_cost s i = get_cost s0 i /\
  get_disinvestment_cost s i = get_disinvestment_cost s0 i.
Proof.
  intros H. apply core_fields in H
    as (Hx & _ & _ & Hc & Hd & Hq & Hl & Hr & _).
  unfold get_var_value, get_installed_quantity, get_cost,
    get_disinvestment_cost.
  rewrite Hx, Hc, Hd, Hq, Hl, Hr. repeat split.
Qed.

Lemma readings s i xi q :
  external_value s i xi -> installed s i q ->
  get_var_value s i false = Done xi /\ get_installed_quantity s i = Done q.
Proof.
  intros (x & Hx & ->) Hq. split.
  - apply get_var_value_external. exact Hx.
  - unfold get_installed_quantity. unfold installed in Hq.
    destruct (empty (v_installed_quantity s)); [rewrite Hq; reflexivity|].
    apply vget_lookup. exact Hq.
Qed.

(** the loop of the linear term over the assets [k .. k+m) *)
Lemma linear_term_loop s0 xi q :
  (forall i, i < length (v_x s0) ->
             get_var_value s0 i false = Done (xi i) /\
             get_installed_quantity s0 i = Done (q i)) ->
  forall m k s,
    k + m <= length (v_x s0) -> core s = core s0 ->
    length (v_linearization s) = length (v_x s0) ->
    exists s',
      for_each (fun i s =>
                  let! installed_quantity := get_installed_quantity s i in
                  let! x := get_var_value s i false in
                  let! g := vget (v_linearization s) i in
                  if dgtb x installed_quantity then
                    let cost := get_cost s i in
                    let s := set_f_value
                               (dadd (f_value s)
                                     (dmul cost (dsub x installed_quantity))) s in
                    Done (set_v_linearization
                            (<[i := dadd g cost]> (v_linearization s)) s)
                  else
                    let disinvestment_cost := get_disinvestment_cost s i in
                    let s := set_f_value
                               (dadd (f_value s)
                                     (dmul disinvestment_cost
                                           (dsub installed_quantity x))) s in
                    Done (set_v_linearization
                            (<[i := dsub g disinvestment_cost]>
                               (v_linearization s)) s))
               (seq k m) s = Done s' /\
      f_value s' =
        foldl (fun F i => dadd F (value_term s0 i (xi i) (q i))) (f_value s)
              (seq k m) /\
      length (v_linearization s') = length (v_x s0) /\
      (forall i g, k <= i < k + m -> v_linearization s !! i = Some g ->
         v_linearization s' !! i = Some (slope s0 i (xi i) (q i) g)) /\
      (forall i, i < k -> v_linearization s' !! i = v_linearization s !! i).
Proof.
  intros Hxq. induction m as [|m IH]; intros k s Hk Hc Hlen;
    cbn [seq for_each foldl].
  - exists s. repeat split; try assumption. intros; lia.
  - destruct (accessors_core s s0 k Hc) as (A1 & A2 & A3 & A4).
    destruct (Hxq k) as (Hx & Hq); [lia|].
    rewrite A2, Hq. cbn [bind]. rewrite A1, Hx. cbn [bind].
    destruct (lookup_lt_is_Some_2 (v_linearization s) k) as [g Hg]; [lia|].
    rewrite (vget_lookup _ _ _ Hg). cbn [bind].
    set (s1 := if dgtb (xi k) (q k)
               then set_v_linearization
                      (<[k := dadd g (get_cost s k)]> (v_linearization s))
                      (set_f_value
                         (dadd (f_value s)
                               (dmul (get_cost s k) (dsub (xi k) (q k)))) s)
               else set_v_linearization
                      (<[k := dsub g (get_disinvestment_cost s k)]>
                         (v_linearization s))
                      (set_f_value
                         (dadd (f_value s)
                               (dmul (get_disinvestment_cost s k)
                                     (dsub (q k) (xi k)))) s)).
    assert (H1 : core s1 = core s0 /\
                 f_value s1 = dadd (f_value s) (value_term s0 k (xi k) (q k)) /\
                 v_linearization s1 =
                   <[k := slope s0 k (xi k) (q k) g]> (v_linearization s)).
    { subst s1. unfold value_term, slope. rewrite <- A3, <- A4.
      destruct (dgtb (xi k) (q k)); repeat split; exact Hc. }
    destruct H1 as (C1 & F1 & V1).
    destruct (IH (S k) s1) as (s' & Es' & F' & L' & In' & Out').
    { lia. } { exact C1. } { rewrite V1, length_insert. exact Hlen. }
    exists s'. split.
    { subst s1. destruct (dgtb (xi k) (q k)); exact Es'. }
    split; [rewrite F', F1; reflexivity|]. split; [exact L'|]. split.
    + intros i gi Hi Hgi. destruct (decide (i = k)) as [-> | Hne].
      * rewrite Out' by lia. rewrite V1, list_lookup_insert_eq by lia.
        rewrite Hg in Hgi. inversion Hgi; subst. reflexivity.
      * apply In'; [lia|]. rewrite V1, list_lookup_insert_ne by lia.
        exact Hgi.
    + intros i Hi. rewrite Out' by lia.
      rewrite V1, list_lookup_insert_ne by lia. reflexivity.
Qed.

(** [compute] after a loop over the scenarios that was not interrupted *)
Lemma completed_evaluation w cv s owned s1 l xi q :
  compute_prologue w cv s = Done (inr (owned, s1)) ->
  for_each (scenario_body w) (seq 0 (get_number_scenarios w))
           (mk_loop (at_loop s1) false kError zero) = Done l ->
  interrupt_loop l = false ->
  (forall i, i < length (v_x s) ->
             external_value s i (xi i) /\ installed s i (q i)) ->
  exists s',
    compute w cv s = Done (kOK, s') /\
    f_has_value s' = true /\
    f_has_diagonal_linearization s' = f_compute_linearization s /\
    f_violated_constraint s' = (None, eLHS) /\
    f_value s' =
      foldl (fun F i => dadd F (value_term s i (xi i) (q i)))
            (ddiv (simulation_value l) (of_nat (get_number_scenarios w)))
            (seq 0 (length (v_x s))) /\
    (forall i g,
       i < length (v_x s) -> v_linearization (this l) !! i = Some g ->
       v_linearization s' !! i =
         Some (slope s i (xi i) (q i)
                     (ddiv g (of_nat (get_number_scenarios w))))).
Proof.
  intros Hp El Hint Hxq.
  destruct (prologue_continue w cv s owned s1 Hp) as (Hn & Hown & Hc & Hi & _).
  apply inner_fields in Hi as (_ & Iv & _). cbn in Iv.
  destruct (scenario_loop_core _ _ _ _ El) as (Lc & Ll). cbn in Lc, Ll.
  unfold compute. rewrite Hp. cbn [bind]. unfold compute_scenarios.
  fold (at_loop s1). rewrite El. cbn [bind]. rewrite Hint.
  set (S_ := get_number_scenarios w) in *.
  match goal with
  | |- context [linear_term ?x] => set (s2 := x)
  end.
  assert (C2 : core s2 = core (fresh s)) by (rewrite <- Hc; exact Lc).
  assert (F2 : f_value s2 = ddiv (simulation_value l) (of_nat S_))
    by reflexivity.
  assert (V2 : v_linearization s2 =
               map (fun g => ddiv g (of_nat S_)) (v_linearization (this l)))
    by reflexivity.
  assert (Hx2 : v_x (fresh s) = v_x s) by reflexivity.
  destruct (linear_term_loop (fresh s) xi q) with (m := length (v_x s))
    (k := 0) (s := s2) as (s3 & E3 & F3 & L3 & In3 & _).
  { intros i Hi'. destruct (Hxq i Hi') as [Hx Hq].
    apply (readings (fresh s) i); [exact Hx | exact Hq]. }
  { rewrite Hx2. lia. }
  { exact C2. }
  { rewrite V2, length_map, Ll, Iv, Hx2. apply length_replicate. }
  assert (E3' : linear_term s2 = Done s3).
  { unfold linear_term.
    replace (length (v_x s2)) with (length (v_x s)); [exact E3|].
    apply core_fields in C2 as (-> & _). reflexivity. }
  rewrite E3'. cbn [bind].
  apply linear_term_frame in E3' as (T1 & _).
  destruct (release_total w owned false (number_sub_blocks w) 0 s3)
    as (s4 & Er & R1 & _ & R3 & R4 & _); [lia | discriminate |].
  change (release w owned false s3 = Done s4) in Er. rewrite Er. cbn [bind].
  assert (C4 : core s4 = core (fresh s)) by (rewrite R1, T1; exact C2).
  apply core_fields in C4
    as (_ & _ & _ & _ & _ & _ & _ & _ & Hcl & _ & _ & Hv).
  cbn in Hcl, Hv.
  eexists; split; [reflexivity|]. cbn.
  rewrite R3, R4, F3, F2, Hcl, Hv. repeat split.
  intros i g Hi' Hg. apply In3; [lia|].
  rewrite V2, list_lookup_fmap, Hg. reflexivity.
Qed.

(** C4: in an evaluation whose loop over the scenarios ends without
    interruption, with [xi_i] the value of variable [i] seen from outside
    (the value it holds, plus its lower bound when the bounds are
    reformulated and that bound is above minus infinity) and [q_i] the
    installed quantity of asset [i]: the value returned is the mean of the
    scenario values plus, for every asset [i] in turn, [cost_i * (xi_i - q_i)]
    if [xi_i > q_i] and [disinvestment_cost_i * (q_i - xi_i)] otherwise;
    component [i] of the diagonal linearization is the mean component plus
    [cost_i] in the first case and minus [disinvestment_cost_i] in the
    second. *)
Theorem C4_linear_term w cv s owned s1 l xi q :
  compute_prologue w cv s = Done (inr (owned, s1)) ->
  for_each (scenario_body w) (seq 0 (get_number_scenarios w))
           (mk_loop (at_loop s1) false kError zero) = Done l ->
  interrupt_loop l = false ->
  (forall i, i < length (v_x s) ->
             external_value s i (xi i) /\ installed s i (q i)) ->
  exists s',
    compute w cv s = Done (kOK, s') /\
    f_has_value s' = true /\
    f_has_diagonal_linearization s' = f_compute_linearization s /\
    f_value s' =
      foldl (fun F i =>
               dadd F (if dgtb (xi i) (q i)
                       then dmul (get_cost s i) (dsub (xi i) (q i))
                       else dmul (get_disinvestment_cost s i)
                                 (dsub (q i) (xi i))))
            (ddiv (simulation_value l) (of_nat (get_number_scenarios w)))
            (seq 0 (length (v_x s))) /\
    (forall i g,
       i < length (v_x s) -> v_linearization (this l) !! i = Some g ->
       v_linearization s' !! i =
         Some (if dgtb (xi i) (q i)
               then dadd (ddiv g (of_nat (get_number_scenarios w)))
                         (get_cost s i)
               else dsub (ddiv g (of_nat (get_number_scenarios w)))
                         (get_disinvestment_cost s i))).
Proof.
  intros Hp El Hint Hxq.
  destruct (completed_evaluation w cv s owned s1 l xi q Hp El Hint Hxq)
    as (s' & E & Hv & Hd & _ & Hf & Hg).
  exists s'. repeat split; assumption.
Qed.

(** the readings of a state with one asset *)
Ltac one_asset_reads :=
  let i := fresh "i" in
  let Hi := fresh "Hi" in
  intros i Hi; destruct i; [|cbn in Hi; lia];
  split; [eexists; split; [reflexivity | vm_compute; reflexivity]
         | reflexivity].

(** the example of the claim, and the same asset with reformulated bounds:
    at the internal value 1 with lower bound 2 the model outside sees 3,
    at the internal value 3 it sees 5; at the internal value 1e-17 with
    lower bound 4 it sees 4, the sum rounded, which is not above the
    installed quantity *)
Lemma C4_linear_term_witness :
  (exists s',
     compute calm true (one_asset 2 true) = Done (kOK, s') /\
     f_value s' = lit 6 /\ v_linearization s' !! 0 = Some (lit (-3))) /\
  (exists s',
     compute calm true (one_asset 6 true) = Done (kOK, s') /\
     f_value s' = lit 20 /\ v_linearization s' !! 0 = Some (lit 10)) /\
  (exists s',
     compute calm true (shifted_asset 1 2) = Done (kOK, s') /\
     f_value s' = lit 3 /\ v_linearization s' !! 0 = Some (lit (-3))) /\
  (exists s',
     compute calm true (shifted_asset 3 2) = Done (kOK, s') /\
     f_value s' = lit 10 /\ v_linearization s' !! 0 = Some (lit 10)) /\
  (exists s',
     compute calm true (shifted_asset (1 # 100000000000000000) 4)
       = Done (kOK, s') /\
     f_value s' = lit 0 /\ v_linearization s' !! 0 = Some (lit (-3))).
Proof.
  split; [|split; [|split; [|split]]].
  { edestruct (C4_linear_term calm true (one_asset 2 true))
      with (xi := fun _ : nat => lit 2) (q := fun _ : nat => lit 4)
      as (s' & E & _ & _ & Hv & Hg);
      [ vm_compute; reflexivity | vm_compute; reflexivity
      | vm_compute; reflexivity | one_asset_reads | ].
    exists s'. split; [exact E|]. split; [rewrite Hv; vm_compute; reflexivity|].
    rewrite (Hg 0 zero); [vm_compute; reflexivity | cbn; lia | reflexivity]. }
  { edestruct (C4_linear_term calm true (one_asset 6 true))
      with (xi := fun _ : nat => lit 6) (q := fun _ : nat => lit 4)
      as (s' & E & _ & _ & Hv & Hg);
      [ vm_compute; reflexivity | vm_compute; reflexivity
      | vm_compute; reflexivity | one_asset_reads | ].
    exists s'. split; [exact E|]. split; [rewrite Hv; vm_compute; reflexivity|].
    rewrite (Hg 0 zero); [vm_compute; reflexivity | cbn; lia | reflexivity]. }
  { edestruct (C4_linear_term calm true (shifted_asset 1 2))
      with (xi := fun _ : nat => lit 3) (q := fun _ : nat => lit 4)
      as (s' & E & _ & _ & Hv & Hg);
      [ vm_compute; reflexivity | vm_compute; reflexivity
      | vm_compute; reflexivity | one_asset_reads | ].
    exists s'. split; [exact E|]. split; [rewrite Hv; vm_compute; reflexivity|].
    rewrite (Hg 0 zero); [vm_compute; reflexivity | cbn; lia | reflexivity]. }
  { edestruct (C4_linear_term calm true (shifted_asset 3 2))
      with (xi := fun _ : nat => lit 5) (q := fun _ : nat => lit 4)
      as (s' & E & _ & _ & Hv & Hg);
      [ vm_compute; reflexivity | vm_compute; reflexivity
      | vm_compute; reflexivity | one_asset_reads | ].
    exists s'. split; [exact E|]. split; [rewrite Hv; vm_compute; reflexivity|].
    rewrite (Hg 0 zero); [vm_compute; reflexivity | cbn; lia | reflexivity]. }
  { edestruct (C4_linear_term calm true (shifted_asset (1 # 100000000000000000) 4))
      with (xi := fun _ : nat => lit 4) (q := fun _ : nat => lit 4)
      as (s' & E & _ & _ & Hv & Hg);
      [ vm_compute; reflexivity | vm_compute; reflexivity
      | vm_compute; reflexivity | one_asset_reads | ].
    exists s'. split; [exact E|]. split; [rewrite Hv; vm_compute; reflexivity|].
    rewrite (Hg 0 zero); [vm_compute; reflexivity | cbn; lia | reflexivity]. }
Defined.

(** *** The feasibility gate *)



(** what the loop over the scenarios is asked of a state carries over to
    the state with which the loop is entered *)
Lemma at_loop_core s s1 :
  core s1 = core (fresh s) ->
  v_x (at_loop s1) = v_x s /\
  v_asset_indices (at_loop s1) = v_asset_indices s /\
  v_asset_type (at_loop s1) = v_asset_type s /\
  f_compute_linearization (at_loop s1) = f_compute_linearization s.
Proof.
  intros Hc. apply core_fields in Hc
    as (Cx & Cai & Cat & _ & _ & _ & _ & _ & Ccl & _).
  cbn in Cx, Cai, Cat, Ccl. repeat split; assumption.
Qed.

Lemma loop_entered w cv s owned s1 :
  compute_prologue w cv s = Done (inr (owned, s1)) ->
  slots_free (number_sub_blocks w) (is_locked s) ->
  0 < number_sub_blocks w /\
  length (v_linearization (at_loop s1)) = length (v_x (at_loop s1)) /\
  loop_inv w (at_loop s1) (mk_loop (at_loop s1) false kError zero).
Proof.
  intros Hp Hfree.
  destruct (prologue_continue w cv s owned s1 Hp) as (Hn & _ & Hc & Hi & _).
  apply at_loop_core in Hc as (Cx & _).
  apply inner_fields in Hi as (Il & Iv & _). cbn in Il, Iv.
  split; [exact Hn|]. split.
  - rewrite Cx. cbn. rewrite Iv. apply length_replicate.
  - repeat split; cbn; [rewrite Il; exact Hfree | discriminate].
Qed.

(** the loop over the scenarios up to scenario [k], when the solvers of
    these scenarios deliver *)
Lemma scenarios_run w cv s owned s1 k :
  compute_prologue w cv s = Done (inr (owned, s1)) ->
  slots_free (number_sub_blocks w) (is_locked s) ->
  has_solver w 0 = true ->
  assets_ok s ->
  additions_in_range w (length (v_x s)) ->
  (forall sc, sc < k -> scenario_ok w s sc) ->
  exists l,
    for_each (scenario_body w) (seq 0 k)
             (mk_loop (at_loop s1) false kError zero) = Done l /\
    interrupt_loop l = false /\
    simulation_value l = scenario_sum w (seq 0 k) zero /\
    loop_inv w (at_loop s1) l.
Proof.
  intros Hp Hfree Hsolver Hok Hw Hsc.
  destruct (loop_entered w cv s owned s1 Hp Hfree) as (Hn & Hlen & Hinv).
  destruct (prologue_continue w cv s owned s1 Hp) as (_ & _ & Hc & _).
  apply at_loop_core in Hc as (Cx & Cai & Cat & Ccl).
  apply (scenario_loop_succeeds w (at_loop s1) (seq 0 k) Hn Hsolver).
  - destruct Hok as [[H1 H2] H3]. unfold assets_ok, types_ok.
    rewrite Cx, Cai, Cat. repeat split; assumption.
  - exact Hlen.
  - rewrite Cx. exact Hw.
  - intros sc Hin. apply elem_of_seq in Hin.
    destruct (Hsc sc) as [Hvar Hlin]; [lia|].
    split; [exact Hvar|]. rewrite Ccl. exact Hlin.
  - exact Hinv.
  - reflexivity.
Qed.







(** *** A scenario that fails *)

(** without a dual solution the update of the linearization throws *)
Lemma update_throws_without_dual w s k :
  types_ok s -> has_dual_solution w k 0 = false -> update_throws w s k.
Proof.
  intros [H1 H2] Hdual s1 Hai Hat Hlen. unfold update_linearization.
  destruct (classify_assets_valid s1 false) as (r & ->).
  { unfold types_ok. rewrite Hai, Hat. split; assumption. }
  { discriminate. }
  cbn [bind snd fst]. rewrite Hdual, andb_false_r. cbn [negb]. eauto.
Qed.

(** C6 fails in a program built with OpenMP: the update of the
    linearization is called inside a [critical] region and the handler of
    its exceptions is outside of it.  When the scenarios before [k] are
    evaluated, scenario [k] has a primal solution and its update of the
    linearization throws, the exception leaves the [critical] region and
    [compute] has no defined outcome: it does not return [kError]. *)
Theorem C6_throw_leaves_critical w cv s owned s1 k :
  with_OpenMP w = true ->
  compute_prologue w cv s = Done (inr (owned, s1)) ->
  slots_free (number_sub_blocks w) (is_locked s) ->
  has_solver w 0 = true ->
  assets_ok s ->
  additions_in_range w (length (v_x s)) ->
  k < get_number_scenarios w ->
  (forall sc, sc < k -> scenario_ok w s sc) ->
  has_var_solution w k 0 = true ->
  f_compute_linearization s = true ->
  update_throws w s k ->
  compute w cv s = Undefined.
Proof.
  intros Homp Hp Hfree Hsolver Hok Hw Hk Hsc Hvar Hcl Hthrow.
  destruct (loop_entered w cv s owned s1 Hp Hfree) as (Hn & Hlen & _).
  destruct (scenarios_run w cv s owned s1 k Hp Hfree Hsolver Hok Hw Hsc)
    as (l & El & Hint & _ & Hinv).
  destruct (prologue_continue w cv s owned s1 Hp) as (_ & _ & Hc & _).
  apply at_loop_core in Hc as (Cx & Cai & Cat & Ccl).
  unfold compute. rewrite Hp. cbn [bind]. unfold compute_scenarios.
  fold (at_loop s1).
  replace (get_number_scenarios w)
    with (k + S (get_number_scenarios w - S k)) at 1 by lia.
  rewrite seq_app, for_each_app, El. cbn [bind seq for_each Nat.add].
  rewrite (scenario_body_throws w (at_loop s1) k l Hn Hsolver Hlen Homp Hvar);
    try assumption; [reflexivity | congruence |].
  intros s2 H1 H2 H3. apply Hthrow; congruence.
Qed.

Lemma C6_throw_leaves_critical_witness :
  compute (without_dual true) true (one_asset 2 true) = Undefined.
Proof.
  eapply (C6_throw_leaves_critical (without_dual true) true (one_asset 2 true)
            _ _ 1).
  - reflexivity.
  - vm_compute. reflexivity.
  - left. reflexivity.
  - reflexivity.
  - split; [split|]; cbn; try lia.
    intros [|i] ty Hi Hty; cbn in Hi, Hty; try lia.
    inversion Hty; subst; auto.
  - intros sc sb st bi li. constructor.
  - vm_compute. lia.
  - intros sc Hsc. assert (sc = 0) as -> by lia.
    split; [reflexivity|]. intros _. split; reflexivity.
  - reflexivity.
  - reflexivity.
  - apply update_throws_without_dual; [|reflexivity].
    split; cbn; try lia.
    intros [|i] ty Hi Hty; cbn in Hi, Hty; try lia.
    inversion Hty; subst; auto.
Defined.



(** C10: [is_convex] answers true and [is_concave] answers false in every
    state of the function, whatever its inner Blocks are. *)
Theorem C10_convex_not_concave (s : t) :
  is_convex s = true /\ is_concave s = false.
Proof. split; reflexivity. Qed.

End ComputeTheorems.
(** ** The investment function: removing variables *)

Module RemovalFacts.
Import InvestmentFunction CutFacts ComputeTheorems.

(** there is one asset index, asset type, cost and disinvestment cost per
    active variable *)
Definition descriptors_match (s : t) : Prop :=
  length (v_asset_indices s) = length (v_x s) /\
  length (v_asset_type s) = length (v_x s) /\
  length (v_cost s) = length (v_x s) /\
  length (v_disinvestment_cost s) = length (v_x s).

(** the indices of a subset in increasing order *)
Definition increasing (indices : list nat) : Prop :=
  StronglySorted lt indices.

Lemma verase_range_Done {A} (v : list A) first second :
  first <= second -> second <= length v ->
  verase_range v first second = Done (take first v ++ drop second v) /\
  length (take first v ++ drop second v) = length v - (second - first).
Proof.
  intros H1 H2. unfold verase_range.
  destruct (decide (first <= second /\ second <= length v)) as [_|n];
    [|exfalso; apply n; split; assumption].
  split; [reflexivity|].
  rewrite length_app, length_take, length_drop. lia.
Qed.

Lemma compact_loop_Done {A} : forall fuel nit (x : list A) xit i,
  increasing nit ->
  Forall (fun n => i <= n < length x) nit ->
  xit < i -> i <= length x ->
  length x - i + length nit <= fuel ->
  exists x' xit' i',
    compact_loop fuel x xit i nit = Done (x', xit', i') /\
    length x' = length x /\ xit' < i' /\ i' <= length x.
Proof.
  induction fuel as [|fuel IH]; intros nit x xit i Hinc Hall Hxit Hi Hfuel.
  - destruct nit; [|cbn [length] in Hfuel; lia].
    exists x, xit, i. repeat split; assumption.
  - destruct nit as [|n rest]; [exists x, xit, i; repeat split; assumption|].
    cbn [compact_loop].
    apply Forall_cons in Hall as [Hn Hrest].
    apply StronglySorted_inv in Hinc as [Hinc Hlt].
    destruct (decide (n = i)) as [-> | Hne].
    + apply IH; try lia; [exact Hinc | | cbn [length] in Hfuel; lia].
      apply Forall_forall. intros n' Hn'.
      pose proof (proj1 (Forall_forall _ _) Hlt n' Hn').
      pose proof (proj1 (Forall_forall _ _) Hrest n' Hn') as Hr.
      cbv beta in Hr. lia.
    + destruct (vget_lt x i) as [a ->]; [lia|]. cbn [bind].
      rewrite vset_lt by lia. cbn [bind].
      destruct (IH (n :: rest) (<[xit := a]> x) (S xit) (S i))
        as (x' & xit' & i' & E & L & X & I).
      * apply SSorted_cons; assumption.
      * rewrite length_insert. apply Forall_cons. split; [lia|].
        apply Forall_forall. intros n' Hn'.
        pose proof (proj1 (Forall_forall _ _) Hlt n' Hn').
        pose proof (proj1 (Forall_forall _ _) Hrest n' Hn') as Hr.
      cbv beta in Hr. lia.
      * lia.
      * rewrite length_insert. lia.
      * rewrite length_insert. cbn [length] in *. lia.
      * exists x', xit', i'. rewrite length_insert in L, I.
        repeat split; assumption.
Qed.

Lemma compact_tail_Done {A} : forall m i (x : list A) xit,
  xit < i -> i + m <= length x ->
  exists r,
    for_each (fun i r =>
                let! a := vget (fst r) i in
                let! x' := vset (fst r) (snd r) a in
                Done (x', S (snd r))) (seq i m) (x, xit) = Done r /\
    length (fst r) = length x.
Proof.
  induction m as [|m IH]; intros i x xit Hxit Hm; cbn [seq for_each].
  - eauto.
  - cbn [fst snd]. destruct (vget_lt x i) as [a ->]; [lia|]. cbn [bind].
    rewrite vset_lt by lia. cbn [bind].
    destruct (IH (S i) (<[xit := a]> x) (S xit)) as (r & -> & L).
    { lia. } { rewrite length_insert. lia. }
    exists r. split; [reflexivity|]. rewrite L. apply length_insert.
Qed.

(** [compact] on increasing indices of [x] returns, and its result has one
    position less per index *)
Lemma compact_Done {A} (x : list A) indices :
  increasing indices -> indices <> [] ->
  Forall (fun n => n < length x) indices ->
  exists x', compact x indices = Done x' /\
             length x' = length x - length indices /\
             length indices <= length x.
Proof.
  intros Hinc Hne Hall. destruct indices as [|i rest]; [congruence|].
  cbn [compact].
  apply Forall_cons in Hall as [Hi Hrest].
  apply StronglySorted_inv in Hinc as [Hinc Hlt].
  destruct (compact_loop_Done (length x + length rest) rest x i (S i))
    as (x1 & xit1 & i1 & -> & L1 & X1 & I1); try lia; try assumption.
  { apply Forall_forall. intros n' Hn'.
    pose proof (proj1 (Forall_forall _ _) Hlt n' Hn').
    pose proof (proj1 (Forall_forall _ _) Hrest n' Hn') as Hr.
      cbv beta in Hr. lia. }
  cbn [bind fst snd]. unfold compact_tail.
  destruct (compact_tail_Done (length x1 - i1) i1 x1 xit1)
    as (r & -> & Lr); [lia | lia |].
  cbn [bind].
  assert (Hlen : length (i :: rest) <= length x).
  { assert (NoDup (i :: rest)).
    { apply NoDup_cons. split.
      - intros Hin. pose proof (proj1 (Forall_forall _ _) Hlt i Hin). lia.
      - clear -Hinc. induction Hinc as [|a l Hs IH Ha]; constructor; auto.
        intros Hin. pose proof (proj1 (Forall_forall _ _) Ha a Hin). lia. }
    assert (Hsub : i :: rest ⊆ seq 0 (length x)).
    { intros n Hn. apply elem_of_seq. apply elem_of_cons in Hn as [-> | Hn].
      - lia.
      - pose proof (proj1 (Forall_forall _ _) Hrest n Hn) as Hr.
        cbv beta in Hr. lia. }
    pose proof (submseteq_length _ _ (NoDup_submseteq _ _ H Hsub)) as Hl.
    rewrite length_seq in Hl. exact Hl. }
  rewrite Lr, L1.
  destruct (decide (length (i :: rest) <= length x)); [|lia].
  eexists; split; [reflexivity|].
  rewrite length_take, Lr, L1. split; lia.
Qed.


Lemma sorted_increasing l :
  NoDup l -> StronglySorted le l -> increasing l.
Proof.
  intros Hnd Hs. induction Hs as [|a l Hs IH Ha]; [constructor|].
  apply NoDup_cons in Hnd as [Hna Hnd].
  constructor; [apply IH; exact Hnd|].
  apply Forall_forall. intros n Hn.
  pose proof (proj1 (Forall_forall _ _) Ha n Hn) as Hle. cbv beta in Hle.
  destruct (decide (a = n)) as [-> | Hne]; [contradiction | lia].
Qed.

Lemma gather_Done {A} (v : list A) idx : forall acc,
  Forall (fun n => n < length v) idx ->
  exists r, for_each (fun nm vars => let! x := vget v nm in Done (vars ++ [x]))
                     idx acc = Done r.
Proof.
  induction idx as [|n idx IH]; intros acc H; cbn [for_each]; [eauto|].
  apply Forall_cons in H as [Hn H].
  destruct (vget_lt v n Hn) as [a ->]. cbn [bind]. apply IH. exact H.
Qed.

Lemma add_Modification_frame issueMod m s :
  v_x (add_Modification issueMod m s) = v_x s /\
  v_asset_indices (add_Modification issueMod m s) = v_asset_indices s /\
  v_asset_type (add_Modification issueMod m s) = v_asset_type s /\
  v_cost (add_Modification issueMod m s) = v_cost s /\
  v_disinvestment_cost (add_Modification issueMod m s) =
    v_disinvestment_cost s /\
  v_A (add_Modification issueMod m s) = v_A s /\
  f_blocks_are_updated (add_Modification issueMod m s) =
    f_blocks_are_updated s.
Proof.
  unfold add_Modification. destruct (has_Observer s && issueMod);
    repeat split.
Qed.

(** the subset version on a subset that is in increasing order when it is
    looked at *)
Lemma remove_variables_subset_Done indices s issueMod :
  descriptors_match s ->
  increasing indices -> indices <> [] ->
  Forall (fun n => n < length (v_x s)) indices ->
  exists s',
    remove_variables_subset indices true issueMod s = Done s' /\
    descriptors_match s' /\ v_A s' = v_A s /\
    f_blocks_are_updated s' = false /\
    length (v_x s') = length (v_x s) - length indices /\
    0 < length indices <= length (v_x s).
Proof.
  intros (D1 & D2 & D3 & D4) Hinc Hne Hall. unfold remove_variables_subset.
  destruct indices as [|i0 rest] eqn:Ei; [congruence|]. cbn [empty].
  rewrite <- Ei in *.
  destruct (last indices) as [back|] eqn:El;
    [|apply last_None in El; congruence].
  assert (Hback : back < length (v_x s)).
  { apply last_Some_elem_of in El.
    pose proof (proj1 (Forall_forall _ _) Hall back El) as Hb. exact Hb. }
  destruct (decide (length (v_x s) <= back)); [lia|].
  assert (Hvars : exists vars,
            (if has_Observer (set_f_blocks_are_updated false s) && issueMod
             then for_each (fun nm vars =>
                              let! v := vget (v_x (set_f_blocks_are_updated false s)) nm in
                              Done (vars ++ [v])) indices []
             else Done []) = Done vars).
  { destruct (_ && _); [|eauto]. apply gather_Done. exact Hall. }
  destruct Hvars as (vars & ->). cbn [bind].
  cbn [v_asset_indices v_asset_type v_cost v_disinvestment_cost v_x
       set_f_blocks_are_updated].
  destruct (compact_Done (v_asset_indices s) indices) as (x1 & -> & L1 & _);
    [assumption | assumption | rewrite D1; assumption |].
  destruct (compact_Done (v_asset_type s) indices) as (x2 & -> & L2 & _);
    [assumption | assumption | rewrite D2; assumption |].
  destruct (compact_Done (v_cost s) indices) as (x3 & -> & L3 & _);
    [assumption | assumption | rewrite D3; assumption |].
  destruct (compact_Done (v_disinvestment_cost s) indices)
    as (x4 & -> & L4 & _);
    [assumption | assumption | rewrite D4; assumption |].
  destruct (compact_Done (v_x s) indices) as (x5 & -> & L5 & L6);
    [assumption | assumption | assumption |].
  cbn [bind]. eexists; split; [reflexivity|].
  assert (0 < length indices) by (rewrite Ei; cbn; lia).
  unfold descriptors_match, add_Modification.
  match goal with
  | |- context [if ?b then _ else _] => destruct b
  end; cbn; repeat split; lia.
Qed.


Lemma merge_sort_increasing indices :
  NoDup indices -> increasing (merge_sort le indices).
Proof.
  intros Hnd. apply sorted_increasing.
  - rewrite merge_sort_Permutation. exact Hnd.
  - apply StronglySorted_merge_sort.
    + intros x y z. lia.
    + intros x y. lia.
Qed.

(** *** The next evaluation *)

Lemma row_prefix s row : forall m k acc,
  k + m <= length row -> k + m <= length (v_x s) ->
  exists v,
    for_each (fun j value =>
                let! a := vget row j in
                let! x := get_var_value s j false in
                Done (dadd value (dmul a x))) (seq k m) acc = Done v.
Proof.
  induction m as [|m IH]; intros k acc Hr Hx; cbn [seq for_each].
  - eauto.
  - destruct (vget_lt row k) as [a ->]; [lia|]. cbn [bind].
    destruct (lookup_lt_is_Some_2 (v_x s) k) as [x Ex]; [lia|].
    rewrite (get_var_value_external _ _ _ Ex). cbn [bind].
    apply IH; lia.
Qed.

(** the value of a row with more columns than there are variables: the
    loop over the columns reads [v_x] past its end *)
Lemma row_past_the_variables s i row :
  v_A s !! i = Some row -> length (v_x s) < length row ->
  compute_linear_constraint_value s i = Undefined.
Proof.
  intros Hrow Hlen. unfold compute_linear_constraint_value.
  rewrite (vget_lookup _ _ _ Hrow). cbn [bind].
  assert (Hsplit : seq 0 (length row) =
                   seq 0 (length (v_x s)) ++
                   length (v_x s) :: seq (S (length (v_x s)))
                                         (length row - S (length (v_x s)))).
  { apply ComputeFacts.seq_split_at. exact Hlen. }
  rewrite Hsplit, for_each_app.
  destruct (row_prefix s row (length (v_x s)) 0 zero) as (v & ->);
    [lia | lia |].
  cbn [bind for_each].
  destruct (vget_lt row (length (v_x s))) as [a ->]; [lia|]. cbn [bind].
  unfold get_var_value, vget. rewrite lookup_ge_None_2 by lia. reflexivity.
Qed.

(** [compute] on a state whose first row has more columns than there are
    variables *)
Lemma compute_reads_out_of_range w cv s row rows :
  f_blocks_are_updated s = false ->
  v_A s = row :: rows -> length (v_x s) < length row ->
  compute w cv s = Undefined.
Proof.
  intros Hb HA Hlen. unfold compute, compute_prologue.
  rewrite Hb, andb_false_r. fold (ComputeFacts.fresh s).
  rewrite ComputeFacts.is_feasible_fresh, HA.
  cbn [length seq is_feasible_rows]. unfold check_row.
  rewrite (row_past_the_variables (ComputeFacts.fresh s) 0 row);
    [reflexivity | cbn; rewrite HA; reflexivity | exact Hlen].
Qed.

(** what the three removals leave *)
Lemma removal_sizes s :
  descriptors_match s ->
  (forall (range : nat * nat) (issueMod : bool),
     exists s', remove_variables_range range issueMod s = Done s' /\
                descriptors_match s' /\ v_A s' = v_A s /\
                (fst range < Nat.min (snd range) (length (v_x s)) ->
                 f_blocks_are_updated s' = false /\
                 length (v_x s') < length (v_x s))) /\
  (forall (indices : list nat) (ordered issueMod : bool),
     (if ordered then increasing indices else NoDup indices) ->
     Forall (fun n => n < length (v_x s)) indices ->
     exists s', remove_variables_subset indices ordered issueMod s = Done s' /\
                descriptors_match s' /\ v_A s' = v_A s /\
                (indices <> [] ->
                 f_blocks_are_updated s' = false /\
                 length (v_x s') < length (v_x s))) /\
  (forall (i : nat) (issueMod : bool),
     i < length (v_x s) ->
     exists s', remove_variable i issueMod s = Done s' /\
                length (v_asset_indices s') = length (v_x s') /\
                length (v_asset_type s') = length (v_x s') /\
                S (length (v_x s')) = length (v_x s) /\
                v_A s' = v_A s /\
                v_cost s' = v_cost s /\
                v_disinvestment_cost s' = v_disinvestment_cost s /\
                f_blocks_are_updated s' = false).
Proof.
  intros Hd. pose proof Hd as (D1 & D2 & D3 & D4). split; [|split].
  - intros [first second] issueMod. unfold remove_variables_range.
    cbn [fst snd].
    set (second' := Nat.min second (length (v_x s))).
    destruct (decide (second' <= first)) as [|Hlt].
    { exists s. repeat split; try assumption; lia. }
    cbn [v_x v_asset_indices v_asset_type v_cost v_disinvestment_cost
         set_f_blocks_are_updated].
    destruct (decide (first = 0 /\ second' = length (v_x s))) as [[H0 Hall]|].
    + eexists; split; [reflexivity|]. unfold add_Modification.
      match goal with
      | |- context [if ?b then _ else _] => destruct b
      end; repeat split; cbn; lia.
    + cbn [v_x v_asset_indices v_asset_type v_cost v_disinvestment_cost
           set_f_blocks_are_updated].
      assert (Hs : second' <= length (v_x s)) by (subst second'; lia).
      destruct (verase_range_Done (v_x s) first second') as (-> & L0);
        [lia | lia |].
      destruct (verase_range_Done (v_asset_indices s) first second')
        as (-> & L1); [lia | lia |].
      destruct (verase_range_Done (v_asset_type s) first second')
        as (-> & L2); [lia | lia |].
      destruct (verase_range_Done (v_cost s) first second') as (-> & L3);
        [lia | lia |].
      destruct (verase_range_Done (v_disinvestment_cost s) first second')
        as (-> & L4); [lia | lia |].
      cbn [bind]. eexists; split; [reflexivity|].
      unfold descriptors_match, add_Modification.
      match goal with
      | |- context [if ?b then _ else _] => destruct b
      end; cbn; repeat split; lia.
  - intros indices ordered issueMod Hord Hall.
    destruct indices as [|i0 rest] eqn:Ei.
    { unfold remove_variables_subset. cbn [empty].
      destruct (empty (v_x s)); [exists s; repeat split; try assumption;
                                 congruence|].
      eexists; split; [reflexivity|]. unfold add_Modification.
      match goal with
      | |- context [if ?b then _ else _] => destruct b
      end; repeat split; congruence. }
    rewrite <- Ei in *. destruct ordered.
    + destruct (remove_variables_subset_Done indices s issueMod)
        as (s' & E & H1 & H2 & H3 & H4 & H5); try assumption; [congruence|].
      exists s'. split; [exact E|]. split; [exact H1|]. split; [exact H2|].
      intros _. split; [exact H3 | lia].
    + assert (Hperm : merge_sort le indices ≡ₚ indices)
        by apply merge_sort_Permutation.
      destruct (remove_variables_subset_Done (merge_sort le indices) s issueMod)
        as (s' & E & H1 & H2 & H3 & H4 & H5); try assumption.
      * apply merge_sort_increasing. exact Hord.
      * intros Hnil. rewrite Hnil in Hperm.
        apply Permutation_nil_l in Hperm. congruence.
      * rewrite Hperm. exact Hall.
      * assert (Hlen : length (merge_sort le indices) = length indices)
          by (rewrite Hperm; reflexivity).
        exists s'. split;
          [|split; [exact H1|]; split; [exact H2|];
            intros _; split; [exact H3 | lia]].
        rewrite <- E. unfold remove_variables_subset.
        rewrite Ei at 1. cbn [empty].
        destruct (merge_sort le indices) eqn:Em; [|reflexivity].
        rewrite Ei in Hperm. apply Permutation_nil_l in Hperm. discriminate.
  - intros i issueMod Hi. unfold remove_variable.
    destruct (decide (length (v_x s) <= i)); [lia|].
    destruct (vget_lt (v_x s) i Hi) as [var ->]. cbn [bind].
    unfold verase.
    destruct (decide (i < length (v_x s))); [|lia].
    destruct (decide (i < length (v_asset_indices s))); [|lia].
    destruct (decide (i < length (v_asset_type s))); [|lia].
    cbn [bind]. eexists; split; [reflexivity|].
    unfold add_Modification.
    match goal with
    | |- context [if ?b then _ else _] => destruct b
    end; cbn; rewrite !length_delete by (apply lookup_lt_is_Some; lia);
      repeat split; lia.
Qed.

(** C8 fails in the code.  From a state with one asset index, asset type,
    cost and disinvestment cost per variable and one column per variable
    in every row of the constraints: removing the variable [i], a range
    that is not empty or a subset that is not empty leaves fewer variables
    and every row with its columns; [remove_variable] leaves the costs and
    the disinvestment costs as well.  When there is a row, the next
    [compute] walks along its columns and reads [v_x] past its end. *)
Theorem C8_removal_keeps_the_columns w cv s :
  descriptors_match s ->
  columns_match s ->
  v_A s <> [] ->
  (forall (i : nat) (issueMod : bool),
     i < length (v_x s) ->
     exists s', remove_variable i issueMod s = Done s' /\
                S (length (v_x s')) = length (v_x s) /\
                length (v_cost s') = length (v_x s) /\
                length (v_disinvestment_cost s') = length (v_x s) /\
                Forall (fun row => length row = length (v_x s)) (v_A s') /\
                compute w cv s' = Undefined) /\
  (forall (range : nat * nat) (issueMod : bool),
     fst range < Nat.min (snd range) (length (v_x s)) ->
     exists s', remove_variables_range range issueMod s = Done s' /\
                length (v_x s') < length (v_x s) /\
                Forall (fun row => length row = length (v_x s)) (v_A s') /\
                compute w cv s' = Undefined) /\
  (forall (indices : list nat) (ordered issueMod : bool),
     indices <> [] ->
     (if ordered then increasing indices else NoDup indices) ->
     Forall (fun n => n < length (v_x s)) indices ->
     exists s', remove_variables_subset indices ordered issueMod s = Done s' /\
                length (v_x s') < length (v_x s) /\
                Forall (fun row => length row = length (v_x s)) (v_A s') /\
                compute w cv s' = Undefined).
Proof.
  intros Hd Hcol Hrows.
  pose proof Hd as (_ & _ & D3 & D4).
  destruct (removal_sizes s Hd) as (Hr & Hs & Hv).
  unfold columns_match in Hcol.
  destruct (v_A s) as [|row rows] eqn:HA; [congruence|].
  pose proof (Forall_inv Hcol) as Hrow. cbv beta in Hrow.
  split; [|split].
  - intros i issueMod Hi.
    destruct (Hv i issueMod Hi) as (s' & E & _ & _ & L & A & C & D & B).
    exists s'. split; [exact E|]. split; [exact L|].
    split; [rewrite C; exact D3|]. split; [rewrite D; exact D4|].
    split; [rewrite A; exact Hcol|].
    apply (compute_reads_out_of_range w cv s' row rows B A). lia.
  - intros range issueMod Hne.
    destruct (Hr range issueMod) as (s' & E & _ & A & H).
    destruct (H Hne) as [B L].
    exists s'. split; [exact E|]. split; [exact L|].
    split; [rewrite A; exact Hcol|].
    apply (compute_reads_out_of_range w cv s' row rows B A). lia.
  - intros indices ordered issueMod Hne Hord Hall.
    destruct (Hs indices ordered issueMod Hord Hall) as (s' & E & _ & A & H).
    destruct (H Hne) as [B L].
    exists s'. split; [exact E|]. split; [exact L|].
    split; [rewrite A; exact Hcol|].
    apply (compute_reads_out_of_range w cv s' row rows B A). lia.
Qed.

(** at the point (3, 1) with the row [x_0 + x_1 <= 5]: after the removal of
    variable 0 one variable is left, the row has two columns and the two
    vectors of costs two entries *)
Lemma C8_removal_keeps_the_columns_witness :
  (exists s', remove_variable 0 false (two_assets 5 true) = Done s' /\
              length (v_x s') = 1 /\
              v_cost s' = [lit 10; lit 20] /\
              v_disinvestment_cost s' = [zero; zero] /\
              v_A s' = [[lit 1; lit 1]] /\
              compute calm true s' = Undefined) /\
  (exists s', remove_variables_range (0, 1) false (two_assets 5 true)
                = Done s' /\
              length (v_x s') < 2 /\
              Forall (fun row => length row = 2) (v_A s') /\
              compute calm true s' = Undefined) /\
  (exists s', remove_variables_subset [1; 0] false false (two_assets 5 true)
                = Done s' /\
              length (v_x s') < 2 /\
              Forall (fun row => length row = 2) (v_A s') /\
              compute calm true s' = Undefined).
Proof.
  assert (Hd : descriptors_match (two_assets 5 true)) by (repeat split).
  assert (Hcol : columns_match (two_assets 5 true)) by (repeat constructor).
  assert (Hrows : v_A (two_assets 5 true) <> []) by discriminate.
  destruct (C8_removal_keeps_the_columns calm true (two_assets 5 true)
              Hd Hcol Hrows) as (Hv & Hr & Hs).
  split; [|split].
  - destruct (Hv 0 false) as (s' & E & _ & _ & _ & _ & Hc); [cbn; lia|].
    exists s'. split; [exact E|].
    repeat split; try exact Hc; inversion E; reflexivity.
  - apply (Hr (0, 1) false). cbn. lia.
  - apply (Hs [1; 0] false false).
    + discriminate.
    + apply NoDup_cons. split; [|apply NoDup_singleton].
      intros H. apply elem_of_cons in H as [H | H]; [discriminate|].
      apply elem_of_nil in H. exact H.
    + repeat constructor.
Defined.

(** X22: from a state with one asset index, asset type, cost and disinvestment
    cost per active variable: removing a range or a subset of the
    variables leaves such a state; removing the single variable [i] leaves
    one asset index and one asset type per variable; and no removal
    touches the linear constraints. *)
Theorem sizes_after_removal s :
  descriptors_match s ->
  (forall (range : nat * nat) (issueMod : bool),
     exists s', remove_variables_range range issueMod s = Done s' /\
                descriptors_match s' /\ v_A s' = v_A s) /\
  (forall (indices : list nat) (ordered issueMod : bool),
     (if ordered then increasing indices else NoDup indices) ->
     Forall (fun n => n < length (v_x s)) indices ->
     exists s', remove_variables_subset indices ordered issueMod s = Done s' /\
                descriptors_match s' /\ v_A s' = v_A s) /\
  (forall (i : nat) (issueMod : bool),
     i < length (v_x s) ->
     exists s', remove_variable i issueMod s = Done s' /\
                length (v_asset_indices s') = length (v_x s') /\
                length (v_asset_type s') = length (v_x s') /\
                S (length (v_x s')) = length (v_x s) /\
                v_A s' = v_A s).
Proof.
  intros Hd. destruct (removal_sizes s Hd) as (Hr & Hs & Hv).
  split; [|split].
  - intros range issueMod.
    destruct (Hr range issueMod) as (s' & E & H1 & H2 & _). eauto.
  - intros indices ordered issueMod Hord Hall.
    destruct (Hs indices ordered issueMod Hord Hall) as (s' & E & H1 & H2 & _).
    eauto.
  - intros i issueMod Hi.
    destruct (Hv i issueMod Hi) as (s' & E & H1 & H2 & H3 & H4 & _).
    exists s'. repeat split; assumption.
Qed.

Lemma sizes_after_removal_witness :
  (exists s', remove_variables_range (0, 1) false (two_assets 5 true)
                = Done s' /\
              descriptors_match s' /\ v_A s' = v_A (two_assets 5 true)) /\
  (exists s', remove_variables_subset [1; 0] false false (two_assets 5 true)
                = Done s' /\
              descriptors_match s' /\ v_A s' = v_A (two_assets 5 true)) /\
  (exists s', remove_variable 0 false (two_assets 5 true) = Done s' /\
              length (v_asset_indices s') = length (v_x s') /\
              length (v_asset_type s') = length (v_x s') /\
              S (length (v_x s')) = length (v_x (two_assets 5 true)) /\
              v_A s' = v_A (two_assets 5 true)).
Proof.
  assert (Hd : descriptors_match (two_assets 5 true)) by (repeat split).
  destruct (sizes_after_removal (two_assets 5 true) Hd) as (Hr & Hs & Hv).
  split; [apply Hr|]. split.
  - apply Hs.
    + apply NoDup_cons. split; [|apply NoDup_singleton].
      intros H. apply elem_of_cons in H as [H | H]; [discriminate|].
      apply elem_of_nil in H. exact H.
    + repeat constructor.
  - apply Hv. cbn. lia.
Defined.

End RemovalFacts.
(** ** The initial up and down time: when its computation returns *)

Module InitTimeFacts.
Import UpDownTime.

(** the largest [int] *)
Definition INT_MAX : Z := 2147483647.

(** the unit has at least one time and a commitment for each of its times *)
Definition has_commitments (u : ThermalUnit) : Prop :=
  0 < get_time_horizon u <= length (get_commitment u).

(** the number of times of the units found at the stages [j - 1], ..., 0 *)
Fixpoint total_time (earlier : nat -> option ThermalUnit) (j : nat) : nat :=
  match j with
  | 0 => 0
  | S k => match earlier k with
           | Some u => get_time_horizon u
           | None => 0
           end + total_time earlier k
  end.

Lemma counter_moves (on : bool) z :
  (Z.abs z + 1 <= INT_MAX)%Z ->
  exists z', (if on then increment z else decrement z) = Done z' /\
             (Z.abs z' <= Z.abs z + 1)%Z.
Proof.
  unfold INT_MAX, increment, decrement, int_fits. intros H. destruct on.
  - exists (z + 1)%Z. split; [|lia].
    replace ((-2147483648 <=? z + 1)%Z && (z + 1 <=? 2147483647)%Z) with true;
      [reflexivity|].
    symmetry. apply andb_true_iff. split; apply Z.leb_le; lia.
  - exists (z - 1)%Z. split; [|lia].
    replace ((-2147483648 <=? z - 1)%Z && (z - 1 <=? 2147483647)%Z) with true;
      [reflexivity|].
    symmetry. apply andb_true_iff. split; apply Z.leb_le; lia.
Qed.

Lemma last_time_returns {A} (v : list A) T :
  0 < T <= length v -> exists x, last_time v T = Done x.
Proof.
  intros H. destruct T as [|t]; [lia|]. cbn [last_time].
  apply vget_lt. lia.
Qed.

Lemma within_stage_returns values on : forall p init,
  p < length values ->
  (Z.abs init + Z.of_nat p <= INT_MAX)%Z ->
  exists r,
    within_stage values p p on init = Done r /\
    (Z.abs (match r with inl z | inr z => z end)
     <= Z.abs init + Z.of_nat p)%Z.
Proof.
  induction p as [|p IH]; intros init Hp Hfit; cbn [within_stage].
  - exists (inr init). split; [reflexivity|]. lia.
  - destruct (vget_lt values (S p) Hp) as [current ->].
    destruct (vget_lt values p) as [before ->]; [lia|]. cbn [bind].
    destruct (dgtb _ half).
    { exists (inl init). split; [reflexivity|]. lia. }
    destruct (counter_moves on init) as (z' & -> & Hz'); [lia|]. cbn [bind].
    replace (S p - 1) with p by lia.
    destruct (IH z') as (r & -> & Hr); [lia | lia |].
    exists r. split; [reflexivity|]. lia.
Qed.

Lemma across_stages_returns earlier stage on : forall j outer_t u init,
  stage = outer_t + S j ->
  has_commitments u ->
  (forall k, k < j -> exists u', earlier k = Some u' /\ has_commitments u') ->
  (Z.abs init + Z.of_nat (get_time_horizon u - 1)
   + Z.of_nat (total_time earlier j) <= INT_MAX)%Z ->
  exists z, across_stages earlier stage (seq outer_t (S j)) u on init = Done z.
Proof.
  induction j as [|j IH]; intros outer_t u init Hstage [HT Hlen] Hearlier Hfit.
  - cbn [seq across_stages].
    destruct (within_stage_returns (get_commitment u) on
                (get_time_horizon u - 1) init) as (r & -> & Hr);
      [lia | lia |].
    cbn [bind]. destruct r as [z|z]; [eauto|].
    destruct (decide (outer_t = stage - 1)); [eauto | lia].
  - change (seq outer_t (S (S j))) with (outer_t :: seq (S outer_t) (S j)).
    remember (seq (S outer_t) (S j)) as later eqn:Hlater.
    cbn [across_stages]. subst later.
    destruct (Hearlier j) as (u' & Eu' & Hu'); [lia|].
    cbn [total_time] in Hfit. rewrite Eu' in Hfit.
    destruct (within_stage_returns (get_commitment u) on
                (get_time_horizon u - 1) init) as (r & -> & Hr);
      [lia | lia |].
    cbn [bind]. destruct r as [z|z]; [eauto|].
    destruct (decide (outer_t = stage - 1)); [eauto|].
    replace (stage - outer_t - 2) with j by lia. rewrite Eu'.
    destruct (last_time_returns (get_commitment u') (get_time_horizon u') Hu')
      as (v & ->).
    cbn [bind].
    assert (Hnext : forall z',
              (Z.abs z' <= Z.abs z + 1)%Z ->
              exists z'', across_stages earlier stage (seq (S outer_t) (S j))
                            u' on z' = Done z'').
    { intros z' Hz'. apply IH.
      - lia.
      - exact Hu'.
      - intros k Hk. apply Hearlier. lia.
      - destruct Hu'. lia. }
    destruct on.
    + destruct (dgeb v half); [|eauto].
      destruct (counter_moves true z) as (z' & E & Hz'); [destruct Hu'; lia|].
      cbn in E. rewrite E. cbn [bind]. apply Hnext. exact Hz'.
    + destruct (dltb v half); [|eauto].
      destruct (counter_moves false z) as (z' & E & Hz'); [destruct Hu'; lia|].
      cbn in E. rewrite E. cbn [bind]. apply Hnext. exact Hz'.
Qed.

(** the computation returns when every unit it looks at is there with its
    commitments and the number of their times is one of an [int] *)
Lemma compute_init_up_down_time_returns earlier previous_unit shutdown stage :
  stage <> 0 ->
  has_commitments previous_unit ->
  (forall k, k < stage - 1 ->
             exists u, earlier k = Some u /\ has_commitments u) ->
  (Z.of_nat (get_time_horizon previous_unit + total_time earlier (stage - 1))
   <= INT_MAX)%Z ->
  exists z,
    compute_init_up_down_time earlier previous_unit shutdown stage = Done z.
Proof.
  intros Hs Hu Hearlier Hfit. unfold compute_init_up_down_time.
  destruct (decide (get_time_horizon previous_unit = 0));
    [destruct Hu; lia|].
  destruct (match shutdown with Some v => dgeb v half | None => false end);
    [eauto|].
  destruct (last_time_returns (get_commitment previous_unit)
              (get_time_horizon previous_unit) Hu) as (v & ->).
  cbn [bind].
  replace (seq 0 stage) with (seq 0 (S (stage - 1))) by (f_equal; lia).
  apply across_stages_returns; try assumption; [lia|].
  destruct Hu. destruct (dgeb v half); lia.
Qed.

End InitTimeFacts.

(** ** The transfer of state between stages *)

Module BridgeFacts.
Import StateBridge.

(** the classes the transfer tells apart *)
Inductive family : Type := Hydro | Thermal | Battery | Other.

Definition family_of (c : BlockClass) : family :=
  match c with
  | HydroUnitBlock _ _ _ => Hydro
  | ThermalUnitBlock _ _ _ _ => Thermal
  | BatteryUnitBlock _ _ _ => Battery
  | _ => Other
  end.

Definition family_eqb (a b : family) : bool :=
  match a, b with
  | Hydro, Hydro | Thermal, Thermal | Battery, Battery | Other, Other => true
  | _, _ => false
  end.

Definition generators (c : BlockClass) : nat :=
  match c with HydroUnitBlock n _ _ => n | _ => 0 end.

(** what the transfer checks of two Blocks at the same place of the two
    trees: a hydro, thermal or battery unit faces a unit of its class, and
    two hydro units have the same number of generators *)
Definition classes_agree (previous current : BlockClass) : bool :=
  family_eqb (family_of previous) (family_of current) &&
  (generators previous =? generators current).

Fixpoint agree (previous current : Block) {struct previous} : bool :=
  match previous, current with
  | Node _ kp np, Node _ kc nc =>
      classes_agree kp kc &&
      (fix all (ps cs : list Block) {struct ps} : bool :=
         match ps, cs with
         | [], [] => true
         | p :: ps', c :: cs' => agree p c && all ps' cs'
         | _, _ => false
         end) np nc
  end.

Fixpoint agree_all (ps cs : list Block) : bool :=
  match ps, cs with
  | [], [] => true
  | p :: ps', c :: cs' => agree p c && agree_all ps' cs'
  | _, _ => false
  end.

(** the name of the class of a Block *)
Definition class_name (c : BlockClass) : nat :=
  match c with
  | HydroUnitBlock _ _ _ => 0
  | ThermalUnitBlock _ _ _ _ => 1
  | BatteryUnitBlock _ _ _ => 2
  | IntermittentUnitBlock => 3
  | SlackUnitBlock => 4
  | HydroSystemUnitBlock => 5
  | DCNetworkBlock => 6
  | UCBlock => 7
  end.

(** the two trees have the same shape and the same class at every place *)
Fixpoint same_shape_and_classes (previous current : Block) {struct previous}
  : bool :=
  match previous, current with
  | Node _ kp np, Node _ kc nc =>
      (class_name kp =? class_name kc) &&
      (fix all (ps cs : list Block) {struct ps} : bool :=
         match ps, cs with
         | [], [] => true
         | p :: ps', c :: cs' => same_shape_and_classes p c && all ps' cs'
         | _, _ => false
         end) np nc
  end.

(** the Blocks at the same place of the two trees *)
Fixpoint matched (previous current : Block) {struct previous}
  : list (Block * Block) :=
  match previous, current with
  | Node _ _ np, Node _ _ nc =>
      (previous, current) ::
      (fix all (ps cs : list Block) {struct ps} : list (Block * Block) :=
         match ps, cs with
         | p :: ps', c :: cs' => matched p c ++ all ps' cs'
         | _, _ => []
         end) np nc
  end.

Fixpoint matched_all (ps cs : list Block) : list (Block * Block) :=
  match ps, cs with
  | p :: ps', c :: cs' => matched p c ++ matched_all ps' cs'
  | _, _ => []
  end.

(** the values the transfer reads of a Block of the earlier stage exist *)
Definition data_readable (c : BlockClass) : bool :=
  match c with
  | HydroUnitBlock n T fr =>
      (0 <? T) && (n <=? length fr) && forallb (fun row => T <=? length row) fr
  | ThermalUnitBlock T ap _ _ => (0 <? T) && (T <=? length ap)
  | BatteryUnitBlock T ap sl =>
      (0 <? T) && (T <=? length ap) && (T <=? length sl)
  | _ => true
  end.

Fixpoint readable (b : Block) : bool :=
  match b with
  | Node _ k nested =>
      data_readable k &&
      (fix all (l : list Block) : bool :=
         match l with
         | [] => true
         | b' :: l' => readable b' && all l'
         end) nested
  end.

Definition readable_all (l : list Block) : bool := forallb readable l.

(** the thermal units that the path of unit [c] finds in the stages before
    the earlier one *)
Definition earlier_units (d : Driver) (c : Block)
  : nat -> option UpDownTime.ThermalUnit :=
  fun k => thermal_unit_of (element_at d (id_of c) k).

(** when the initial up and down time of unit [c] is asked for and [p] is
    a thermal unit, its computation returns *)
Definition init_time_returns (d : Driver) (stage : nat) (p c : Block) : Prop :=
  simulate_investment d && single_scenario d = true ->
  forall T ap cm sd,
    class_of p = ThermalUnitBlock T ap cm sd ->
    exists z,
      UpDownTime.compute_init_up_down_time
        (earlier_units d c) (UpDownTime.mkThermalUnit T cm) sd stage = Done z.

(** The data that the computation of the initial up and down time of unit
    [c] reads, when it is asked for and [p] is a thermal unit: [p] has a
    commitment for each of its times; in every stage before the earlier one
    the path of [c] finds a thermal unit with at least one time and a
    commitment for each of its times; and the number of all these times is
    one of an [int]. *)
Definition init_time_data (d : Driver) (stage : nat) (p c : Block) : Prop :=
  simulate_investment d && single_scenario d = true ->
  forall T ap cm sd,
    class_of p = ThermalUnitBlock T ap cm sd ->
    T <= length cm /\
    (forall k, k < stage - 1 ->
       exists u, earlier_units d c k = Some u /\
                 InitTimeFacts.has_commitments u) /\
    (Z.of_nat (T + InitTimeFacts.total_time (earlier_units d c) (stage - 1))
     <= InitTimeFacts.INT_MAX)%Z.

(** the exceptions that report that the two stages differ *)
Definition structure_mismatch (stage : nat) (w : what) : Prop :=
  w = NotSameStructure stage \/
  exists a b, w = GeneratorCountDiffers stage a b.

(** the flow rates of the generators at the last time of the stage *)
Definition last_flow_rates (n T : nat) (fr : list (list dbl)) (values : list dbl)
  : Prop :=
  length values = n /\
  forall g row, g < n -> fr !! g = Some row -> values !! g = row !! (T - 1).

Lemma agree_Node i kp np j kc nc :
  agree (Node i kp np) (Node j kc nc) = classes_agree kp kc && agree_all np nc.
Proof.
  reflexivity.
Qed.

Lemma matched_Node i kp np j kc nc :
  matched (Node i kp np) (Node j kc nc) =
    (Node i kp np, Node j kc nc) :: matched_all np nc.
Proof.
  reflexivity.
Qed.

Lemma readable_Node i k nested :
  readable (Node i k nested) = data_readable k && readable_all nested.
Proof.
  reflexivity.
Qed.

Lemma number_of_blocks_Node i k nested :
  number_of_blocks (Node i k nested) = S (blocks_in nested).
Proof.
  reflexivity.
Qed.

Lemma blocks_in_app l1 l2 : blocks_in (l1 ++ l2) = blocks_in l1 + blocks_in l2.
Proof.
  unfold blocks_in. induction l1 as [|b l1 IH]; [reflexivity|].
  cbn [app foldr]. rewrite IH. lia.
Qed.

Lemma agree_all_length ps : forall cs,
  agree_all ps cs = true -> length ps = length cs.
Proof.
  induction ps as [|p ps IH]; intros [|c cs] H; cbn [agree_all] in H;
    try discriminate; [reflexivity|].
  apply andb_true_iff in H as [_ H]. cbn [length]. f_equal. apply IH. exact H.
Qed.

Lemma agree_all_app ps1 : forall cs1 ps2 cs2,
  length ps1 = length cs1 ->
  agree_all (ps1 ++ ps2) (cs1 ++ cs2) = agree_all ps1 cs1 && agree_all ps2 cs2.
Proof.
  induction ps1 as [|p ps1 IH]; intros [|c cs1] ps2 cs2 H; try discriminate.
  - reflexivity.
  - cbn [app agree_all]. rewrite IH by (cbn [length] in H; lia).
    rewrite andb_assoc. reflexivity.
Qed.

Lemma matched_all_app ps1 : forall cs1 ps2 cs2,
  length ps1 = length cs1 ->
  matched_all (ps1 ++ ps2) (cs1 ++ cs2) =
    matched_all ps1 cs1 ++ matched_all ps2 cs2.
Proof.
  induction ps1 as [|p ps1 IH]; intros [|c cs1] ps2 cs2 H; try discriminate.
  - reflexivity.
  - cbn [app matched_all]. rewrite IH by (cbn [length] in H; lia).
    rewrite app_assoc. reflexivity.
Qed.

Lemma readable_all_app l1 l2 :
  readable_all (l1 ++ l2) = readable_all l1 && readable_all l2.
Proof. apply forallb_app. Qed.

Lemma Block_induction (P : Block -> Prop) :
  (forall i k nested, Forall P nested -> P (Node i k nested)) ->
  forall b, P b.
Proof.
  intros H. fix IH 1. intros [i k nested]. apply H.
  induction nested as [|b l IHl]; constructor; [apply IH | exact IHl].
Qed.

(** the two trees differ: in the number of nested Blocks of two Blocks at
    the same place, or in what [classes_agree] checks of them *)
Inductive mismatch : Block -> Block -> Prop :=
| mismatch_count p c :
    get_number_nested_Blocks p <> get_number_nested_Blocks c -> mismatch p c
| mismatch_class p c :
    classes_agree (class_of p) (class_of c) = false -> mismatch p c
| mismatch_nested p c i p' c' :
    get_nested_Blocks p !! i = Some p' ->
    get_nested_Blocks c !! i = Some c' ->
    mismatch p' c' -> mismatch p c.

Lemma agree_all_false ps : forall cs,
  agree_all ps cs = false ->
  length ps <> length cs \/
  exists i p c, ps !! i = Some p /\ cs !! i = Some c /\ agree p c = false.
Proof.
  induction ps as [|p ps IH]; intros [|c cs] H; cbn [agree_all] in H;
    try discriminate; try (left; cbn [length]; lia).
  apply andb_false_iff in H as [H | H].
  - right. exists 0, p, c. auto.
  - destruct (IH cs H) as [Hl | (i & p' & c' & Hp & Hc & Ha)].
    + left. cbn [length]. lia.
    + right. exists (S i), p', c'. auto.
Qed.

Lemma agree_all_lookup ps : forall cs i p c,
  ps !! i = Some p -> cs !! i = Some c -> agree p c = false ->
  agree_all ps cs = false.
Proof.
  induction ps as [|p0 ps IH]; intros [|c0 cs] [|i] p c Hp Hc Ha;
    try discriminate; cbn [agree_all].
  - inversion Hp. inversion Hc. subst. rewrite Ha. reflexivity.
  - rewrite (IH cs i p c Hp Hc Ha). apply andb_false_r.
Qed.

Lemma agree_all_shorter ps cs :
  length ps <> length cs -> agree_all ps cs = false.
Proof.
  intros H. destruct (agree_all ps cs) eqn:E; [|reflexivity].
  apply agree_all_length in E. contradiction.
Qed.

Lemma mismatch_agree p c : mismatch p c -> agree p c = false.
Proof.
  induction 1 as [[i kp np] [j kc nc] H | [i kp np] [j kc nc] H
                 | [i0 kp np] [j kc nc] i p' c' Hp Hc _ IH];
    rewrite agree_Node.
  - rewrite (agree_all_shorter np nc H). apply andb_false_r.
  - cbn [class_of] in H. rewrite H. reflexivity.
  - rewrite (agree_all_lookup np nc i p' c' Hp Hc IH). apply andb_false_r.
Qed.

Lemma agree_mismatch p : forall c, agree p c = false -> mismatch p c.
Proof.
  induction p as [i kp np IH] using Block_induction. intros [j kc nc] H.
  rewrite agree_Node in H. apply andb_false_iff in H as [H | H].
  - apply mismatch_class. exact H.
  - apply agree_all_false in H as [H | (n & p & c & Hp & Hc & Ha)].
    + apply mismatch_count. exact H.
    + apply (mismatch_nested (Node i kp np) (Node j kc nc) n p c Hp Hc).
      rewrite Forall_forall in IH. apply IH; [|exact Ha].
      apply (list_elem_of_lookup_2 _ _ _ Hp).
Qed.

Lemma agree_iff p c : agree p c = true <-> ~ mismatch p c.
Proof.
  split.
  - intros H M. apply mismatch_agree in M. congruence.
  - intros M. destruct (agree p c) eqn:E; [reflexivity|].
    destruct M. apply agree_mismatch, E.
Qed.

(** two Blocks of the same class, or of different classes *)
Lemma classes_agree_cases kp kc :
  classes_agree kp kc = true ->
  match kp, kc with
  | HydroUnitBlock n _ _, HydroUnitBlock n' _ _ => n = n'
  | ThermalUnitBlock _ _ _ _, ThermalUnitBlock _ _ _ _ => True
  | BatteryUnitBlock _ _ _, BatteryUnitBlock _ _ _ => True
  | HydroUnitBlock _ _ _, _ | _, HydroUnitBlock _ _ _ => False
  | ThermalUnitBlock _ _ _ _, _ | _, ThermalUnitBlock _ _ _ _ => False
  | BatteryUnitBlock _ _ _, _ | _, BatteryUnitBlock _ _ _ => False
  | _, _ => True
  end.
Proof.
  unfold classes_agree. destruct kp, kc; cbn; try discriminate; auto.
  intros H. apply Nat.eqb_eq in H. exact H.
Qed.

Lemma flow_rate_loop (fr : list (list dbl)) T :
  0 < T -> forallb (fun row => T <=? length row) fr = true ->
  forall m k acc, k + m <= length fr ->
  exists values,
    for_each (fun g flow_rate =>
                let! row := vget fr g in
                let! v := last_time row T in
                Done (flow_rate ++ [v])) (seq k m) acc = Done (acc ++ values) /\
    length values = m /\
    forall j row, j < m -> fr !! (k + j) = Some row ->
                  values !! j = row !! (T - 1).
Proof.
  intros HT Hrows. induction m as [|m IH]; intros k acc Hk.
  - exists []. rewrite app_nil_r. split; [reflexivity|]. split; [reflexivity|].
    intros j row Hj. lia.
  - destruct (lookup_lt_is_Some_2 fr k) as [row Hrow]; [lia|].
    assert (Hlen : T <= length row).
    { rewrite forallb_forall in Hrows. apply Nat.leb_le, Hrows.
      apply list_elem_of_In, (list_elem_of_lookup_2 _ _ _ Hrow). }
    destruct T as [|t]; [lia|].
    destruct (lookup_lt_is_Some_2 row t) as [v Hv]; [lia|].
    destruct (IH (S k) (acc ++ [v])) as (values & E & Hl & Hvals); [lia|].
    exists (v :: values). cbn [seq for_each].
    rewrite (vget_lookup _ _ _ Hrow). cbn [bind].
    change (last_time row (S t)) with (vget row t).
    rewrite (vget_lookup _ _ _ Hv). cbn [bind]. rewrite E, <- app_assoc.
    split; [reflexivity|]. split; [cbn [length]; lia|].
    intros [|j] row' Hj Hrow'.
    + rewrite Nat.add_0_r, Hrow in Hrow'. inversion Hrow'. subst row'.
      cbn. rewrite Nat.sub_0_r, Hv. reflexivity.
    + cbn [lookup list_lookup]. apply Hvals; [lia|].
      rewrite <- Hrow'. f_equal. lia.
Qed.

(** the call that sets the initial flow rates of a hydro unit from the unit
    at the same place of the earlier stage *)
Definition hydro_transferred (p c : Block) (calls : list call) : Prop :=
  forall n T fr n' T' fr',
    class_of p = HydroUnitBlock n T fr ->
    class_of c = HydroUnitBlock n' T' fr' ->
    exists values,
      set_initial_flow_rate (id_of c) values ∈ calls /\
      last_flow_rates n T fr values.

(** the call [set_initial_flow_rate] on unit [u] with [values] is the one
    the transfer makes for the hydro units [p] and [c] *)
Definition flow_rate_from (p c : Block) (u : nat) (values : list dbl) : Prop :=
  u = id_of c /\
  exists n T fr,
    class_of p = HydroUnitBlock n T fr /\ last_flow_rates n T fr values.

Lemma init_time_data_returns d stage p c :
  stage <> 0 -> data_readable (class_of p) = true ->
  init_time_data d stage p c -> init_time_returns d stage p c.
Proof.
  intros Hs Hr Hd Hflags T ap cm sd Ep.
  destruct (Hd Hflags T ap cm sd Ep) as (Hcm & Hearlier & Hfit).
  rewrite Ep in Hr. cbn [data_readable] in Hr.
  apply andb_true_iff in Hr as [HT _]. apply Nat.ltb_lt in HT.
  apply InitTimeFacts.compute_init_up_down_time_returns; try assumption.
  split; assumption.
Qed.

Section Transfer.

Variable d : Driver.
Variable stage : nat.

Lemma update_unit_disagree p c :
  classes_agree (class_of p) (class_of c) = false ->
  exists w, update_unit d p c stage = Throw (logic_error w) /\
            structure_mismatch stage w.
Proof.
  destruct p as [i kp np], c as [j kc nc]. cbn [class_of].
  unfold classes_agree, update_unit, update_hydro_unit, update_thermal_unit,
    update_battery_unit, structure_mismatch.
  destruct kp, kc; cbn; intros H; try discriminate;
    try (eexists; split; [reflexivity | left; reflexivity]).
  apply Nat.eqb_neq in H.
  destruct (decide (number_generators <> number_generators0)) as [_|N];
    [|contradiction].
  eexists. split; [reflexivity|]. right. eauto.
Qed.

Lemma update_unit_agree p c :
  classes_agree (class_of p) (class_of c) = true ->
  data_readable (class_of p) = true ->
  init_time_returns d stage p c ->
  exists calls, update_unit d p c stage = Done calls /\
                hydro_transferred p c calls /\
                forall u values, set_initial_flow_rate u values ∈ calls ->
                                 flow_rate_from p c u values.
Proof.
  destruct p as [i kp np], c as [j kc nc]. cbn [class_of].
  intros Ha Hr init_time. apply classes_agree_cases in Ha.
  unfold hydro_transferred, flow_rate_from. cbn [class_of id_of].
  assert (Hnone : forall u values (l : list call),
            Forall (fun x => match x with
                             | set_initial_flow_rate _ _ => False
                             | _ => True
                             end) l ->
            set_initial_flow_rate u values ∈ l ->
            u = j /\ exists n T fr, kp = HydroUnitBlock n T fr /\
                                    last_flow_rates n T fr values).
  { intros u values l Hl Hin. rewrite Forall_forall in Hl.
    destruct (Hl _ Hin). }
  destruct kp, kc; try contradiction;
    try (exists []; split; [reflexivity|];
         split; [intros; discriminate | intros u values H;
                                        apply elem_of_nil in H; contradiction]).
  - (* two hydro units *)
    subst number_generators0. cbn [data_readable] in Hr.
    apply andb_true_iff in Hr as [Hr Hrows].
    apply andb_true_iff in Hr as [HT Hn].
    apply Nat.ltb_lt in HT. apply Nat.leb_le in Hn.
    destruct (flow_rate_loop flow_rate time_horizon HT Hrows
                number_generators 0 []) as (values & E & Hl & Hv); [lia|].
    unfold update_unit, update_hydro_unit. cbn [class_of id_of].
    destruct (decide (number_generators <> number_generators)) as [N|_];
      [contradiction|].
    rewrite E. cbn [bind app fst snd].
    eexists. split; [reflexivity|].
    assert (Hlast : last_flow_rates number_generators time_horizon flow_rate
                      values).
    { split; [exact Hl|]. intros g row Hg Hrow. apply Hv; assumption. }
    split.
    + intros n T fr n' T' fr' Ep Ec. injection Ep as <- <- <-.
      exists values. split; [apply list_elem_of_singleton; reflexivity|].
      exact Hlast.
    + intros u vs Hin. apply list_elem_of_singleton in Hin.
      injection Hin as -> ->. split; [reflexivity|]. eauto.
  - (* two thermal units *)
    cbn [data_readable] in Hr. apply andb_true_iff in Hr as [HT Hp].
    apply Nat.ltb_lt in HT. apply Nat.leb_le in Hp.
    destruct time_horizon as [|t]; [lia|].
    destruct (lookup_lt_is_Some_2 active_power t) as [v Hv]; [lia|].
    unfold update_unit, update_hydro_unit, update_thermal_unit.
    cbn [class_of id_of bind fst snd last_time].
    rewrite (vget_lookup _ _ _ Hv).
    destruct (simulate_investment d && single_scenario d) eqn:Ef.
    + destruct (init_time Ef (S t) active_power commitment shut_down eq_refl)
        as [z Ez].
      unfold earlier_units in Ez. cbn [id_of] in Ez.
      rewrite Ez. cbn [bind fst snd].
      eexists. split; [reflexivity|]. split; [intros; discriminate|].
      intros u values. apply Hnone. repeat constructor.
    + cbn [bind fst snd].
      eexists. split; [reflexivity|]. split; [intros; discriminate|].
      intros u values. apply Hnone. repeat constructor.
  - (* two batteries *)
    cbn [data_readable] in Hr. apply andb_true_iff in Hr as [Hr Hs].
    apply andb_true_iff in Hr as [HT Hp].
    apply Nat.ltb_lt in HT. apply Nat.leb_le in Hp. apply Nat.leb_le in Hs.
    destruct time_horizon as [|t]; [lia|].
    destruct (lookup_lt_is_Some_2 active_power t) as [v Hv]; [lia|].
    destruct (lookup_lt_is_Some_2 storage_level t) as [l Hl]; [lia|].
    unfold update_unit, update_hydro_unit, update_thermal_unit,
      update_battery_unit.
    cbn [class_of id_of bind fst snd last_time].
    rewrite (vget_lookup _ _ _ Hv), (vget_lookup _ _ _ Hl).
    cbn [bind fst snd].
    eexists. split; [reflexivity|]. split; [intros; discriminate|].
    intros u values. apply Hnone. repeat constructor.
Qed.

Lemma blocks_in_cons b queue :
  blocks_in (b :: queue) = number_of_blocks b + blocks_in queue.
Proof. reflexivity. Qed.

(** the pairs of the queues before and after a turn of the loop *)
Lemma matched_queue i kp np ps j kc nc cs :
  length ps = length cs ->
  forall x,
    x ∈ matched_all (Node i kp np :: ps) (Node j kc nc :: cs) <->
    x = (Node i kp np, Node j kc nc) \/
    x ∈ matched_all (ps ++ np) (cs ++ nc).
Proof.
  intros Hlr x. cbn [matched_all]. rewrite matched_Node.
  rewrite <- app_comm_cons, elem_of_cons.
  rewrite matched_all_app by exact Hlr. rewrite !elem_of_app. tauto.
Qed.

Lemma callback_loop_agree : forall fuel blocks previous_blocks calls,
  blocks_in blocks <= fuel ->
  readable_all previous_blocks = true ->
  agree_all previous_blocks blocks = true ->
  (forall p c, (p, c) ∈ matched_all previous_blocks blocks ->
               init_time_returns d stage p c) ->
  exists more,
    callback_loop d fuel stage blocks previous_blocks calls =
      Done (calls ++ more) /\
    (forall p c, (p, c) ∈ matched_all previous_blocks blocks ->
                 hydro_transferred p c more) /\
    (forall u values, set_initial_flow_rate u values ∈ more ->
       exists p c, (p, c) ∈ matched_all previous_blocks blocks /\
                   flow_rate_from p c u values).
Proof.
  induction fuel as [|fuel IH];
    intros blocks previous_blocks calls Hf Hr Ha Hinit.
  - destruct previous_blocks as [|p ps], blocks as [|c cs];
      try discriminate.
    + exists []. rewrite app_nil_r. split; [reflexivity|].
      split; [intros p c H | intros u values H];
        apply elem_of_nil in H; contradiction.
    + rewrite blocks_in_cons in Hf. destruct c.
      rewrite number_of_blocks_Node in Hf. lia.
  - destruct previous_blocks as [|[i kp np] ps], blocks as [|[j kc nc] cs];
      try discriminate.
    + exists []. rewrite app_nil_r. split; [reflexivity|].
      split; [intros p c H | intros u values H];
        apply elem_of_nil in H; contradiction.
    + cbn [agree_all] in Ha. rewrite agree_Node in Ha.
      apply andb_true_iff in Ha as [Ha Hrest].
      apply andb_true_iff in Ha as [Hk Hn].
      cbn [readable_all forallb] in Hr. rewrite readable_Node in Hr.
      apply andb_true_iff in Hr as [Hr Hrrest].
      apply andb_true_iff in Hr as [Hd Hrn].
      pose proof (agree_all_length _ _ Hn) as Hln.
      pose proof (agree_all_length _ _ Hrest) as Hlr.
      rewrite blocks_in_cons, number_of_blocks_Node in Hf.
      pose proof (matched_queue i kp np ps j kc nc cs Hlr) as Hsplit.
      destruct (update_unit_agree (Node i kp np) (Node j kc nc) Hk Hd)
        as (c0 & Eu & Hh & Hg).
      { apply Hinit, Hsplit. left. reflexivity. }
      destruct (IH (cs ++ nc) (ps ++ np) (calls ++ c0))
        as (more & E & Hm & Hb).
      * rewrite blocks_in_app. lia.
      * rewrite readable_all_app. change (readable_all ps = true) in Hrrest.
        rewrite Hrrest, Hrn. reflexivity.
      * rewrite agree_all_app by exact Hlr. rewrite Hrest, Hn. reflexivity.
      * intros p c Hin. apply Hinit, Hsplit. right. exact Hin.
      * exists (c0 ++ more). cbn [callback_loop].
        unfold get_number_nested_Blocks. cbn [get_nested_Blocks].
        destruct (decide (length nc <> length np)) as [N|_]; [lia|].
        rewrite Eu. cbn [bind]. rewrite E, <- app_assoc.
        split; [reflexivity|].
        split; cycle 1.
        { intros u values Hin. apply elem_of_app in Hin as [Hin | Hin].
          - exists (Node i kp np), (Node j kc nc).
            split; [apply Hsplit; left; reflexivity | apply Hg, Hin].
          - destruct (Hb u values Hin) as (p & c & Hpc & Hfrom).
            exists p, c. split; [apply Hsplit; right; exact Hpc | exact Hfrom]. }
        intros p c Hin. apply Hsplit in Hin as [Hin | Hin].
        -- inversion Hin. subst p c.
           intros n T fr n' T' fr' Ep Ec.
           destruct (Hh n T fr n' T' fr' Ep Ec) as (values & Hv & Hl).
           exists values. split; [|exact Hl].
           apply elem_of_app. left. exact Hv.
        -- intros n T fr n' T' fr' Ep Ec.
           destruct (Hm p c Hin n T fr n' T' fr' Ep Ec) as (values & Hv & Hl).
           exists values. split; [|exact Hl].
           apply elem_of_app. right. exact Hv.
Qed.

Lemma callback_loop_disagree : forall fuel blocks previous_blocks calls,
  blocks_in blocks <= fuel ->
  readable_all previous_blocks = true ->
  length previous_blocks = length blocks ->
  agree_all previous_blocks blocks = false ->
  (forall p c, (p, c) ∈ matched_all previous_blocks blocks ->
               init_time_returns d stage p c) ->
  exists w,
    callback_loop d fuel stage blocks previous_blocks calls =
      Throw (logic_error w) /\
    structure_mismatch stage w.
Proof.
  induction fuel as [|fuel IH];
    intros blocks previous_blocks calls Hf Hr Hl Ha Hinit.
  - destruct previous_blocks as [|p ps], blocks as [|c cs];
      try discriminate.
    rewrite blocks_in_cons in Hf. destruct c.
    rewrite number_of_blocks_Node in Hf. lia.
  - destruct previous_blocks as [|[i kp np] ps], blocks as [|[j kc nc] cs];
      try discriminate.
    cbn [length] in Hl.
    assert (Hlr : length ps = length cs) by lia.
    pose proof (matched_queue i kp np ps j kc nc cs Hlr) as Hsplit.
    cbn [readable_all forallb] in Hr. rewrite readable_Node in Hr.
    apply andb_true_iff in Hr as [Hr Hrrest].
    apply andb_true_iff in Hr as [Hd Hrn].
    rewrite blocks_in_cons, number_of_blocks_Node in Hf.
    cbn [callback_loop].
    unfold get_number_nested_Blocks. cbn [get_nested_Blocks].
    destruct (decide (length nc <> length np)) as [N|N].
    { eexists. split; [reflexivity | left; reflexivity]. }
    destruct (classes_agree kp kc) eqn:Hk.
    + destruct (update_unit_agree (Node i kp np) (Node j kc nc) Hk Hd)
        as (c0 & Eu & _).
      { apply Hinit, Hsplit. left. reflexivity. }
      rewrite Eu. cbn [bind]. apply IH.
      * rewrite blocks_in_app. lia.
      * rewrite readable_all_app. change (readable_all ps = true) in Hrrest.
        rewrite Hrrest, Hrn. reflexivity.
      * rewrite !length_app. lia.
      * rewrite agree_all_app by lia.
        cbn [agree_all] in Ha. rewrite agree_Node, Hk in Ha.
        cbn [andb] in Ha. rewrite andb_comm. exact Ha.
      * intros p c Hin. apply Hinit, Hsplit. right. exact Hin.
    + destruct (update_unit_disagree (Node i kp np) (Node j kc nc) Hk)
        as (w & Eu & Hw).
      rewrite Eu. exists w. split; [reflexivity | exact Hw].
Qed.

End Transfer.

(** the values read of every Block of a readable tree exist *)
Lemma readable_all_matched ps : forall cs p c,
  Forall (fun b => forall c p' c', (p', c') ∈ matched b c ->
                                   readable b = true ->
                                   data_readable (class_of p') = true) ps ->
  readable_all ps = true ->
  (p, c) ∈ matched_all ps cs -> data_readable (class_of p) = true.
Proof.
  induction ps as [|b ps IH]; intros [|c0 cs] p c Hall Hr Hin;
    cbn [matched_all] in Hin; try (apply elem_of_nil in Hin; contradiction).
  apply Forall_cons in Hall as [Hb Hall].
  cbn [readable_all forallb] in Hr. apply andb_true_iff in Hr as [Hrb Hr].
  apply elem_of_app in Hin as [Hin | Hin].
  - apply (Hb c0 p c Hin Hrb).
  - apply (IH cs p c Hall Hr Hin).
Qed.

Lemma readable_matched b : forall c p' c',
  (p', c') ∈ matched b c -> readable b = true ->
  data_readable (class_of p') = true.
Proof.
  induction b as [i k nested IH] using Block_induction.
  intros [j kc nc] p' c' Hin Hr. rewrite matched_Node in Hin.
  rewrite readable_Node in Hr. apply andb_true_iff in Hr as [Hd Hn].
  apply elem_of_cons in Hin as [Hin | Hin].
  - inversion Hin; subst. exact Hd.
  - apply (readable_all_matched nested nc p' c' IH Hn Hin).
Qed.

(** C9, as the code has it, at a stage after the first.  Let the values
    read of the Blocks of the earlier stage exist: every hydro, thermal and
    battery unit has at least one time and its flow rates, active power and
    storage level at its last time.  When one scenario is simulated with
    the simulation-based investment function, let also the data of the
    initial up and down time of every thermal unit be there: its
    commitments, a thermal unit with its commitments at the same place of
    every stage before, and a number of times that is one of an [int].
    If the trees of the two stages differ in the number of nested Blocks of
    two Blocks at the same place, or a hydro, thermal or battery unit does
    not face a unit of its class, or two hydro units at the same place have
    different numbers of generators, the transfer throws a logic error that
    reports the mismatch.  Otherwise it returns, and for every two hydro
    units at the same place it has set the initial flow rate of each
    generator of the later stage to the flow rate of that generator at the
    last time of the earlier stage; it sets no other flow rate. *)
Theorem C9_state_transfer d stage previous_uc_block uc_block :
  stage <> 0 ->
  readable previous_uc_block = true ->
  (forall p c, (p, c) ∈ matched previous_uc_block uc_block ->
               init_time_data d stage p c) ->
  (mismatch previous_uc_block uc_block ->
   exists w,
     callback d stage previous_uc_block uc_block = Throw (logic_error w) /\
     structure_mismatch stage w) /\
  (~ mismatch previous_uc_block uc_block ->
   exists calls,
     callback d stage previous_uc_block uc_block = Done calls /\
     (forall p c, (p, c) ∈ matched previous_uc_block uc_block ->
                  hydro_transferred p c calls) /\
     (forall u values, set_initial_flow_rate u values ∈ calls ->
        exists p c, (p, c) ∈ matched previous_uc_block uc_block /\
                    flow_rate_from p c u values)).
Proof.
  intros Hs Hr Hdata. unfold callback.
  destruct (decide (stage = 0)) as [E|_]; [contradiction|].
  assert (Hf : blocks_in [uc_block] <= number_of_blocks uc_block).
  { rewrite blocks_in_cons. cbn. lia. }
  assert (Hq : readable_all [previous_uc_block] = true).
  { cbn [readable_all forallb]. rewrite Hr. reflexivity. }
  assert (Hi : forall p c,
            (p, c) ∈ matched_all [previous_uc_block] [uc_block] ->
            init_time_returns d stage p c).
  { intros p c Hin. cbn [matched_all] in Hin. rewrite app_nil_r in Hin.
    apply (init_time_data_returns d stage p c Hs).
    - apply (readable_matched previous_uc_block uc_block p c Hin Hr).
    - apply Hdata. exact Hin. }
  split; intros H.
  - apply mismatch_agree in H.
    apply (callback_loop_disagree d stage _ _ _ [] Hf Hq); [reflexivity | | exact Hi].
    cbn [agree_all]. rewrite H. reflexivity.
  - apply agree_iff in H.
    destruct (callback_loop_agree d stage _ [uc_block] [previous_uc_block]
                [] Hf Hq) as (more & E & Hm & Hb).
    { cbn [agree_all]. rewrite H. reflexivity. }
    { exact Hi. }
    cbn [matched_all] in Hm, Hb. rewrite app_nil_r in Hm, Hb.
    exists more. split; [exact E|]. split; [exact Hm | exact Hb].
Qed.

Definition cascade : list (list dbl) :=
  [[lit 1; lit 2; lit 3]; [lit 4; lit 5; lit 6]].

(** the thermal unit of stage 0: off, on, on *)
Definition first_thermal_unit : Block :=
  Node 22 (ThermalUnitBlock 3 [lit 1; lit 2; lit 3] [zero; one; one] None) [].

(** stage 1: the thermal unit is on at its three times *)
Definition earlier_stage : Block :=
  Node 0 UCBlock
    [Node 1 (HydroUnitBlock 2 3 cascade) [];
     Node 2 (ThermalUnitBlock 3 [lit 7; lit 8; lit 9] [one; one; one] None) [];
     Node 3 IntermittentUnitBlock []].

Definition later_stage : Block :=
  Node 10 UCBlock
    [Node 11 (HydroUnitBlock 2 3 []) [];
     Node 12 (ThermalUnitBlock 3 [] [] None) [];
     Node 13 IntermittentUnitBlock []].

(** the later stage with one generator less in the hydro unit *)
Definition later_stage_one_generator : Block :=
  Node 10 UCBlock
    [Node 11 (HydroUnitBlock 1 3 []) [];
     Node 12 (ThermalUnitBlock 3 [] [] None) [];
     Node 13 IntermittentUnitBlock []].

(** a run of one scenario with the simulation-based investment function;
    the path of the thermal unit 12 of stage 2 leads to the thermal unit
    of stage 0 *)
Definition single_run : Driver :=
  mkDriver true true
    (fun unit k =>
       if decide (unit = 12 /\ k = 0) then Some first_thermal_unit else None).

Lemma single_run_data later p c :
  later = later_stage \/ later = later_stage_one_generator ->
  (p, c) ∈ matched earlier_stage later -> init_time_data single_run 2 p c.
Proof.
  intros Hlater Hin _ T ap cm sd Ep.
  assert (Hc : p = Node 2 (ThermalUnitBlock 3 [lit 7; lit 8; lit 9]
                             [one; one; one] None) [] /\
               id_of c = 12).
  { destruct Hlater as [-> | ->];
      unfold earlier_stage, later_stage, later_stage_one_generator in Hin;
      rewrite !matched_Node in Hin; cbn [matched_all app] in Hin;
      rewrite !matched_Node in Hin; cbn [matched_all app] in Hin;
      repeat (apply elem_of_cons in Hin as [Hin | Hin];
              [inversion Hin; subst; cbn [class_of] in Ep;
               try discriminate; split; reflexivity|]);
      apply elem_of_nil in Hin; contradiction. }
  destruct Hc as [-> Hid]. cbn [class_of] in Ep. inversion Ep; subst.
  assert (Hu : earlier_units single_run c 0 =
               Some (UpDownTime.mkThermalUnit 3 [zero; one; one])).
  { unfold earlier_units, single_run. cbn [element_at]. rewrite Hid.
    reflexivity. }
  split; [cbn; lia|]. split.
  - intros k Hk. assert (k = 0) as -> by lia.
    eexists. split; [exact Hu|]. split; cbn; lia.
  - change (2 - 1) with 1. cbn [InitTimeFacts.total_time]. rewrite Hu.
    vm_compute. discriminate.
Qed.

(** at stage 2, a thermal unit that has been on for the three times of
    stage 1 and the last two times of stage 0 *)
Lemma C9_state_transfer_witness :
  (exists calls values,
     callback single_run 2 earlier_stage later_stage = Done calls /\
     set_initial_flow_rate 11 values ∈ calls /\
     last_flow_rates 2 3 cascade values /\
     set_init_updown_time 12 5 ∈ calls) /\
  (exists w,
     callback single_run 2 earlier_stage later_stage_one_generator =
       Throw (logic_error w) /\
     structure_mismatch 2 w).
Proof.
  assert (Hs : 2 <> 0) by lia.
  assert (Hr : readable earlier_stage = true) by (vm_compute; reflexivity).
  split.
  - destruct (C9_state_transfer single_run 2 earlier_stage later_stage Hs Hr)
      as [_ Hd].
    { intros p c. apply single_run_data. left. reflexivity. }
    destruct Hd as (calls & E & Hm & _).
    { apply agree_iff. vm_compute. reflexivity. }
    assert (Hin : (Node 1 (HydroUnitBlock 2 3 cascade) [],
                   Node 11 (HydroUnitBlock 2 3 []) [])
                  ∈ matched earlier_stage later_stage).
    { apply list_elem_of_In. cbn. auto. }
    destruct (Hm _ _ Hin 2 3 cascade 2 3 [] eq_refl eq_refl)
      as (values & Hv & Hl).
    exists calls, values. split; [exact E|]. split; [exact Hv|].
    split; [exact Hl|].
    vm_compute in E. inversion E. apply list_elem_of_In. cbn. auto.
  - destruct (C9_state_transfer single_run 2 earlier_stage
                later_stage_one_generator Hs Hr) as [Hm _].
    { intros p c. apply single_run_data. right. reflexivity. }
    apply Hm. apply agree_mismatch. vm_compute. reflexivity.
Defined.

(** an intermittent unit of the earlier stage where the later stage has a
    slack unit *)
Definition earlier_stage_intermittent : Block :=
  Node 0 UCBlock [Node 1 IntermittentUnitBlock []].

Definition later_stage_slack : Block :=
  Node 10 UCBlock [Node 11 SlackUnitBlock []].

(** C9 as stated fails: the two trees have a unit of a different class at
    the same place, and the transfer returns without an exception and
    without a call. *)
Lemma C9_classes_not_compared :
  same_shape_and_classes earlier_stage_intermittent later_stage_slack = false /\
  readable earlier_stage_intermittent = true /\
  callback single_run 1 earlier_stage_intermittent later_stage_slack = Done [].
Proof.
  split; [reflexivity|]. split; reflexivity.
Qed.

End BridgeFacts.

(** ** The global pool: storing, deleting, resizing and cloning *)

Module PoolMaintenanceFacts.
Import GlobalPool PoolFacts.

(** what the pool holds under a name, read through its accessors *)
Definition holds (p : t) (name : nat) (constant : dbl)
    (coefficients : list dbl) (diagonal : bool) : Prop :=
  get_linearization_constant p name = Done constant /\
  get_linearization_coefficients p (0, length coefficients) name =
    Done coefficients /\
  is_diagonal p !! name = Some diagonal.

(** two pools hold the same under a name *)
Definition same_at (p p' : t) (name : nat) : Prop :=
  linearization_constants p' !! name = linearization_constants p !! name /\
  linearization_coefficients p' !! name = linearization_coefficients p !! name /\
  is_diagonal p' !! name = is_diagonal p !! name.

Lemma read_all {A} (row : list A) :
  for_each (fun i g => let! a := vget row i in Done (g ++ [a]))
           (seq 0 (length row - 0)) [] = Done row.
Proof.
  rewrite Nat.sub_0_r.
  pose proof (CutFacts.read_loop (fun a : A => a) row (length row) 0 []) as H.
  rewrite H by lia. rewrite drop_0, firstn_all, map_id. reflexivity.
Qed.

Lemma holds_lookup p name c cf d :
  linearization_constants p !! name = Some c ->
  linearization_coefficients p !! name = Some cf ->
  is_diagonal p !! name = Some d ->
  holds p name c cf d.
Proof.
  intros Hc Hcf Hd. split; [|split; [|exact Hd]].
  - unfold get_linearization_constant.
    assert (name < size p) by (apply lookup_lt_is_Some; eauto).
    destruct (decide (name < size p)); [|lia].
    apply vget_lookup, Hc.
  - unfold get_linearization_coefficients. rewrite (vget_lookup _ _ _ Hcf).
    cbn [bind fst snd]. apply read_all.
Qed.

Lemma there_lookup p name c :
  linearization_constants p !! name = Some c ->
  is_linearization_there p name = negb (isnan c).
Proof. unfold is_linearization_there. intros ->. reflexivity. Qed.

Lemma there_same p p' name :
  linearization_constants p' !! name = linearization_constants p !! name ->
  is_linearization_there p' name = is_linearization_there p name.
Proof. unfold is_linearization_there. intros ->. reflexivity. Qed.

Lemma there_lt p name :
  is_linearization_there p name = true -> name < size p.
Proof.
  unfold is_linearization_there, size.
  destruct (linearization_constants p !! name) eqn:E; [|discriminate].
  intros _. apply lookup_lt_is_Some. eauto.
Qed.

(** X1: [store] throws an invalid-argument exception exactly for a name
    outside the pool.  For a name of the pool it returns, and what was
    stored is read back: the constant, all the coefficients and the kind;
    the name holds a linearization unless the constant is NaN, and a
    vertical one exactly when it was stored as not diagonal; the size of the
    pool, the important combination and what the other names hold do not
    change. *)
Theorem store_read_back p constant coefficients name diagonal :
  well_sized p ->
  (size p <= name ->
   store constant coefficients name diagonal p =
     Throw (invalid_argument InvalidPoolName)) /\
  (name < size p ->
   exists p',
     store constant coefficients name diagonal p = Done p' /\
     well_sized p' /\ size p' = size p /\
     holds p' name constant coefficients diagonal /\
     is_linearization_there p' name = negb (isnan constant) /\
     is_linearization_vertical p' name =
       Done (negb (isnan constant) && negb diagonal) /\
     important_linearization_lin_comb p' = important_linearization_lin_comb p /\
     forall other, other <> name -> same_at p p' other).
Proof.
  intros [Hcf Hdg]. unfold store. split; intros Hn.
  - destruct (decide (size p <= name)); [reflexivity | lia].
  - destruct (decide (size p <= name)); [lia|].
    unfold size in *. rewrite !vset_lt by lia. cbn [bind].
    eexists. split; [reflexivity|].
    assert (Hc' : <[name := constant]> (linearization_constants p) !! name =
                  Some constant) by (apply list_lookup_insert_eq; lia).
    split; [|split; [|split; [|split; [|split; [|split]]]]].
    + split; cbn; rewrite !length_insert; assumption.
    + cbn. apply length_insert.
    + apply holds_lookup; cbn; [exact Hc' | |];
        apply list_lookup_insert_eq; lia.
    + apply there_lookup. exact Hc'.
    + unfold is_linearization_vertical. cbn. rewrite Hc'.
      destruct (isnan constant); [reflexivity|].
      unfold vget. rewrite list_lookup_insert_eq by lia. reflexivity.
    + reflexivity.
    + intros other Ho. repeat split; cbn;
        apply list_lookup_insert_ne; congruence.
Qed.

Lemma store_read_back_witness :
  exists p',
    store (lit 7) [lit 1; lit 2] 2 false (PoolTheorems.two_diagonals (lit 3) (lit 5)) =
      Done p' /\
    holds p' 2 (lit 7) [lit 1; lit 2] false /\
    is_linearization_vertical p' 2 = Done true /\
    same_at (PoolTheorems.two_diagonals (lit 3) (lit 5)) p' 0.
Proof.
  assert (Hw : well_sized (PoolTheorems.two_diagonals (lit 3) (lit 5)))
    by (split; reflexivity).
  destruct (store_read_back (PoolTheorems.two_diagonals (lit 3) (lit 5)) (lit 7)
              [lit 1; lit 2] 2 false Hw) as [_ H].
  destruct H as (p' & E & _ & _ & Hh & _ & Hv & _ & Ho); [cbn; lia|].
  exists p'. split; [exact E|]. split; [exact Hh|]. split; [exact Hv|].
  apply Ho. lia.
Defined.

(** what [delete_linearization] does, case by case *)
Lemma delete_linearization_cases p name :
  well_sized p ->
  (size p <= name ->
   delete_linearization name p = Throw (invalid_argument InvalidPoolName)) /\
  (name < size p ->
   exists p',
     delete_linearization name p = Done p' /\
     well_sized p' /\ size p' = size p /\
     is_linearization_there p' name = false /\
     is_linearization_vertical p' name = Done false /\
     linearization_coefficients p' !! name = Some [] /\
     is_diagonal p' = is_diagonal p /\
     important_linearization_lin_comb p' = important_linearization_lin_comb p /\
     forall other, other <> name -> same_at p p' other).
Proof.
  intros [Hcf Hdg]. unfold delete_linearization. split; intros Hn.
  - destruct (decide (size p <= name)); [reflexivity | lia].
  - destruct (decide (size p <= name)); [lia|].
    unfold size in *. rewrite !vset_lt by lia. cbn [bind].
    eexists. split; [reflexivity|].
    assert (Hc' : <[name := NaN]> (linearization_constants p) !! name =
                  Some NaN) by (apply list_lookup_insert_eq; lia).
    split; [|split; [|split; [|split; [|split; [|split; [|split]]]]]].
    + split; cbn; rewrite !length_insert; assumption.
    + cbn. apply length_insert.
    + rewrite (there_lookup _ _ NaN); [reflexivity | exact Hc'].
    + unfold is_linearization_vertical. cbn. rewrite Hc'. reflexivity.
    + cbn. apply list_lookup_insert_eq. lia.
    + reflexivity.
    + reflexivity.
    + intros other Ho. repeat split; cbn; try reflexivity;
        apply list_lookup_insert_ne; congruence.
Qed.

(** X2: [delete_linearization] throws an invalid-argument exception exactly
    for a name outside the pool.  For a name of the pool it returns; the
    name then holds no linearization, its constant is NaN and its
    coefficients are gone, while its kind, the size of the pool and what
    the other names hold do not change. *)
Theorem delete_linearization_removes p name :
  well_sized p ->
  (size p <= name ->
   delete_linearization name p = Throw (invalid_argument InvalidPoolName)) /\
  (name < size p ->
   exists p',
     delete_linearization name p = Done p' /\
     well_sized p' /\ size p' = size p /\
     is_linearization_there p' name = false /\
     is_linearization_vertical p' name = Done false /\
     linearization_coefficients p' !! name = Some [] /\
     is_diagonal p' = is_diagonal p /\
     important_linearization_lin_comb p' = important_linearization_lin_comb p /\
     forall other, other <> name -> same_at p p' other).
Proof. apply delete_linearization_cases. Qed.

Lemma delete_linearization_removes_witness :
  exists p',
    delete_linearization 1 (PoolTheorems.two_diagonals (lit 3) (lit 5)) = Done p' /\
    is_linearization_there p' 1 = false /\
    is_linearization_there p' 0 = true /\
    same_at (PoolTheorems.two_diagonals (lit 3) (lit 5)) p' 0.
Proof.
  assert (Hw : well_sized (PoolTheorems.two_diagonals (lit 3) (lit 5)))
    by (split; reflexivity).
  destruct (delete_linearization_removes (PoolTheorems.two_diagonals (lit 3) (lit 5)) 1 Hw)
    as [_ H].
  destruct H as (p' & E & _ & _ & Ht & _ & _ & _ & _ & Ho); [cbn; lia|].
  exists p'. split; [exact E|]. split; [exact Ht|].
  destruct (Ho 0) as (Hc & Hrest); [lia|]. split; [|split; assumption].
  rewrite (there_same _ _ _ Hc). reflexivity.
Defined.

Import PoolMaintenance.

Lemma empty_spec p :
  empty p = true <-> forall name, is_linearization_there p name = false.
Proof.
  unfold empty, is_linearization_there. rewrite forallb_forall. split.
  - intros H name. destruct (linearization_constants p !! name) as [c|] eqn:E;
      [|reflexivity].
    rewrite (H c); [reflexivity|].
    apply list_elem_of_In, (list_elem_of_lookup_2 _ _ _ E).
  - intros H c Hin. apply list_elem_of_In, list_elem_of_lookup_1 in Hin as [i Hi].
    specialize (H i). rewrite Hi in H. destruct (isnan c); [reflexivity|].
    discriminate.
Qed.

(** X3: [invalidate] leaves a pool that [empty] reports as empty: no name
    holds a linearization any more.  The size, the coefficients and the
    kinds stay, so setting the constant of a name of the pool again brings
    the linearization back with the coefficients and the kind it had. *)
Theorem invalidate_keeps_coefficients p :
  well_sized p ->
  empty (invalidate p) = true /\
  (forall name, is_linearization_there (invalidate p) name = false) /\
  size (invalidate p) = size p /\
  forall name constant coefficients diagonal,
    linearization_coefficients p !! name = Some coefficients ->
    is_diagonal p !! name = Some diagonal ->
    exists p',
      set_linearization_constant constant name (invalidate p) = Done p' /\
      holds p' name constant coefficients diagonal /\
      is_linearization_there p' name = negb (isnan constant).
Proof.
  intros [Hcf Hdg].
  assert (Hnone : forall name, is_linearization_there (invalidate p) name = false).
  { intros name. unfold is_linearization_there, invalidate. cbn.
    destruct (replicate _ NaN !! name) as [c|] eqn:E; [|reflexivity].
    apply lookup_replicate in E as [-> _]. reflexivity. }
  split; [apply empty_spec, Hnone|]. split; [exact Hnone|].
  assert (Hsize : size (invalidate p) = size p).
  { unfold size, invalidate. cbn. apply length_replicate. }
  split; [exact Hsize|].
  intros name c cf d Ecf Ed.
  assert (Hn : name < size p).
  { rewrite <- Hcf. apply lookup_lt_is_Some. eauto. }
  unfold set_linearization_constant. rewrite Hsize.
  destruct (decide (size p <= name)); [lia|].
  rewrite vset_lt by (cbn; rewrite length_replicate; exact Hn). cbn [bind].
  eexists. split; [reflexivity|].
  assert (Hc : <[name := c]> (replicate (length (linearization_constants p)) NaN)
               !! name = Some c).
  { apply list_lookup_insert_eq. rewrite length_replicate. exact Hn. }
  split.
  - apply holds_lookup; cbn; assumption.
  - apply there_lookup. cbn. exact Hc.
Qed.

Lemma invalidate_keeps_coefficients_witness :
  empty (invalidate (PoolTheorems.two_diagonals (lit 3) (lit 5))) = true /\
  exists p',
    set_linearization_constant (lit 9) 1
      (invalidate (PoolTheorems.two_diagonals (lit 3) (lit 5))) = Done p' /\
    holds p' 1 (lit 9) [lit 0; lit 1] true.
Proof.
  assert (Hw : well_sized (PoolTheorems.two_diagonals (lit 3) (lit 5)))
    by (split; reflexivity).
  destruct (invalidate_keeps_coefficients _ Hw) as (He & _ & _ & Hs).
  split; [exact He|].
  destruct (Hs 1 (lit 9) [lit 0; lit 1] true eq_refl eq_refl)
    as (p' & E & Hh & _).
  exists p'. split; assumption.
Defined.

(** X4: [resize] gives the pool the size asked for.  A name holds a
    linearization afterwards exactly when it is below the new size and held
    one before: shrinking destroys the linearizations from the new size on,
    growing adds names that hold nothing; the names below both sizes hold
    what they held. *)
Theorem resize_keeps_the_names_below p n :
  well_sized p ->
  well_sized (resize n p) /\ size (resize n p) = n /\
  (forall name,
     is_linearization_there (resize n p) name =
       (name <? n) && is_linearization_there p name) /\
  (forall name, name < n -> name < size p -> same_at p (resize n p) name) /\
  (forall name, size p <= name < n ->
     linearization_coefficients (resize n p) !! name = Some []).
Proof.
  intros [Hcf Hdg]. unfold size in *.
  split; [|split; [|split; [|split]]].
  - split; cbn; rewrite !length_resize; reflexivity.
  - cbn. apply length_resize.
  - intros name.
    destruct (Nat.ltb_spec name n) as [Hlt | Hge]; cbn [andb];
      unfold is_linearization_there; cbn.
    + destruct (decide (name < length (linearization_constants p))) as [Hin|Hout].
      * rewrite lookup_resize by lia. reflexivity.
      * rewrite lookup_resize_new by lia.
        rewrite (lookup_ge_None_2 (linearization_constants p)) by lia.
        reflexivity.
    + rewrite lookup_resize_old by lia. reflexivity.
  - intros name Hn Hp. repeat split; cbn; apply lookup_resize; lia.
  - intros name [Hp Hn]. cbn. apply lookup_resize_new; lia.
Qed.

Lemma resize_keeps_the_names_below_witness :
  size (resize 1 (PoolTheorems.two_diagonals (lit 3) (lit 5))) = 1 /\
  is_linearization_there (resize 1 (PoolTheorems.two_diagonals (lit 3) (lit 5))) 0 = true /\
  is_linearization_there (resize 1 (PoolTheorems.two_diagonals (lit 3) (lit 5))) 1 = false /\
  is_linearization_there (resize 5 (PoolTheorems.two_diagonals (lit 3) (lit 5))) 4 = false.
Proof.
  assert (Hw : well_sized (PoolTheorems.two_diagonals (lit 3) (lit 5)))
    by (split; reflexivity).
  destruct (resize_keeps_the_names_below _ 1 Hw) as (_ & Hs & Ht & _).
  destruct (resize_keeps_the_names_below _ 5 Hw) as (_ & _ & Ht5 & _).
  split; [exact Hs|]. rewrite !Ht, Ht5. repeat split.
Defined.

Lemma vcopy_same_length {A} (src dst : list A) :
  length src = length dst -> vcopy src dst = Done src.
Proof.
  intros H. unfold vcopy. destruct (decide (length src <= length dst)); [|lia].
  rewrite drop_ge by lia. rewrite app_nil_r. reflexivity.
Qed.

Lemma vcopy_shorter {A} (src dst : list A) :
  length src <= length dst ->
  exists r, vcopy src dst = Done r /\ length r = length dst.
Proof.
  intros H. unfold vcopy. destruct (decide (length src <= length dst)); [|lia].
  eexists. split; [reflexivity|]. rewrite length_app, length_drop. lia.
Qed.

(** a loop that copies the positions [k .. k+n) of [src] over those of [dst] *)
Lemma copy_loop {A} (src : list A) n : forall k dst,
  k + n <= length src -> k + n <= length dst ->
  for_each (fun i dst => let! y := vget src i in vset dst i y) (seq k n) dst =
  Done (take k dst ++ take n (drop k src) ++ drop (k + n) dst).
Proof.
  induction n as [|n IH]; intros k dst Hs Hd; cbn [seq for_each].
  - rewrite Nat.add_0_r, take_0. cbn [app]. rewrite take_drop. reflexivity.
  - destruct (lookup_lt_is_Some_2 src k) as [a Ha]; [lia|].
    rewrite (vget_lookup _ _ _ Ha). cbn [bind].
    rewrite vset_lt by lia. cbn [bind].
    rewrite IH by (rewrite ?length_insert; lia).
    f_equal. rewrite (drop_S _ _ _ Ha). cbn [take].
    rewrite take_insert_lt by lia.
    rewrite drop_insert_lt by lia.
    replace (S k + n) with (k + S n) by lia.
    assert (Hk : k < length dst) by lia.
    destruct (lookup_lt_is_Some_2 dst k Hk) as [b Hb].
    rewrite (take_S_r _ _ _ Hb).
    rewrite insert_app_r_alt by (rewrite length_take; lia).
    rewrite length_take, Nat.min_l by lia. rewrite Nat.sub_diag. cbn.
    rewrite <- app_assoc. reflexivity.
Qed.

Lemma clone_cases p global_pool :
  well_sized p -> well_sized global_pool ->
  (size p <= size global_pool -> clone global_pool p = Done global_pool) /\
  (size global_pool < size p -> clone global_pool p = Undefined).
Proof.
  intros [Hcf Hdg] [Gcf Gdg]. unfold clone. split; intros Hsz.
  - set (q := if decide (size p < size global_pool)
              then resize (size global_pool) p else p).
    assert (Hq : length (linearization_constants q) = size global_pool /\
                 length (linearization_coefficients q) = size global_pool /\
                 length (is_diagonal q) = size global_pool).
    { subst q. destruct (decide (size p < size global_pool)).
      - cbn. rewrite !length_resize. auto.
      - unfold size in *. repeat split; lia. }
    destruct Hq as (Qc & Qcf & Qdg).
    rewrite vcopy_same_length by (rewrite Qdg; exact Gdg). cbn [bind].
    rewrite vcopy_same_length by (rewrite Qc; reflexivity). cbn [bind].
    rewrite copy_loop by (fold (size global_pool); lia).
    cbn [bind]. rewrite take_0, drop_0. cbn [app Nat.add].
    fold (size global_pool). rewrite <- Gcf at 1. rewrite firstn_all.
    rewrite drop_ge by lia. rewrite app_nil_r.
    destruct global_pool; reflexivity.
  - destruct (decide (size p < size global_pool)); [lia|].
    destruct (vcopy_shorter (is_diagonal global_pool) (is_diagonal p))
      as (dg & -> & _); [unfold size in *; lia|].
    destruct (vcopy_shorter (linearization_constants global_pool)
                (linearization_constants p)) as (cs & -> & Lcs);
      [unfold size in *; lia|].
    cbn [bind]. rewrite Lcs. fold (size p).
    replace (size p) with (size global_pool + S (size p - S (size global_pool)))
      by lia.
    rewrite seq_app, for_each_app.
    rewrite copy_loop by (unfold size in *; lia).
    cbn [bind Nat.add seq for_each]. unfold vget.
    rewrite (lookup_ge_None_2 (linearization_coefficients global_pool))
      by lia.
    reflexivity.
Qed.

(** X5: the copying [clone].  A pool that is not larger than the given one
    becomes equal to it.  A pool that is larger than the given one is not
    resized, and the loop that copies the coefficients runs over the names
    of this pool and reads the coefficients of the given pool outside its
    range, which is undefined behaviour. *)
Theorem clone_into_a_larger_pool p global_pool :
  well_sized p -> well_sized global_pool ->
  (size p <= size global_pool -> clone global_pool p = Done global_pool) /\
  (size global_pool < size p -> clone global_pool p = Undefined).
Proof. apply clone_cases. Qed.

(** a pool with the single name 0, holding a diagonal linearization *)
Definition one_diagonal : t :=
  {| linearization_constants := [lit 4];
     linearization_coefficients := [[lit 1; lit 1]];
     important_linearization_lin_comb := [(0, lit 1)];
     is_diagonal := [true] |}.

Lemma clone_into_a_larger_pool_witness :
  clone (PoolTheorems.two_diagonals (lit 3) (lit 5)) one_diagonal =
    Done (PoolTheorems.two_diagonals (lit 3) (lit 5)) /\
  clone one_diagonal (PoolTheorems.two_diagonals (lit 3) (lit 5)) = Undefined.
Proof.
  assert (Hw : well_sized (PoolTheorems.two_diagonals (lit 3) (lit 5)))
    by (split; reflexivity).
  assert (Ho : well_sized one_diagonal) by (split; reflexivity).
  split.
  - apply (clone_into_a_larger_pool one_diagonal _ Ho Hw). cbn. lia.
  - apply (clone_into_a_larger_pool _ one_diagonal Hw Ho). cbn. lia.
Defined.

Lemma there_resize p n name :
  is_linearization_there (resize n p) name =
    (name <? n) && is_linearization_there p name.
Proof.
  destruct (Nat.ltb_spec name n) as [Hlt | Hge]; cbn [andb];
    unfold is_linearization_there; cbn.
  - destruct (decide (name < length (linearization_constants p))) as [Hin|Hout].
    + rewrite lookup_resize by lia. reflexivity.
    + rewrite lookup_resize_new by lia.
      rewrite (lookup_ge_None_2 (linearization_constants p)) by lia.
      reflexivity.
  - rewrite lookup_resize_old by lia. reflexivity.
Qed.

Lemma there_clone_move p global_pool name :
  is_linearization_there (clone_move global_pool p) name =
    is_linearization_there global_pool name.
Proof.
  unfold clone_move. rewrite there_resize.
  destruct (is_linearization_there global_pool name) eqn:E;
    [|apply andb_false_r].
  apply there_lt in E. rewrite andb_true_r. apply Nat.ltb_lt. lia.
Qed.

(** X6: the moving [clone] never reads outside a vector.  The pool takes
    what the given pool holds and the larger of the two sizes: a name holds
    a linearization afterwards exactly when it holds one in the given pool,
    the names of the given pool hold what they hold there, and a pool that
    was not larger than the given one becomes equal to it. *)
Theorem clone_move_takes_the_given_pool p global_pool :
  well_sized global_pool ->
  well_sized (clone_move global_pool p) /\
  size (clone_move global_pool p) = Nat.max (size p) (size global_pool) /\
  important_linearization_lin_comb (clone_move global_pool p) =
    important_linearization_lin_comb global_pool /\
  (forall name,
     is_linearization_there (clone_move global_pool p) name =
       is_linearization_there global_pool name) /\
  (forall name, name < size global_pool ->
     same_at global_pool (clone_move global_pool p) name) /\
  (size p <= size global_pool -> clone_move global_pool p = global_pool).
Proof.
  intros [Gcf Gdg]. unfold clone_move.
  split; [|split; [|split; [|split; [|split]]]].
  - split; cbn; rewrite !length_resize; reflexivity.
  - cbn. apply length_resize.
  - reflexivity.
  - intros name. apply (there_clone_move p global_pool name).
  - intros name Hn. unfold size in *.
    repeat split; cbn; apply lookup_resize; lia.
  - intros Hsz. rewrite Nat.max_r by exact Hsz.
    destruct global_pool as [cs cf imp dg]. unfold resize, size in *.
    cbn in *. f_equal.
    + apply resize_all.
    + rewrite <- Gcf. apply resize_all.
    + rewrite <- Gdg. apply resize_all.
Qed.

Lemma clone_move_takes_the_given_pool_witness :
  size (clone_move one_diagonal (PoolTheorems.two_diagonals (lit 3) (lit 5))) = 3 /\
  is_linearization_there
    (clone_move one_diagonal (PoolTheorems.two_diagonals (lit 3) (lit 5))) 0 = true /\
  is_linearization_there
    (clone_move one_diagonal (PoolTheorems.two_diagonals (lit 3) (lit 5))) 1 = false /\
  clone_move (PoolTheorems.two_diagonals (lit 3) (lit 5)) one_diagonal =
    PoolTheorems.two_diagonals (lit 3) (lit 5).
Proof.
  assert (Hw : well_sized (PoolTheorems.two_diagonals (lit 3) (lit 5)))
    by (split; reflexivity).
  assert (Ho : well_sized one_diagonal) by (split; reflexivity).
  destruct (clone_move_takes_the_given_pool (PoolTheorems.two_diagonals (lit 3) (lit 5))
              one_diagonal Ho) as (_ & Hs & _ & Ht & _ & _).
  destruct (clone_move_takes_the_given_pool one_diagonal
              (PoolTheorems.two_diagonals (lit 3) (lit 5)) Hw) as (_ & _ & _ & _ & _ & He).
  split; [exact Hs|]. rewrite !Ht. split; [reflexivity|].
  split; [reflexivity|]. apply He. cbn. lia.
Defined.

(** the pool after the names of [which] were deleted from [p] *)
Definition deleted (p p' : t) (which : list nat) : Prop :=
  size p' = size p /\
  (forall name, is_linearization_there p' name = true <->
                is_linearization_there p name = true /\ name ∉ which) /\
  (forall name, name ∉ which -> same_at p p' name).

Lemma delete_loop which : forall p,
  well_sized p ->
  exists p', for_each delete_if_there which p = Done p' /\
             well_sized p' /\ deleted p p' which.
Proof.
  induction which as [|a which IH]; intros p Hw.
  - exists p. split; [reflexivity|]. split; [exact Hw|].
    split; [reflexivity|]. split.
    + intros name. split; [intros H; split; [exact H|]|intros [H _]; exact H].
      intros Hin. apply elem_of_nil in Hin. exact Hin.
    + intros name _. repeat split.
  - cbn [for_each].
    assert (Hstep : exists p1,
              delete_if_there a p = Done p1 /\ well_sized p1 /\
              size p1 = size p /\
              is_linearization_there p1 a = false /\
              forall other, other <> a -> same_at p p1 other).
    { unfold delete_if_there.
      destruct (is_linearization_there p a) eqn:Ea.
      - destruct (delete_linearization_cases p a Hw) as [_ H].
        destruct (H (there_lt _ _ Ea))
          as (p1 & E1 & W1 & S1 & T1 & _ & _ & _ & _ & O1).
        exists p1. auto.
      - exists p. repeat split; auto; apply Hw. }
    destruct Hstep as (p1 & -> & W1 & S1 & T1 & O1). cbn [bind].
    destruct (IH p1 W1) as (p' & E & W' & S' & T' & O').
    exists p'. split; [exact E|]. split; [exact W'|].
    split; [congruence|]. split.
    + intros name. rewrite T', elem_of_cons.
      destruct (decide (name = a)) as [-> | Hne].
      * rewrite T1. split; [intros [H _]; discriminate | intros [_ H]].
        exfalso. apply H. left. reflexivity.
      * destruct (O1 name Hne) as (Hc & _).
        rewrite (there_same _ _ _ Hc). tauto.
    + intros name Hin. rewrite elem_of_cons in Hin.
      destruct (O1 name) as (A1 & A2 & A3); [tauto|].
      destruct (O' name) as (B1 & B2 & B3); [tauto|].
      repeat split; congruence.
Qed.

Lemma last_sorted l : forall back,
  StronglySorted le l -> last l = Some back ->
  back ∈ l /\ Forall (fun n => n <= back) l.
Proof.
  induction l as [|a l IH]; intros back Hs Hl; [discriminate|].
  apply StronglySorted_inv in Hs as [Hs Ha].
  destruct l as [|b l].
  - cbn in Hl. injection Hl as <-. split; [left|]. repeat constructor.
  - change (last (b :: l) = Some back) in Hl.
    destruct (IH back Hs Hl) as [Hin Hall]. split; [right; exact Hin|].
    constructor; [|exact Hall].
    apply (proj1 (Forall_forall _ _) Ha back Hin).
Qed.

(** X7: [delete_linearizations].  With no name given it deletes every
    linearization and leaves an empty pool of the same size.  With names
    given in no order it throws an invalid-argument exception when some
    name is outside the pool, and nothing is deleted; otherwise the names
    given hold no linearization afterwards and the others hold what they
    held.  With names given as ordered only the last one is checked: names
    outside the pool before it are passed over. *)
Theorem delete_linearizations_spec p which ordered :
  well_sized p ->
  let r := delete_linearizations which ordered p in
  (which = [] ->
   exists p', r = Done p' /\ size p' = size p /\ empty p' = true) /\
  (which <> [] -> ordered = false ->
   (Exists (fun n => size p <= n) which ->
    r = Throw (invalid_argument InvalidPoolName)) /\
   (Forall (fun n => n < size p) which ->
    exists p', r = Done p' /\ deleted p p' which)) /\
  (ordered = true -> forall back, last which = Some back ->
   (size p <= back -> r = Throw (invalid_argument InvalidPoolName)) /\
   (back < size p -> exists p', r = Done p' /\ deleted p p' which)).
Proof.
  intros Hw r. subst r. unfold delete_linearizations.
  split; [|split].
  - intros ->. cbn.
    destruct (delete_loop (seq 0 (size p)) p Hw) as (p' & E & _ & S' & T' & _).
    exists p'. split; [exact E|]. split; [exact S'|].
    apply empty_spec. intros name.
    destruct (is_linearization_there p' name) eqn:Et; [|reflexivity].
    apply T' in Et as [Et Hn]. exfalso. apply Hn, elem_of_seq.
    apply there_lt in Et. lia.
  - intros Hne ->. destruct which as [|a which]; [congruence|].
    assert (Hperm : merge_sort le (a :: which) ≡ₚ a :: which)
      by apply merge_sort_Permutation.
    assert (Hsorted : StronglySorted le (merge_sort le (a :: which))).
    { apply StronglySorted_merge_sort; [intros x y z; lia | intros x y; lia]. }
    destruct (last (merge_sort le (a :: which))) as [back|] eqn:El.
    2:{ apply last_None in El. rewrite El in Hperm.
        apply Permutation_nil_l in Hperm. discriminate. }
    destruct (last_sorted _ _ Hsorted El) as [Hin Hall].
    split.
    + intros Hex. apply Exists_exists in Hex as (n & Hn & Hge).
      rewrite <- Hperm in Hn.
      pose proof (proj1 (Forall_forall _ _) Hall n Hn) as Hle. cbv beta in Hle.
      cbn. destruct (decide (size p <= back)); [reflexivity | lia].
    + intros Hall'. rewrite Hperm in Hin.
      pose proof (proj1 (Forall_forall _ _) Hall' back Hin) as Hlt.
      cbv beta in Hlt. cbn.
      destruct (decide (size p <= back)); [lia|].
      destruct (delete_loop (merge_sort le (a :: which)) p Hw)
        as (p' & E & _ & S' & T' & O').
      exists p'. split; [exact E|]. split; [exact S'|]. split.
      * intros name. rewrite T', Hperm. reflexivity.
      * intros name Hn. apply O'. rewrite Hperm. exact Hn.
  - intros -> back Hl.
    destruct which as [|a which]; [discriminate|].
    cbn. rewrite Hl. split; intros Hb.
    + destruct (decide (size p <= back)); [reflexivity | lia].
    + destruct (decide (size p <= back)); [lia|].
      destruct (delete_loop (a :: which) p Hw) as (p' & E & _ & D).
      exists p'. split; [exact E | exact D].
Qed.

Lemma delete_linearizations_spec_witness :
  (exists p', delete_linearizations [] false (PoolTheorems.two_diagonals (lit 3) (lit 5)) =
                Done p' /\ empty p' = true) /\
  delete_linearizations [1; 5] false (PoolTheorems.two_diagonals (lit 3) (lit 5)) =
    Throw (invalid_argument InvalidPoolName) /\
  (exists p', delete_linearizations [1; 0] false (PoolTheorems.two_diagonals (lit 3) (lit 5)) =
                Done p' /\
              deleted (PoolTheorems.two_diagonals (lit 3) (lit 5)) p' [1; 0]) /\
  (exists p', delete_linearizations [7; 1] true (PoolTheorems.two_diagonals (lit 3) (lit 5)) =
                Done p' /\
              deleted (PoolTheorems.two_diagonals (lit 3) (lit 5)) p' [7; 1]).
Proof.
  assert (Hw : well_sized (PoolTheorems.two_diagonals (lit 3) (lit 5)))
    by (split; reflexivity).
  split; [|split; [|split]].
  - destruct (delete_linearizations_spec _ [] false Hw) as (H & _).
    destruct (H eq_refl) as (p' & E & _ & He). exists p'. auto.
  - destruct (delete_linearizations_spec _ [1; 5] false Hw) as (_ & H & _).
    destruct H as [H _]; [discriminate | reflexivity |].
    apply H. right. left. cbn. lia.
  - destruct (delete_linearizations_spec _ [1; 0] false Hw) as (_ & H & _).
    destruct H as [_ H]; [discriminate | reflexivity |].
    apply H. repeat constructor; cbn; lia.
  - destruct (delete_linearizations_spec _ [7; 1] true Hw) as (_ & _ & H).
    destruct (H eq_refl 1 eq_refl) as [_ H']. apply H'. cbn. lia.
Defined.

End PoolMaintenanceFacts.

(** ** The investment function: walking through the violated constraints *)

Module ViolationFacts.
Import InvestmentFunction CutFacts ComputeFacts.

(** the row at which [is_feasible] starts to look: the one after the
    violated row recorded, or row 0 when none is recorded *)
Definition start_of (s : t) : nat :=
  match fst (f_violated_constraint s) with
  | Some i => i + 1
  | None => 0
  end.

(** row [i] is the first row from [start] on with a violated side *)
Definition next_violation (s : t) (start i : nat) (side : ConstraintSide)
  : Prop :=
  start <= i < length (v_A s) /\ row_violated s i side /\
  forall j, start <= j < i -> row_holds s j.

Lemma seq_split_from start n i :
  start <= i < n ->
  seq start (n - start) = seq start (i - start) ++ i :: seq (S i) (n - S i).
Proof.
  intros H. replace (n - start) with ((i - start) + S (n - S i)) by lia.
  rewrite seq_app. cbn [seq]. repeat f_equal; lia.
Qed.

(** X8: [compute_new_linearization].  For a diagonal linearization it
    answers false and changes nothing.  For a vertical one it looks at the
    rows after the violated row recorded (at all rows when none is
    recorded): it answers true exactly when one of them is violated, and
    then it records the first such row with its violated side and changes
    nothing else; when none is violated it answers false and leaves the
    record as it is.  So repeated calls report the violated rows one by one
    in increasing order, each once. *)
Theorem compute_new_linearization_walks s :
  compute_new_linearization true s = Done (false, s) /\
  (forall i side,
     next_violation s (start_of s) i side ->
     compute_new_linearization false s =
       Done (true, set_f_violated_constraint (Some i, side) s)) /\
  ((forall j, start_of s <= j < length (v_A s) -> row_holds s j) ->
   compute_new_linearization false s = Done (false, s)) /\
  (forall answer s',
     compute_new_linearization false s = Done (answer, s') ->
     if answer
     then exists i side,
            next_violation s (start_of s) i side /\
            s' = set_f_violated_constraint (Some i, side) s /\
            start_of s' = S i
     else s' = s /\
          forall j, start_of s <= j < length (v_A s) -> row_holds s j).
Proof.
  split; [reflexivity|]. unfold compute_new_linearization, is_feasible.
  fold (start_of s). split; [|split].
  - intros i side ([Hi Hn] & Hv & Hbefore).
    rewrite (seq_split_from _ _ i) by lia.
    rewrite (is_feasible_rows_first s _ i side); [reflexivity | | exact Hv].
    intros j Hj. apply elem_of_seq in Hj. apply Hbefore. lia.
  - intros Hall. rewrite is_feasible_rows_all; [reflexivity|].
    intros j Hj. apply elem_of_seq in Hj. apply Hall. lia.
  - intros answer s' H.
    destruct (is_feasible_rows s (seq (start_of s) (length (v_A s) - start_of s)))
      as [[b s1]| | |] eqn:E; cbn [bind fst snd] in H; try discriminate.
    injection H as <- <-. destruct b; cbn [negb].
    + apply is_feasible_rows_true in E as [-> Hall]. split; [reflexivity|].
      intros j Hj. apply Hall, elem_of_seq. lia.
    + assert (Hfirst : forall rows start,
                is_feasible_rows s rows = Done (false, s1) ->
                rows = seq start (length rows) ->
                exists i side,
                  start <= i < start + length rows /\
                  row_violated s i side /\
                  (forall j, start <= j < i -> row_holds s j) /\
                  s1 = set_f_violated_constraint (Some i, side) s).
      { clear E. induction rows as [|r rows IH]; intros start Hr Hseq;
          cbn [is_feasible_rows] in Hr; [discriminate|].
        cbn [length seq] in Hseq. injection Hseq as -> Hrows.
        destruct (check_row s start) as [[sd|]| | |] eqn:Ec;
          cbn [bind] in Hr; try discriminate.
        - injection Hr as <-. exists start, sd. cbn [length].
          repeat split; [lia | lia | exact Ec |]. intros j Hj. lia.
        - destruct (IH (S start) Hr Hrows) as (i & sd & Hi & Hv & Hb & Hs).
          exists i, sd. cbn [length]. repeat split; [lia | lia | exact Hv | |
                                                      exact Hs].
          intros j Hj. destruct (decide (j = start)) as [-> | Hne];
            [exact Ec | apply Hb; lia]. }
      destruct (Hfirst _ (start_of s) E) as (i & sd & Hi & Hv & Hb & ->).
      { rewrite length_seq. reflexivity. }
      rewrite length_seq in Hi.
      exists i, sd. split; [|split; [reflexivity|]].
      * repeat split; [lia | lia | exact Hv | exact Hb].
      * unfold start_of. cbn. lia.
Qed.

(** the constraints [x_0 >= 2] and [x_0 + x_1 <= 2] at the point (3, 1):
    the first one holds, the second one is violated *)
Definition second_row_violated : t :=
  mk [ColVariable.mk 0 (lit 3); ColVariable.mk 1 (lit 1)]
     false kOK false true (lit (1 # 1000000)) false false true false PInf
     (lit (1 # 1000000)) [0; 1] [eUnitBlock; eUnitBlock] [zero; zero]
     [lit 10; lit 20] [zero; zero] [zero; zero] [zero; zero]
     [[lit 1; lit 0]; [lit 1; lit 1]] [lit 2; NInf] [PInf; lit 2] (None, eLHS)
     (GlobalPool.mk [] [] [] []) [] false ∅ ∅ 1 [].

Lemma compute_new_linearization_walks_witness :
  compute_new_linearization false second_row_violated =
    Done (true, set_f_violated_constraint (Some 1, eRHS) second_row_violated) /\
  compute_new_linearization false
    (set_f_violated_constraint (Some 1, eRHS) second_row_violated) =
    Done (false, set_f_violated_constraint (Some 1, eRHS) second_row_violated).
Proof.
  split.
  - apply (compute_new_linearization_walks second_row_violated).
    split; [cbn; lia|]. split; [vm_compute; reflexivity|].
    intros j Hj. assert (j = 0) as -> by (cbn in Hj; lia).
    vm_compute. reflexivity.
  - apply (compute_new_linearization_walks
             (set_f_violated_constraint (Some 1, eRHS) second_row_violated)).
    intros j Hj. cbn in Hj. lia.
Defined.

End ViolationFacts.

(** ** The investment function: the slots of the inner Blocks *)

Module SlotFacts.
Import InvestmentFunction.

(** the vector of the slots as [lock_sub_block] sees it: an empty vector
    is first given one free slot per inner Block *)
Definition slots (w : World) (s : t) : list bool :=
  if empty (is_locked s) then replicate (number_sub_blocks w) false
  else is_locked s.

Lemma first_unlocked_Some l : forall k i,
  first_unlocked l k = Some i <->
  k <= i /\ l !! (i - k) = Some false /\
  forall j, j < i - k -> l !! j = Some true.
Proof.
  induction l as [|b l IH]; intros k i; cbn [first_unlocked].
  - split; [discriminate | intros (_ & H & _); discriminate].
  - destruct b.
    + rewrite IH. split.
      * intros (Hk & Hi & Hlow). split; [lia|].
        replace (i - k) with (S (i - S k)) by lia. split; [exact Hi|].
        intros [|j] Hj; [reflexivity | apply Hlow; lia].
      * intros (Hk & Hi & Hlow).
        destruct (decide (i = k)) as [-> | Hne].
        { rewrite Nat.sub_diag in Hi. discriminate. }
        replace (i - k) with (S (i - S k)) in Hi, Hlow by lia.
        split; [lia|]. split; [exact Hi|].
        intros j Hj. apply (Hlow (S j)). lia.
    + split.
      * intros H. injection H as <-. rewrite Nat.sub_diag.
        split; [lia|]. split; [reflexivity|]. intros j Hj. lia.
      * intros (Hk & Hi & Hlow). f_equal.
        destruct (decide (i = k)) as [-> | Hne]; [reflexivity|].
        specialize (Hlow 0). cbn in Hlow. assert (0 < i - k) as H0 by lia.
        specialize (Hlow H0). discriminate.
Qed.

Lemma first_unlocked_None l : forall k,
  first_unlocked l k = None <-> Forall (fun b => b = true) l.
Proof.
  induction l as [|b l IH]; intros k; cbn [first_unlocked].
  - split; [constructor | reflexivity].
  - destruct b.
    + rewrite IH. split; [intros H; constructor; [reflexivity | exact H]|].
      intros H. apply Forall_cons in H as [_ H]. exact H.
    + split; [discriminate|]. intros H. apply Forall_cons in H as [H _].
      discriminate.
Qed.

(** X9: [lock_sub_block] hands out the lowest free slot and marks it, and
    changes nothing else; run by one thread it never returns when every
    slot is taken or there is no inner Block.  Unlocking the slot handed
    out gives the vector of slots back, and a second call hands out a
    higher slot. *)
Theorem lock_sub_block_lowest_free w s :
  (forall i s',
     lock_sub_block w s = Done (i, s') <->
     slots w s !! i = Some false /\
     (forall j, j < i -> slots w s !! j = Some true) /\
     s' = set_is_locked (<[i := true]> (slots w s)) s) /\
  (lock_sub_block w s = Hang <-> Forall (fun b => b = true) (slots w s)) /\
  (forall i s',
     lock_sub_block w s = Done (i, s') ->
     unlock_sub_block i s' = Done (set_is_locked (slots w s) s) /\
     forall i' s'', lock_sub_block w s' = Done (i', s'') -> i < i').
Proof.
  assert (Hiff : forall s i s',
     lock_sub_block w s = Done (i, s') <->
     slots w s !! i = Some false /\
     (forall j, j < i -> slots w s !! j = Some true) /\
     s' = set_is_locked (<[i := true]> (slots w s)) s).
  { clear s. intros s i s'. unfold lock_sub_block. fold (slots w s).
    destruct (first_unlocked (slots w s) 0) as [k|] eqn:E.
    - apply first_unlocked_Some in E as (_ & Ek & Elow).
      rewrite Nat.sub_0_r in Ek, Elow. split.
      + intros H. injection H as <- <-. auto.
      + intros (Hi & Hlow & ->).
        assert (i = k) as ->; [|reflexivity].
        destruct (Nat.lt_trichotomy i k) as [Hlt | [Heq | Hgt]];
          [|exact Heq|].
        * rewrite (Elow i Hlt) in Hi. discriminate.
        * rewrite (Hlow k Hgt) in Ek. discriminate.
    - split; [discriminate|]. intros (Hi & _).
      apply first_unlocked_None in E.
      rewrite Forall_forall in E.
      pose proof (E false (list_elem_of_lookup_2 _ _ _ Hi)). discriminate. }
  split; [apply Hiff|]. split.
  - unfold lock_sub_block. fold (slots w s).
    rewrite <- (first_unlocked_None (slots w s) 0).
    destruct (first_unlocked (slots w s) 0); split; congruence.
  - intros i s' H. apply Hiff in H as (Hi & Hlow & ->).
    assert (Hlen : i < length (slots w s))
      by (apply lookup_lt_is_Some; eauto).
    split.
    + unfold unlock_sub_block. cbn.
      rewrite vset_lt by (rewrite length_insert; exact Hlen). cbn [bind].
      rewrite list_insert_insert_eq, (list_insert_id _ _ _ Hi).
      reflexivity.
    + intros i' s'' H'. apply Hiff in H' as (Hi' & Hlow' & _).
      assert (Hs : slots w (set_is_locked (<[i := true]> (slots w s)) s) =
                   <[i := true]> (slots w s)).
      { unfold slots at 1. cbn.
        destruct (<[i := true]> (slots w s)) eqn:E; [|reflexivity].
        apply (f_equal length) in E. rewrite length_insert in E.
        cbn in E. lia. }
      rewrite Hs in Hi', Hlow'.
      destruct (Nat.lt_trichotomy i i') as [Hlt | [Heq | Hgt]]; [exact Hlt | |].
      * subst i'. rewrite list_lookup_insert_eq in Hi' by exact Hlen.
        discriminate.
      * rewrite list_lookup_insert_ne in Hi' by lia.
        rewrite (Hlow i' Hgt) in Hi'. discriminate.
Qed.

Lemma lock_sub_block_lowest_free_witness :
  let s := ComputeTheorems.one_asset 2 true in
  let s' := set_is_locked [true] s in
  lock_sub_block ComputeTheorems.calm s = Done (0, s') /\
  unlock_sub_block 0 s' = Done (set_is_locked [false] s) /\
  lock_sub_block ComputeTheorems.calm s' = Hang.
Proof.
  cbn zeta.
  destruct (lock_sub_block_lowest_free ComputeTheorems.calm
              (ComputeTheorems.one_asset 2 true)) as (Hiff & _ & Hnext).
  assert (E : lock_sub_block ComputeTheorems.calm
                (ComputeTheorems.one_asset 2 true) =
              Done (0, set_is_locked [true] (ComputeTheorems.one_asset 2 true))).
  { apply Hiff. split; [reflexivity|]. split; [intros j Hj; lia | reflexivity]. }
  split; [exact E|]. split; [apply (Hnext 0 _ E)|].
  apply (lock_sub_block_lowest_free ComputeTheorems.calm
           (set_is_locked [true] (ComputeTheorems.one_asset 2 true))).
  repeat constructor.
Defined.

End SlotFacts.

(** ** The investment function: the tolerance on the linear constraints *)

Module ToleranceFacts.
Import InvestmentFunction CutFacts.

Lemma gap_with_nan_l v : dgtb (dsub NaN v) zero = false.
Proof. destruct v as [| [|] | |]; reflexivity. Qed.

Lemma gap_with_nan_r b : dgtb (dsub b NaN) zero = false.
Proof. destruct b as [| [|] | |]; reflexivity. Qed.

Lemma gap_below_minus_infinity v : dgtb (dsub NInf v) zero = false.
Proof. destruct v as [| [|] | |]; reflexivity. Qed.

Lemma gap_above_plus_infinity v : dgtb (dsub v PInf) zero = false.
Proof. destruct v as [| [|] | | [|]]; reflexivity. Qed.

(** X10: the check of row [i] of the linear constraints, whose value at the
    values seen from outside is [v].  It answers what the test spelled out
    in [violated_side] answers.  The lower side goes first: when the lower
    side is violated beyond the tolerance it is the one reported, whatever
    the upper side is.  A lower bound of minus infinity, an upper bound of
    plus infinity and a bound that is not a number are never reported, and
    a row whose value is not a number is reported on neither side. *)
Theorem check_row_sides s i row lb ub :
  v_A s !! i = Some row ->
  length row <= length (v_x s) ->
  v_constraints_lower_bound s !! i = Some lb ->
  v_constraints_upper_bound s !! i = Some ub ->
  let v := row_value s row in
  let tolerance := f_constraints_tolerance s in
  check_row s i = Done (violated_side tolerance lb ub v) /\
  (exceeds tolerance lb (dsub lb v) = true ->
   check_row s i = Done (Some eLHS)) /\
  (lb = NInf \/ lb = NaN -> check_row s i <> Done (Some eLHS)) /\
  (ub = PInf \/ ub = NaN -> check_row s i <> Done (Some eRHS)) /\
  (v = NaN -> check_row s i = Done None).
Proof.
  intros Hrow Hlen Hlb Hub v tolerance.
  rewrite (check_row_spec s i row lb ub Hrow Hlen Hlb Hub).
  fold v tolerance. unfold violated_side, exceeds.
  split; [reflexivity|]. split; [intros ->; reflexivity|].
  split; [|split].
  - intros [-> | ->];
      [rewrite gap_below_minus_infinity | rewrite gap_with_nan_l];
      cbn [andb];
      destruct (dgtb (dsub v ub) zero && _); discriminate.
  - intros [-> | ->];
      [rewrite gap_above_plus_infinity | rewrite gap_with_nan_r];
      cbn [andb];
      destruct (dgtb (dsub lb v) zero && _); discriminate.
  - intros ->. rewrite gap_with_nan_r, gap_with_nan_l. reflexivity.
Qed.

(** a row with the bounds [-inf] and 2 whose value is not a number *)
Definition row_not_a_number : t :=
  mk [ColVariable.mk 0 NaN]
     false kOK false true (lit (1 # 1000000)) false false true false PInf
     (lit (1 # 1000000)) [0] [eUnitBlock] [zero]
     [lit 10] [zero] [zero] [zero]
     [[lit 1]] [NInf] [lit 2] (None, eLHS)
     (GlobalPool.mk [] [] [] []) [] false ∅ ∅ 1 [].

Lemma check_row_sides_witness :
  check_row ViolationFacts.second_row_violated 0 = Done None /\
  check_row ViolationFacts.second_row_violated 1 = Done (Some eRHS) /\
  check_row ViolationFacts.second_row_violated 1 <> Done (Some eLHS) /\
  check_row row_not_a_number 0 = Done None.
Proof.
  split; [|split; [|split]].
  - destruct (check_row_sides ViolationFacts.second_row_violated 0
                [lit 1; lit 0] (lit 2) PInf) as (H & _);
      [reflexivity | cbn; lia | reflexivity | reflexivity |].
    rewrite H. vm_compute. reflexivity.
  - destruct (check_row_sides ViolationFacts.second_row_violated 1
                [lit 1; lit 1] NInf (lit 2)) as (H & _);
      [reflexivity | cbn; lia | reflexivity | reflexivity |].
    rewrite H. vm_compute. reflexivity.
  - destruct (check_row_sides ViolationFacts.second_row_violated 1
                [lit 1; lit 1] NInf (lit 2)) as (_ & _ & H & _);
      [reflexivity | cbn; lia | reflexivity | reflexivity |].
    apply H. left. reflexivity.
  - destruct (check_row_sides row_not_a_number 0 [lit 1] NInf (lit 2))
      as (_ & _ & _ & _ & H);
      [reflexivity | cbn; lia | reflexivity | reflexivity |].
    apply H. vm_compute. reflexivity.
Defined.

End ToleranceFacts.

(** ** The investment function: which variables a removal keeps *)

Module SubsetFacts.
Import InvestmentFunction RemovalFacts.

(** the elements of [x] whose position, counted from [pos], is not in
    [indices] *)
Fixpoint without {A} (indices : list nat) (pos : nat) (x : list A) : list A :=
  match x with
  | [] => []
  | a :: x' =>
      if bool_decide (pos ∈ indices) then without indices (S pos) x'
      else a :: without indices (S pos) x'
  end.

Lemma without_app {A} indices (x1 x2 : list A) : forall pos,
  without indices pos (x1 ++ x2) =
    without indices pos x1 ++ without indices (pos + length x1) x2.
Proof.
  induction x1 as [|a x1 IH]; intros pos; cbn [app without length].
  - rewrite Nat.add_0_r. reflexivity.
  - rewrite IH. replace (S pos + length x1) with (pos + S (length x1)) by lia.
    destruct (bool_decide (pos ∈ indices)); reflexivity.
Qed.

Lemma without_take_S {A} indices (x : list A) i a :
  x !! i = Some a ->
  without indices 0 (take (S i) x) =
    without indices 0 (take i x) ++
    (if bool_decide (i ∈ indices) then [] else [a]).
Proof.
  intros Ha. rewrite (take_S_r _ _ _ Ha), without_app.
  cbn [Nat.add]. rewrite length_take.
  assert (i < length x) by (apply lookup_lt_is_Some; eauto).
  rewrite Nat.min_l by lia. cbn [without].
  destruct (bool_decide (i ∈ indices)); reflexivity.
Qed.

Lemma without_same_names {A} idx1 idx2 (x : list A) : forall pos,
  (forall n, n ∈ idx1 <-> n ∈ idx2) ->
  without idx1 pos x = without idx2 pos x.
Proof.
  induction x as [|a x IH]; intros pos H; cbn [without]; [reflexivity|].
  rewrite (IH (S pos) H).
  rewrite (bool_decide_ext (pos ∈ idx1) (pos ∈ idx2)) by apply H.
  reflexivity.
Qed.

(** the content of [x] while the loops of [compact] run: the positions
    below [xit] hold the elements kept among the first [i], the positions
    from [i] on are untouched *)
Definition compacted {A} (idx : list nat) (x0 x : list A) (xit i : nat)
  : Prop :=
  length x = length x0 /\ xit < i /\ i <= length x0 /\
  take xit x = without idx 0 (take i x0) /\ drop i x = drop i x0.

Lemma compacted_move {A} idx (x0 x : list A) xit i a :
  compacted idx x0 x xit i -> i ∉ idx -> x !! i = Some a ->
  compacted idx x0 (<[xit := a]> x) (S xit) (S i).
Proof.
  intros (L & X & I & T & D) Hi Ha.
  assert (Hlt : i < length x0).
  { rewrite <- L. apply lookup_lt_is_Some. eauto. }
  assert (Ha0 : x0 !! i = Some a).
  { rewrite <- (Nat.add_0_r i), <- lookup_drop, <- D, lookup_drop,
      Nat.add_0_r. exact Ha. }
  split; [rewrite length_insert; exact L|]. split; [lia|]. split; [lia|].
  split.
  - rewrite (without_take_S _ _ _ _ Ha0), bool_decide_eq_false_2 by exact Hi.
    rewrite <- T.
    assert (Hx : <[xit := a]> x !! xit = Some a)
      by (apply list_lookup_insert_eq; lia).
    rewrite (take_S_r _ _ _ Hx), take_insert_ge by lia. reflexivity.
  - rewrite drop_insert_lt by lia.
    replace (S i) with (i + 1) by lia.
    rewrite <- !drop_drop, D. reflexivity.
Qed.

Lemma compacted_skip {A} idx (x0 x : list A) xit i :
  compacted idx x0 x xit i -> i ∈ idx -> i < length x0 ->
  compacted idx x0 x xit (S i).
Proof.
  intros (L & X & I & T & D) Hi Hlt.
  destruct (lookup_lt_is_Some_2 x0 i Hlt) as [a Ha].
  split; [exact L|]. split; [lia|]. split; [lia|]. split.
  - rewrite (without_take_S _ _ _ _ Ha), bool_decide_eq_true_2 by exact Hi.
    rewrite app_nil_r. exact T.
  - replace (S i) with (i + 1) by lia.
    rewrite <- !drop_drop, D. reflexivity.
Qed.

Lemma compact_loop_content {A} idx (x0 : list A) : forall fuel nit x xit i,
  increasing nit ->
  Forall (fun n => i <= n < length x0) nit ->
  (forall n, i <= n -> (n ∈ idx <-> n ∈ nit)) ->
  compacted idx x0 x xit i ->
  xit + length idx = i + length nit ->
  length x0 - i + length nit <= fuel ->
  exists x' xit' i',
    compact_loop fuel x xit i nit = Done (x', xit', i') /\
    compacted idx x0 x' xit' i' /\
    xit' + length idx = i' /\
    forall n, n ∈ idx -> n < i'.
Proof.
  induction fuel as [|fuel IH]; intros nit x xit i Hinc Hall Hidx Hc Hcnt Hfuel.
  - destruct nit; [|cbn [length] in Hfuel; lia].
    exists x, xit, i. split; [reflexivity|]. split; [exact Hc|].
    split; [cbn [length] in Hcnt; lia|].
    intros n Hn. destruct (decide (n < i)) as [|Hge]; [assumption|].
    apply Hidx in Hn; [|lia]. apply elem_of_nil in Hn. contradiction.
  - destruct nit as [|n rest].
    { exists x, xit, i. split; [reflexivity|]. split; [exact Hc|].
      split; [cbn [length] in Hcnt; lia|].
      intros m Hm. destruct (decide (m < i)) as [|Hge]; [assumption|].
      apply Hidx in Hm; [|lia]. apply elem_of_nil in Hm. contradiction. }
    cbn [compact_loop].
    apply Forall_cons in Hall as [Hn Hrest].
    apply StronglySorted_inv in Hinc as [Hinc Hlt].
    assert (Hrest' : Forall (fun m => S i <= m < length x0) rest).
    { apply Forall_forall. intros m Hm.
      pose proof (proj1 (Forall_forall _ _) Hlt m Hm).
      pose proof (proj1 (Forall_forall _ _) Hrest m Hm) as Hr.
      cbv beta in Hr. lia. }
    destruct (decide (n = i)) as [-> | Hne].
    + apply IH; try assumption.
      * intros m Hm. rewrite Hidx by lia. rewrite elem_of_cons.
        split; [intros [-> | H]; [lia | exact H] | auto].
      * apply compacted_skip; [exact Hc | | lia].
        apply Hidx; [lia | left].
      * cbn [length] in Hcnt. lia.
      * cbn [length] in Hfuel. lia.
    + destruct Hc as (L & X & I & T & D).
      destruct (vget_lt x i) as [a Ea]; [lia|]. rewrite Ea. cbn [bind].
      rewrite vset_lt by lia. cbn [bind].
      apply vget_Done in Ea.
      apply IH.
      * apply SSorted_cons; assumption.
      * apply Forall_cons. split; [lia|].
        apply Forall_forall. intros m Hm.
        pose proof (proj1 (Forall_forall _ _) Hrest' m Hm) as Hr.
        cbv beta in Hr. lia.
      * intros m Hm. apply Hidx. lia.
      * apply compacted_move; [repeat split; assumption | | exact Ea].
        intros Hin. apply Hidx in Hin; [|lia].
        apply elem_of_cons in Hin as [-> | Hin]; [lia|].
        pose proof (proj1 (Forall_forall _ _) Hrest' i Hin) as Hr.
        cbv beta in Hr. lia.
      * lia.
      * cbn [length] in *. lia.
Qed.

Lemma compact_tail_content {A} idx (x0 : list A) : forall m i x xit,
  compacted idx x0 x xit i ->
  (forall n, n ∈ idx -> n < i) ->
  i + m <= length x0 ->
  exists r,
    for_each (fun i r =>
                let! a := vget (fst r) i in
                let! x' := vset (fst r) (snd r) a in
                Done (x', S (snd r))) (seq i m) (x, xit) = Done r /\
    compacted idx x0 (fst r) (snd r) (i + m) /\ snd r = xit + m.
Proof.
  induction m as [|m IH]; intros i x xit Hc Hidx Hm; cbn [seq for_each].
  - exists (x, xit). rewrite !Nat.add_0_r. auto.
  - cbn [fst snd]. pose proof Hc as (L & X & I & T & D).
    destruct (vget_lt x i) as [a Ea]; [lia|]. rewrite Ea. cbn [bind].
    rewrite vset_lt by lia. cbn [bind]. apply vget_Done in Ea.
    destruct (IH (S i) (<[xit := a]> x) (S xit)) as (r & E & Hr & Hs).
    + apply compacted_move; [exact Hc | | exact Ea].
      intros Hin. apply Hidx in Hin. lia.
    + intros n Hn. apply Hidx in Hn. lia.
    + lia.
    + exists r. split; [exact E|].
      replace (i + S m) with (S i + m) by lia. split; [exact Hr | lia].
Qed.

(** [compact] on increasing indices of [x] returns the elements of [x]
    whose position is not among the indices, in their order *)
Lemma compact_content {A} (x : list A) indices :
  increasing indices -> indices <> [] ->
  Forall (fun n => n < length x) indices ->
  compact x indices = Done (without indices 0 x).
Proof.
  intros Hinc Hne Hall. destruct indices as [|i0 rest]; [congruence|].
  cbn [compact].
  apply Forall_cons in Hall as [Hi Hrest].
  pose proof Hinc as Hinc0.
  apply StronglySorted_inv in Hinc as [Hinc Hlt].
  assert (Hrest' : Forall (fun n => S i0 <= n < length x) rest).
  { apply Forall_forall. intros m Hm.
    pose proof (proj1 (Forall_forall _ _) Hlt m Hm).
    pose proof (proj1 (Forall_forall _ _) Hrest m Hm) as Hr.
    cbv beta in Hr. lia. }
  assert (Hstart : compacted (i0 :: rest) x x i0 (S i0)).
  { split; [reflexivity|]. split; [lia|]. split; [lia|].
    split; [|reflexivity].
    destruct (lookup_lt_is_Some_2 x i0 Hi) as [a Ha].
    rewrite (without_take_S _ _ _ _ Ha), bool_decide_eq_true_2 by left.
    rewrite app_nil_r.
    assert (Hlow : forall (l : list A) pos,
              pos + length l <= i0 -> without (i0 :: rest) pos l = l).
    { induction l as [|b l IH]; intros pos Hp; cbn [without]; [reflexivity|].
      cbn [length] in Hp. rewrite bool_decide_eq_false_2.
      - rewrite IH by lia. reflexivity.
      - intros Hin. apply elem_of_cons in Hin as [-> | Hin]; [lia|].
        pose proof (proj1 (Forall_forall _ _) Hrest' pos Hin) as Hr.
        cbv beta in Hr. lia. }
    symmetry. apply Hlow. rewrite length_take. lia. }
  destruct (compact_loop_content (i0 :: rest) x (length x + length rest)
              rest x i0 (S i0))
    as (x1 & xit1 & i1 & -> & C1 & N1 & Hbelow); try assumption.
  { intros n Hn. rewrite elem_of_cons.
    split; [intros [-> | H]; [lia | exact H] | auto]. }
  { cbn [length]. lia. }
  { lia. }
  cbn [bind fst snd]. unfold compact_tail.
  pose proof C1 as (L1 & X1 & I1 & _).
  destruct (compact_tail_content (i0 :: rest) x (length x1 - i1) i1 x1 xit1)
    as (r & -> & Cr & Sr); [exact C1 | exact Hbelow | lia |].
  cbn [bind]. destruct Cr as (Lr & _ & _ & Tr & _).
  replace (i1 + (length x1 - i1)) with (length x) in Tr by lia.
  rewrite firstn_all in Tr.
  destruct (decide (length (i0 :: rest) <= length (fst r))) as [_|Hn];
    [|exfalso; apply Hn; rewrite Lr; lia].
  f_equal. rewrite <- Tr. f_equal. lia.
Qed.

Lemma gather_content {A} (v : list A) idx : forall acc,
  Forall (fun n => n < length v) idx ->
  exists vars,
    for_each (fun nm vars => let! x := vget v nm in Done (vars ++ [x]))
             idx acc = Done (acc ++ vars) /\
    Forall2 (fun n x => v !! n = Some x) idx vars.
Proof.
  induction idx as [|n idx IH]; intros acc H; cbn [for_each].
  - exists []. rewrite app_nil_r. split; [reflexivity | constructor].
  - apply Forall_cons in H as [Hn H].
    destruct (lookup_lt_is_Some_2 v n Hn) as [a Ha].
    rewrite (vget_lookup _ _ _ Ha). cbn [bind].
    destruct (IH (acc ++ [a]) H) as (vars & -> & Hv).
    exists (a :: vars). rewrite <- app_assoc. split; [reflexivity|].
    constructor; assumption.
Qed.

(** what the Observer is told: the variables removed, with their indices in
    increasing order *)
Definition tells_removed (s s' : t) (issueMod : bool) (indices : list nat)
  : Prop :=
  if has_Observer s && issueMod then
    exists vars sorted,
      modifications s' = C05FunctionModVarsSbst vars sorted :: modifications s /\
      sorted ≡ₚ indices /\ increasing sorted /\
      Forall2 (fun n x => v_x s !! n = Some x) sorted vars
  else modifications s' = modifications s.

(** the variables and their descriptors are those of [s] at the positions
    not in [indices] *)
Definition keeps_the_others (s s' : t) (indices : list nat) : Prop :=
  v_x s' = without indices 0 (v_x s) /\
  v_asset_indices s' = without indices 0 (v_asset_indices s) /\
  v_asset_type s' = without indices 0 (v_asset_type s) /\
  v_cost s' = without indices 0 (v_cost s) /\
  v_disinvestment_cost s' = without indices 0 (v_disinvestment_cost s).

Lemma subset_removal s (indices : list nat) (ordered issueMod : bool) :
  descriptors_match s -> indices <> [] ->
  (if ordered then increasing indices else NoDup indices) ->
  Forall (fun n => n < length (v_x s)) indices ->
  exists s',
    remove_variables_subset indices ordered issueMod s = Done s' /\
    keeps_the_others s s' indices /\
    f_blocks_are_updated s' = false /\
    tells_removed s s' issueMod indices.
Proof.
  intros (D1 & D2 & D3 & D4) Hne Hord Hall.
  unfold remove_variables_subset.
  destruct indices as [|i0 rest] eqn:Ei; [congruence|]. cbn [empty].
  rewrite <- Ei in *.
  set (sorted := if ordered then indices else merge_sort le indices).
  assert (Hperm : sorted ≡ₚ indices).
  { subst sorted. destruct ordered; [reflexivity|].
    apply merge_sort_Permutation. }
  assert (Hinc : increasing sorted).
  { subst sorted. destruct ordered; [exact Hord|].
    apply merge_sort_increasing, Hord. }
  assert (Hall' : Forall (fun n => n < length (v_x s)) sorted)
    by (rewrite Hperm; exact Hall).
  assert (Hne' : sorted <> []).
  { intros E. rewrite E in Hperm. apply Permutation_nil_l in Hperm.
    congruence. }
  assert (Hsame : forall A (x : list A),
            without sorted 0 x = without indices 0 x).
  { intros A x. apply without_same_names. intros n. rewrite Hperm.
    reflexivity. }
  destruct (last sorted) as [back|] eqn:El;
    [|apply last_None in El; congruence].
  assert (Hback : back < length (v_x s)).
  { apply last_Some_elem_of in El.
    pose proof (proj1 (Forall_forall _ _) Hall' back El) as Hb. exact Hb. }
  destruct (decide (length (v_x s) <= back)); [lia|].
  cbn [has_Observer v_asset_indices v_asset_type v_cost v_disinvestment_cost
       v_x set_f_blocks_are_updated].
  assert (Hvars : exists vars,
            (if has_Observer s && issueMod
             then for_each (fun nm vars =>
                              let! v := vget (v_x s) nm in
                              Done (vars ++ [v])) sorted []
             else Done []) = Done vars /\
            (has_Observer s && issueMod = true ->
             Forall2 (fun n x => v_x s !! n = Some x) sorted vars)).
  { destruct (has_Observer s && issueMod).
    - destruct (gather_content (v_x s) sorted [] Hall') as (vars & E & Hv).
      exists vars. split; [exact E | intros _; exact Hv].
    - exists []. split; [reflexivity | discriminate]. }
  destruct Hvars as (vars & -> & Hvars). cbn [bind].
  rewrite !compact_content
    by (try assumption; rewrite ?D1, ?D2, ?D3, ?D4; assumption).
  cbn [bind]. eexists. split; [reflexivity|].
  unfold keeps_the_others, tells_removed, add_Modification.
  cbn [has_Observer set_v_x set_v_asset_indices set_v_asset_type set_v_cost
       set_v_disinvestment_cost set_f_blocks_are_updated].
  rewrite !Hsame.
  destruct (has_Observer s && issueMod) eqn:Eo; cbn.
  - repeat split. exists vars, sorted. auto.
  - repeat split.
Qed.

(** X11: [remove_variables] with a subset that is not empty, whose indices
    are indices of variables and are distinct (and in increasing order when
    the caller says they are).  The call returns; the variables, asset
    indices, asset types, costs and disinvestment costs left are those at
    the positions not named, in their order; the inner Blocks are marked as
    not updated; and the Observer, if it wants to know, is told the
    variables removed with their indices in increasing order. *)
Theorem remove_variables_subset_keeps_the_others s (indices : list nat)
    (ordered issueMod : bool) :
  descriptors_match s -> indices <> [] ->
  (if ordered then increasing indices else NoDup indices) ->
  Forall (fun n => n < length (v_x s)) indices ->
  exists s',
    remove_variables_subset indices ordered issueMod s = Done s' /\
    keeps_the_others s s' indices /\
    f_blocks_are_updated s' = false /\
    tells_removed s s' issueMod indices.
Proof. apply subset_removal. Qed.

(** three assets with their descriptors, watched by an Observer *)
Definition three_assets : t :=
  mk [ColVariable.mk 0 (lit 3); ColVariable.mk 1 (lit 1);
      ColVariable.mk 2 (lit 0)]
     true kOK false true (lit (1 # 1000000)) false false true false PInf
     (lit (1 # 1000000)) [7; 8; 9] [eUnitBlock; eLine; eUnitBlock]
     [zero; zero; zero]
     [lit 10; lit 20; lit 30] [lit 1; lit 2; lit 3] [] []
     [] [] [] (None, eLHS)
     (GlobalPool.mk [] [] [] []) [] true ∅ ∅ 0 [].

Lemma remove_variables_subset_keeps_the_others_witness :
  exists s',
    remove_variables_subset [2; 0] false true three_assets = Done s' /\
    v_x s' = [ColVariable.mk 1 (lit 1)] /\
    v_asset_indices s' = [8] /\ v_cost s' = [lit 20] /\
    modifications s' =
      [C05FunctionModVarsSbst
         [ColVariable.mk 0 (lit 3); ColVariable.mk 2 (lit 0)] [0; 2]].
Proof.
  destruct (remove_variables_subset_keeps_the_others three_assets [2; 0]
              false true) as (s' & E & (K1 & K2 & _ & K4 & _) & _ & _).
  - repeat split.
  - discriminate.
  - apply NoDup_cons. split; [|apply NoDup_singleton].
    intros H. apply list_elem_of_singleton in H. discriminate.
  - repeat constructor.
  - exists s'. split; [exact E|]. rewrite K1, K2, K4.
    repeat split. vm_compute in E. injection E as <-. reflexivity.
Defined.

Lemma without_from {A} first k (x : list A) : forall pos,
  first <= pos ->
  without (seq first k) pos x = drop (first + k - pos) x.
Proof.
  induction x as [|a x IH]; intros pos Hp; cbn [without].
  - rewrite drop_nil. reflexivity.
  - rewrite (IH (S pos)) by lia.
    destruct (decide (pos < first + k)) as [Hlt | Hge].
    + rewrite bool_decide_eq_true_2 by (apply elem_of_seq; lia).
      replace (first + k - pos) with (S (first + k - S pos)) by lia.
      reflexivity.
    + rewrite bool_decide_eq_false_2 by (rewrite elem_of_seq; lia).
      replace (first + k - pos) with 0 by lia.
      replace (first + k - S pos) with 0 by lia. reflexivity.
Qed.

Lemma without_seq {A} first k (x : list A) : forall pos,
  pos <= first ->
  without (seq first k) pos x =
    take (first - pos) x ++ drop (first + k - pos) x.
Proof.
  induction x as [|a x IH]; intros pos Hp.
  - rewrite take_nil, drop_nil. reflexivity.
  - destruct (decide (pos = first)) as [-> | Hne].
    + rewrite without_from by lia. rewrite Nat.sub_diag. reflexivity.
    + cbn [without].
      rewrite bool_decide_eq_false_2 by (rewrite elem_of_seq; lia).
      rewrite (IH (S pos)) by lia.
      replace (first - pos) with (S (first - S pos)) by lia.
      replace (first + k - pos) with (S (first + k - S pos)) by lia.
      reflexivity.
Qed.

(** X12: removing the variables of a range that is not empty through the
    subset of its indices leaves the same variables, asset indices, asset
    types, costs and disinvestment costs as removing the range. *)
Theorem subset_and_range_removal_agree s first second issueMod :
  descriptors_match s ->
  first < second <= length (v_x s) ->
  exists s1 s2,
    remove_variables_range (first, second) issueMod s = Done s1 /\
    remove_variables_subset (seq first (second - first)) true issueMod s =
      Done s2 /\
    v_x s1 = v_x s2 /\
    v_asset_indices s1 = v_asset_indices s2 /\
    v_asset_type s1 = v_asset_type s2 /\
    v_cost s1 = v_cost s2 /\
    v_disinvestment_cost s1 = v_disinvestment_cost s2 /\
    f_blocks_are_updated s1 = false /\ f_blocks_are_updated s2 = false.
Proof.
  intros Hd [Hlt Hle]. pose proof Hd as (D1 & D2 & D3 & D4).
  destruct (subset_removal s (seq first (second - first)) true issueMod Hd)
    as (s2 & E2 & (K1 & K2 & K3 & K4 & K5) & U2 & _).
  { destruct (second - first) eqn:E; [lia | discriminate]. }
  { apply sorted_increasing; [apply NoDup_seq|].
    apply Sorted_StronglySorted; [intros x y z; lia|].
    assert (Hs : forall k f, Sorted le (seq f k)).
    { induction k as [|k IH]; intros f; cbn [seq]; constructor; [apply IH|].
      destruct k; constructor. lia. }
    apply Hs. }
  { apply Forall_forall. intros n Hn. apply elem_of_seq in Hn. lia. }
  rewrite without_seq in K1 by lia. rewrite without_seq in K2 by lia.
  rewrite without_seq in K3 by lia. rewrite without_seq in K4 by lia.
  rewrite without_seq in K5 by lia.
  rewrite !Nat.sub_0_r in K1, K2, K3, K4, K5.
  replace (first + (second - first)) with second in K1, K2, K3, K4, K5 by lia.
  unfold remove_variables_range. cbn [fst snd].
  rewrite Nat.min_l by lia.
  destruct (decide (second <= first)); [lia|].
  cbn [v_x v_asset_indices v_asset_type v_cost v_disinvestment_cost
       set_f_blocks_are_updated].
  destruct (decide (first = 0 /\ second = length (v_x s))) as [[-> ->]|Hn].
  - eexists; exists s2. split; [reflexivity|]. split; [exact E2|].
    rewrite K1, K2, K3, K4, K5, !take_0.
    rewrite !drop_ge by lia. unfold add_Modification.
    destruct (_ && _); cbn; repeat split; assumption.
  - assert (Hv : forall A (v : list A),
              second <= length v ->
              verase_range v first second =
                Done (take first v ++ drop second v)).
    { intros A v Hlen. apply verase_range_Done; lia. }
    rewrite !Hv by lia. cbn [bind]. eexists; exists s2. split; [reflexivity|].
    split; [exact E2|].
    rewrite K1, K2, K3, K4, K5. unfold add_Modification.
    destruct (_ && _); cbn; repeat split; assumption.
Qed.

Lemma subset_and_range_removal_agree_witness :
  exists s1 s2,
    remove_variables_range (1, 3) true three_assets = Done s1 /\
    remove_variables_subset [1; 2] true true three_assets = Done s2 /\
    v_x s1 = v_x s2 /\ v_cost s1 = v_cost s2.
Proof.
  destruct (subset_and_range_removal_agree three_assets 1 3 true)
    as (s1 & s2 & E1 & E2 & Hx & _ & _ & Hc & _).
  - repeat split.
  - cbn. lia.
  - exists s1, s2. auto.
Defined.

End SubsetFacts.

(** ** The investment function: the size of the pool and the State *)

Module FunctionStateFacts.
Import InvestmentFunction FunctionState.
Import PoolFacts PoolMaintenanceFacts.

(** X13: [set_par( intGPMaxSz , value )] throws for a negative value.
    Otherwise [get_int_par( intGPMaxSz )] returns the value afterwards and a
    name holds a linearization exactly when it is below the value and held
    one before.  A function with an Observer whose pool shrinks sends one
    Modification that linearizations were removed; the list of names in it
    is empty, because it is computed from the size after the resize. *)
Theorem set_par_intGPMaxSz_resizes value s :
  ((value < 0)%Z -> set_par_intGPMaxSz value s = MustBeNonNegative) /\
  ((0 <= value)%Z ->
   exists s',
     set_par_intGPMaxSz value s = ParSet s' /\
     get_int_par_intGPMaxSz s' = value /\
     (forall name,
        GlobalPool.is_linearization_there (global_pool s') name =
          (name <? Z.to_nat value) &&
          GlobalPool.is_linearization_there (global_pool s) name) /\
     modifications s' =
       if has_Observer s &&
          bool_decide (value < get_int_par_intGPMaxSz s)%Z
       then GlobalPoolRemoved [] :: modifications s
       else modifications s).
Proof.
  unfold set_par_intGPMaxSz, get_int_par_intGPMaxSz. split; intros Hv.
  - destruct (decide (value < 0)%Z); [reflexivity | lia].
  - destruct (decide (value < 0)%Z); [lia|].
    cbn [has_Observer global_pool set_global_pool modifications].
    assert (Hsize : GlobalPool.size
                      (GlobalPool.resize (Z.to_nat value) (global_pool s)) =
                    Z.to_nat value).
    { unfold GlobalPool.size. cbn. apply length_resize. }
    assert (Hb : bool_decide (Z.to_nat value < GlobalPool.size (global_pool s)) =
                 bool_decide
                   (value < Z.of_nat (GlobalPool.size (global_pool s)))%Z)
      by (apply bool_decide_ext; lia).
    rewrite <- Hb.
    destruct (has_Observer s && bool_decide _); eexists;
      (split; [reflexivity|]);
      cbn [global_pool set_global_pool set_modifications modifications];
      rewrite Hsize;
      (split; [lia|]);
      (split; [intros name; apply there_resize|]);
      rewrite ?Nat.sub_diag; reflexivity.
Qed.

(** a function with an Observer and the three names of [two_diagonals] *)
Definition watched : t :=
  set_global_pool (PoolTheorems.two_diagonals (lit 3) (lit 5)) SubsetFacts.three_assets.

Lemma set_par_intGPMaxSz_resizes_witness :
  set_par_intGPMaxSz (-1) watched = MustBeNonNegative /\
  exists s',
    set_par_intGPMaxSz 1 watched = ParSet s' /\
    get_int_par_intGPMaxSz s' = 1%Z /\
    GlobalPool.is_linearization_there (global_pool s') 0 = true /\
    GlobalPool.is_linearization_there (global_pool s') 1 = false /\
    modifications s' = [GlobalPoolRemoved []].
Proof.
  destruct (set_par_intGPMaxSz_resizes (-1) watched) as [Hneg _].
  destruct (set_par_intGPMaxSz_resizes 1 watched) as [_ Hpos].
  split; [apply Hneg; lia|].
  destruct Hpos as (s' & E & Hg & Ht & Hm); [lia|].
  exists s'. rewrite !Ht, Hm. repeat split; assumption.
Defined.

Lemma added_names p name :
  name ∈ List.filter (GlobalPool.is_linearization_there p)
                     (seq 0 (GlobalPool.size p)) <->
  GlobalPool.is_linearization_there p name = true.
Proof.
  rewrite list_elem_of_In, filter_In, <- list_elem_of_In, elem_of_seq.
  split; [tauto|]. intros H. split; [|exact H].
  apply there_lt in H. lia.
Qed.

(** X14: saving and restoring the State.  [get_State] returns a copy of the
    pool.  [put_State] of it into a function whose pool is not larger makes
    the pool of that function equal to the pool saved; an Observer is told
    that all linearizations were removed if the pool held one before, and
    then the names that hold a linearization now, if there is one.
    [put_State] by copy into a function whose pool is larger is undefined
    behaviour. *)
Theorem put_State_of_get_State s f :
  well_sized (global_pool s) -> well_sized (global_pool f) ->
  let added := List.filter (GlobalPool.is_linearization_there (global_pool s))
                           (seq 0 (GlobalPool.size (global_pool s))) in
  get_State s = Done (global_pool s) /\
  (forall name, name ∈ added <->
                GlobalPool.is_linearization_there (global_pool s) name = true) /\
  (GlobalPool.size (global_pool f) <= GlobalPool.size (global_pool s) ->
   exists f',
     put_State (global_pool s) f = Done f' /\
     global_pool f' = global_pool s /\
     modifications f' =
       (if has_Observer f
        then (if empty added then [] else [GlobalPoolAdded added]) ++
             (if PoolMaintenance.empty (global_pool f) then []
              else [GlobalPoolRemoved []])
        else []) ++ modifications f) /\
  (GlobalPool.size (global_pool s) < GlobalPool.size (global_pool f) ->
   put_State (global_pool s) f = Undefined).
Proof.
  intros Hs Hf added. split; [|split; [|split]].
  - unfold get_State.
    apply (clone_cases (GlobalPool.mk [] [] [] []) (global_pool s));
      [split; reflexivity | exact Hs | cbn; lia].
  - intros name. apply added_names.
  - intros Hsz. unfold put_State.
    rewrite (proj1 (clone_cases _ _ Hf Hs) Hsz). cbn [bind].
    eexists. split; [reflexivity|]. unfold tell_State. subst added.
    cbn [has_Observer set_global_pool global_pool modifications].
    destruct (has_Observer f); cbn [negb]; [|split; reflexivity].
    destruct (PoolMaintenance.empty (global_pool f)); cbn [negb];
      cbn [has_Observer set_global_pool set_modifications global_pool
           modifications];
      destruct (empty (List.filter _ _)); cbn; split; reflexivity.
  - intros Hsz. unfold put_State.
    rewrite (proj2 (clone_cases _ _ Hf Hs) Hsz). reflexivity.
Qed.

Lemma put_State_of_get_State_witness :
  get_State watched = Done (PoolTheorems.two_diagonals (lit 3) (lit 5)) /\
  (exists f',
     put_State (PoolTheorems.two_diagonals (lit 3) (lit 5)) SubsetFacts.three_assets =
       Done f' /\
     global_pool f' = PoolTheorems.two_diagonals (lit 3) (lit 5) /\
     modifications f' = [GlobalPoolAdded [0; 1]]) /\
  put_State (global_pool SubsetFacts.three_assets) watched = Undefined.
Proof.
  assert (Hw : well_sized (global_pool watched)) by (split; reflexivity).
  assert (Ht : well_sized (global_pool SubsetFacts.three_assets))
    by (split; reflexivity).
  destruct (put_State_of_get_State watched SubsetFacts.three_assets Hw Ht)
    as (Hg & _ & Hp & _).
  destruct (put_State_of_get_State SubsetFacts.three_assets watched Ht Hw)
    as (_ & _ & _ & Hu).
  split; [exact Hg|]. split.
  - destruct Hp as (f' & E & Hpool & Hm); [cbn; lia|].
    exists f'. split; [exact E|]. split; [exact Hpool|]. exact Hm.
  - apply Hu. cbn. lia.
Defined.

End FunctionStateFacts.

(** ** The investment function: reading the pool through the function *)

Module PoolReadFacts.
Import InvestmentFunction CutFacts.
Import PoolFacts PoolMaintenanceFacts.

Lemma read_loop_undefined {A} (v : list A) : forall n k g0,
  0 < n -> length v < k + n ->
  for_each (fun i g => let! a := vget v i in Done (g ++ [a])) (seq k n) g0 =
    Undefined.
Proof.
  induction n as [|n IH]; intros k g0 Hn Hlen; [lia|].
  cbn [seq for_each]. unfold vget at 1.
  destruct (v !! k) as [a|] eqn:E; [|reflexivity]. cbn [bind].
  apply IH.
  - assert (k < length v) by (apply lookup_lt_is_Some; eauto). lia.
  - lia.
Qed.

(** the read of the coefficients of a name of the pool, case by case *)
Lemma pool_coefficients_cases s first second name :
  let last := Nat.min second (length (v_x s)) in
  let read := get_linearization_coefficients s (first, second) (Some name) in
  (last <= first -> read = Done []) /\
  (first < last ->
   forall row,
     GlobalPool.linearization_coefficients (global_pool s) !! name = Some row ->
     (last <= length row -> read = Done (take (last - first) (drop first row))) /\
     (length row < last -> read = Undefined)) /\
  (first < last ->
   GlobalPool.linearization_coefficients (global_pool s) !! name = None ->
   read = Undefined).
Proof.
  cbn zeta. unfold get_linearization_coefficients. cbn [fst snd].
  split; [|split].
  - intros H. destruct (decide _); [reflexivity | lia].
  - intros H row Hrow. destruct (decide _); [lia|].
    unfold GlobalPool.get_linearization_coefficients. cbn [fst snd].
    rewrite (vget_lookup _ _ _ Hrow). cbn [bind]. split; intros Hl.
    + rewrite (read_loop (fun a : dbl => a)) by lia.
      rewrite map_id. reflexivity.
    + apply read_loop_undefined; lia.
  - intros H Hrow. destruct (decide _); [lia|].
    unfold GlobalPool.get_linearization_coefficients, vget. cbn [fst snd].
    rewrite Hrow. reflexivity.
Qed.

(** X15: reading the coefficients of a name of the pool over a range.  The
    end of the range is first cut down to the number of variables; a range
    that is then empty yields nothing, whatever the name.  Otherwise the
    coefficients at the positions of the range are returned when the name is
    in the pool and holds that many coefficients, and in every other case,
    a name outside the pool or a name whose linearization was deleted among
    them, a vector is read out of range: undefined behaviour, no
    exception. *)
Theorem pool_coefficients_read s first second name :
  let last := Nat.min second (length (v_x s)) in
  let read := get_linearization_coefficients s (first, second) (Some name) in
  (last <= first -> read = Done []) /\
  (first < last ->
   forall row,
     GlobalPool.linearization_coefficients (global_pool s) !! name = Some row ->
     (last <= length row -> read = Done (take (last - first) (drop first row))) /\
     (length row < last -> read = Undefined)) /\
  (first < last ->
   GlobalPool.linearization_coefficients (global_pool s) !! name = None ->
   read = Undefined).
Proof. apply pool_coefficients_cases. Qed.

Lemma pool_coefficients_read_witness :
  let s := FunctionStateFacts.watched in
  get_linearization_coefficients s (1, 2) (Some 0) = Done [lit 0] /\
  get_linearization_coefficients s (1, 9) (Some 0) = Undefined /\
  get_linearization_coefficients s (0, 2) (Some 2) = Undefined /\
  get_linearization_coefficients s (0, 2) (Some 7) = Undefined /\
  get_linearization_coefficients s (2, 1) (Some 7) = Done [].
Proof.
  cbn zeta.
  destruct (pool_coefficients_read FunctionStateFacts.watched 1 2 0)
    as (_ & H1 & _).
  destruct (pool_coefficients_read FunctionStateFacts.watched 1 9 0)
    as (_ & H0 & _).
  destruct (pool_coefficients_read FunctionStateFacts.watched 0 2 2)
    as (_ & H2 & _).
  destruct (pool_coefficients_read FunctionStateFacts.watched 0 2 7)
    as (_ & _ & H3).
  destruct (pool_coefficients_read FunctionStateFacts.watched 2 1 7)
    as (H4 & _).
  split; [|split; [|split; [|split]]].
  - refine (proj1 (H1 _ [lit 1; lit 0] eq_refl) _); vm_compute; lia.
  - refine (proj2 (H0 _ [lit 1; lit 0] eq_refl) _); vm_compute; lia.
  - refine (proj2 (H2 _ [] eq_refl) _); vm_compute; lia.
  - apply H3; [vm_compute; lia | reflexivity].
  - apply H4. vm_compute. lia.
Defined.

Lemma diagonal_read s :
  f_diagonal_linearization_required s = true ->
  length (v_linearization s) = length (v_x s) ->
  get_linearization_coefficients s (0, length (v_x s)) None =
    Done (v_linearization s).
Proof.
  intros Hreq Hlen. unfold get_linearization_coefficients. cbn [fst snd].
  rewrite Nat.min_id, Hreq.
  destruct (decide (length (v_x s) <= 0)) as [Hz|Hz].
  - destruct (v_linearization s); [reflexivity | cbn in Hlen; lia].
  - rewrite (read_loop (fun a : dbl => a)) by lia.
    rewrite map_id, drop_0, Nat.sub_0_r, <- Hlen, firstn_all. reflexivity.
Qed.

Lemma vertical_read s i side row :
  f_diagonal_linearization_required s = false ->
  f_violated_constraint s = (Some i, side) ->
  v_A s !! i = Some row -> length row = length (v_x s) ->
  get_linearization_coefficients s (0, length (v_x s)) None =
    Done (map (dmul (sign_of side)) row).
Proof.
  intros Hreq Hv Hrow Hlen. unfold get_linearization_coefficients.
  cbn [fst snd]. rewrite Nat.min_id, Hreq.
  destruct (decide (length (v_x s) <= 0)) as [Hz|Hz].
  - destruct row; [reflexivity | cbn in Hlen; lia].
  - rewrite Hv. cbn [fst snd]. rewrite (vget_lookup _ _ _ Hrow). cbn [bind].
    rewrite Nat.sub_0_r, read_loop by lia.
    rewrite drop_0, <- Hlen, firstn_all. reflexivity.
Qed.



(** the linearization that [has_linearization] has just offered: its
    coefficients and the vector [v_linearization] agree *)
Lemma offered_linearization diagonal s s1 :
  has_linearization diagonal s = Done (true, s1) ->
  length (v_linearization s) = length (v_x s) ->
  columns_match s ->
  get_linearization_coefficients s1 (0, length (v_x s)) None =
    Done (v_linearization s1) /\
  length (v_linearization s1) = length (v_x s) /\
  f_diagonal_linearization_required s1 = diagonal /\
  v_x s1 = v_x s /\ global_pool s1 = global_pool s /\
  AAccMlt s1 = AAccMlt s /\ has_Observer s1 = has_Observer s /\
  modifications s1 = modifications s.
Proof.
  intros H Hlen Hcol. destruct diagonal.
  - cbn in H. injection H as _ <-.
    split; [apply (diagonal_read (set_f_diagonal_linearization_required true s));
            [reflexivity | exact Hlen]|].
    repeat split. exact Hlen.
  - unfold has_linearization in H.
    cbn [f_violated_constraint set_f_diagonal_linearization_required
         v_A v_x v_linearization] in H.
    destruct (f_violated_constraint s) as [[i|] side] eqn:Hv;
      cbn [fst snd] in H; [|discriminate].
    destruct (v_A s !! i) as [row|] eqn:Hrow.
    2:{ unfold vget in H. rewrite Hrow in H. discriminate. }
    assert (Hr : length row = length (v_x s))
      by apply (proj1 (Forall_lookup _ _) Hcol i row Hrow).
    pose proof (has_linearization_vertical s i side row Hv Hrow Hr Hlen) as E.
    unfold has_linearization in E.
    cbn [f_violated_constraint set_f_diagonal_linearization_required
         v_A v_x v_linearization] in E.
    rewrite Hv in E. cbn [fst snd] in E. rewrite E in H.
    injection H as <-.
    split.
    + match goal with
      | |- get_linearization_coefficients ?s1 _ _ = _ =>
          apply (vertical_read s1 i side row)
      end; try reflexivity; assumption.
    + cbn. rewrite length_map. repeat split. exact Hr.
Qed.

(** X16: storing the linearization just offered and reading it back.  After
    [has_linearization] has answered true, [store_linearization] under a
    name of the pool returns, and the coefficients and the constant read
    under that name are those read of the linearization itself; the name
    holds a vertical linearization exactly when a vertical one was asked
    for and the constant is not NaN; the Observer, if it wants to know, is
    told the name. *)
Theorem store_linearization_read_back s diagonal s1 name issueMod c :
  has_linearization diagonal s = Done (true, s1) ->
  length (v_linearization s) = length (v_x s) ->
  columns_match s ->
  get_linearization_constant s1 None = Done c ->
  well_sized (global_pool s) ->
  name < GlobalPool.size (global_pool s) ->
  exists s2 g,
    store_linearization name issueMod s1 = Done s2 /\
    get_linearization_coefficients s1 (0, length (v_x s)) None = Done g /\
    get_linearization_coefficients s2 (0, length (v_x s)) (Some name) =
      Done g /\
    get_linearization_constant s2 (Some name) = Done c /\
    GlobalPool.is_linearization_vertical (global_pool s2) name =
      Done (negb (isnan c) && negb diagonal) /\
    modifications s2 =
      if has_Observer s && issueMod
      then GlobalPoolAdded [name] :: modifications s
      else modifications s.
Proof.
  intros H Hlen Hcol Hc Hw Hn.
  destruct (offered_linearization diagonal s s1 H Hlen Hcol)
    as (Hg & Hl1 & Hreq & Hx & Hp & _ & Ho & Hm).
  unfold store_linearization. rewrite Hp.
  destruct (decide (GlobalPool.size (global_pool s) <= name)); [lia|].
  rewrite Hc. cbn [bind]. rewrite (store_Done _ _ _ _ _ Hw Hn). cbn [bind].
  eexists. exists (v_linearization s1). split; [reflexivity|].
  split; [exact Hg|].
  destruct Hw as [Hcf Hdg]. unfold GlobalPool.size in *.
  assert (Hx2 : forall m,
            v_x (add_Modification issueMod m
                   (set_global_pool
                      {| GlobalPool.linearization_constants :=
                           <[name := c]>
                             (GlobalPool.linearization_constants (global_pool s));
                         GlobalPool.linearization_coefficients :=
                           <[name := v_linearization s1]>
                             (GlobalPool.linearization_coefficients (global_pool s));
                         GlobalPool.important_linearization_lin_comb :=
                           GlobalPool.important_linearization_lin_comb
                             (global_pool s);
                         GlobalPool.is_diagonal :=
                           <[name := f_diagonal_linearization_required s1]>
                             (GlobalPool.is_diagonal (global_pool s)) |} s1)) =
            v_x s).
  { intros m. unfold add_Modification. destruct (_ && _); cbn; exact Hx. }
  split; [|split; [|split]].
  - match goal with
    | |- get_linearization_coefficients ?s2 _ _ = _ =>
        destruct (pool_coefficients_cases s2 0 (length (v_x s)) name)
          as (Hempty & Hrow & _)
    end.
    rewrite Hx2, Nat.min_id in Hempty, Hrow.
    destruct (decide (length (v_x s) <= 0)) as [Hz|Hz].
    + rewrite (Hempty Hz).
      destruct (v_linearization s1); [reflexivity | cbn in Hl1; lia].
    + destruct (Hrow ltac:(lia) (v_linearization s1)) as [Hread _].
      { unfold add_Modification. destruct (_ && _); cbn;
          apply list_lookup_insert_eq; lia. }
      rewrite Hread by lia.
      rewrite drop_0, Nat.sub_0_r, <- Hl1, firstn_all. reflexivity.
  - unfold get_linearization_constant, GlobalPool.get_linearization_constant,
      add_Modification, GlobalPool.size.
    destruct (_ && _); cbn; rewrite length_insert;
      (destruct (decide (name < _)); [|lia]);
      apply vget_lookup, list_lookup_insert_eq; lia.
  - unfold GlobalPool.is_linearization_vertical, add_Modification.
    destruct (_ && _); cbn;
      rewrite list_lookup_insert_eq by lia;
      (destruct (isnan c); [reflexivity|]);
      unfold vget; rewrite list_lookup_insert_eq by lia;
      cbn; rewrite Hreq; reflexivity.
  - unfold add_Modification. cbn [has_Observer set_global_pool].
    rewrite Ho. destruct (_ && _); cbn; rewrite Hm; reflexivity.
Qed.

Lemma store_linearization_read_back_witness :
  exists s1 s2,
    has_linearization false
      (set_global_pool (PoolTheorems.two_diagonals (lit 3) (lit 5)) over_the_limit) =
      Done (true, s1) /\
    store_linearization 2 false s1 = Done s2 /\
    get_linearization_coefficients s2 (0, 2) (Some 2) =
      Done [dmul (lit 1) (lit 1); dmul (lit 1) (lit 1)] /\
    get_linearization_constant s2 (Some 2) = Done (lit (-2)) /\
    GlobalPool.is_linearization_vertical (global_pool s2) 2 = Done true.
Proof.
  set (s := set_global_pool (PoolTheorems.two_diagonals (lit 3) (lit 5)) over_the_limit).
  assert (H : exists s1, has_linearization false s = Done (true, s1) /\
                         get_linearization_constant s1 None = Done (lit (-2)))
    by (eexists; split; vm_compute; reflexivity).
  destruct H as (s1 & H & Hc).
  destruct (store_linearization_read_back s false s1 2 false (lit (-2)) H)
    as (s2 & g & E & Hg & Hread & Hconst & Hvert & _).
  - reflexivity.
  - repeat constructor.
  - exact Hc.
  - split; reflexivity.
  - vm_compute. lia.
  - exists s1, s2. split; [exact H|]. split; [exact E|].
    split; [|split; assumption].
    change (length (v_x s)) with 2 in Hread, Hg.
    rewrite Hread. rewrite <- Hg.
    vm_compute in H. injection H as <-. vm_compute. reflexivity.
Defined.

End PoolReadFacts.

(** ** The transfer of state: every unit, once *)

Module TransferFacts.
Import StateBridge BridgeFacts.

(** the values at the last time of the stage, one per row *)
Definition last_values (time_horizon : nat) (rows : list (list dbl))
  : list dbl :=
  omap (fun row => row !! (time_horizon - 1)) rows.

(** the calls made for two Blocks at the same place of the two trees *)
Definition expected (d : Driver) (stage : nat) (p c : Block) : list call :=
  match class_of p, class_of c with
  | HydroUnitBlock n T flow_rate, HydroUnitBlock _ _ _ =>
      [set_initial_flow_rate (id_of c) (last_values T (take n flow_rate))]
  | ThermalUnitBlock T active_power commitment shut_down,
    ThermalUnitBlock _ _ _ _ =>
      (if simulate_investment d && single_scenario d then
         match UpDownTime.compute_init_up_down_time
                 (earlier_units d c) (UpDownTime.mkThermalUnit T commitment)
                 shut_down stage with
         | Done time => [set_init_updown_time (id_of c) time]
         | _ => []
         end
       else []) ++
      match active_power !! (T - 1) with
      | Some power => [set_initial_power (id_of c) power]
      | None => []
      end
  | BatteryUnitBlock T active_power storage_level, BatteryUnitBlock _ _ _ =>
      match active_power !! (T - 1), storage_level !! (T - 1) with
      | Some power, Some storage =>
          [set_initial_power (id_of c) power;
           set_initial_storage (id_of c) storage]
      | _, _ => []
      end
  | _, _ => []
  end.

Lemma last_values_loop (fr : list (list dbl)) T :
  0 < T -> forallb (fun row => T <=? length row) fr = true ->
  forall m k acc, k + m <= length fr ->
    for_each (fun g flow_rate =>
                let! row := vget fr g in
                let! v := last_time row T in
                Done (flow_rate ++ [v])) (seq k m) acc =
      Done (acc ++ last_values T (take m (drop k fr))).
Proof.
  intros HT Hrows. induction m as [|m IH]; intros k acc Hk.
  - rewrite take_0. cbn. rewrite app_nil_r. reflexivity.
  - destruct (lookup_lt_is_Some_2 fr k) as [row Hrow]; [lia|].
    assert (Hlen : T <= length row).
    { rewrite forallb_forall in Hrows. apply Nat.leb_le, Hrows.
      apply list_elem_of_In, (list_elem_of_lookup_2 _ _ _ Hrow). }
    destruct T as [|t]; [lia|].
    destruct (lookup_lt_is_Some_2 row t) as [v Hv]; [lia|].
    cbn [seq for_each].
    rewrite (vget_lookup _ _ _ Hrow). cbn [bind].
    change (last_time row (S t)) with (vget row t).
    rewrite (vget_lookup _ _ _ Hv). cbn [bind].
    rewrite IH by lia. rewrite (drop_S _ _ _ Hrow). cbn [take].
    unfold last_values. replace (S t - 1) with t by lia.
    cbn [omap list_omap]. rewrite Hv.
    rewrite <- app_assoc. reflexivity.
Qed.

Section Calls.

Variable d : Driver.
Variable stage : nat.

Lemma update_unit_expected p c :
  classes_agree (class_of p) (class_of c) = true ->
  data_readable (class_of p) = true ->
  init_time_returns d stage p c ->
  update_unit d p c stage = Done (expected d stage p c).
Proof.
  destruct p as [i kp np], c as [j kc nc]. cbn [class_of].
  intros Ha Hr init_time. apply classes_agree_cases in Ha.
  unfold expected. cbn [class_of id_of].
  destruct kp, kc; try contradiction; try reflexivity.
  - (* two hydro units *)
    subst number_generators0. cbn [data_readable] in Hr.
    apply andb_true_iff in Hr as [Hr Hrows].
    apply andb_true_iff in Hr as [HT Hn].
    apply Nat.ltb_lt in HT. apply Nat.leb_le in Hn.
    unfold update_unit, update_hydro_unit. cbn [class_of id_of].
    destruct (decide (number_generators <> number_generators)) as [N|_];
      [contradiction|].
    rewrite (last_values_loop flow_rate time_horizon HT Hrows) by lia.
    rewrite drop_0. reflexivity.
  - (* two thermal units *)
    cbn [data_readable] in Hr. apply andb_true_iff in Hr as [HT Hp].
    apply Nat.ltb_lt in HT. apply Nat.leb_le in Hp.
    destruct time_horizon as [|t]; [lia|].
    destruct (lookup_lt_is_Some_2 active_power t) as [v Hv]; [lia|].
    unfold update_unit, update_hydro_unit, update_thermal_unit.
    cbn [class_of id_of bind fst snd last_time].
    replace (S t - 1) with t by lia.
    rewrite Hv, (vget_lookup _ _ _ Hv).
    destruct (simulate_investment d && single_scenario d) eqn:Ef.
    + destruct (init_time Ef (S t) active_power commitment shut_down eq_refl)
        as [z Ez].
      unfold earlier_units in Ez |- *. cbn [id_of] in Ez |- *.
      rewrite Ez. reflexivity.
    + reflexivity.
  - (* two batteries *)
    cbn [data_readable] in Hr. apply andb_true_iff in Hr as [Hr Hs].
    apply andb_true_iff in Hr as [HT Hp].
    apply Nat.ltb_lt in HT. apply Nat.leb_le in Hp. apply Nat.leb_le in Hs.
    destruct time_horizon as [|t]; [lia|].
    destruct (lookup_lt_is_Some_2 active_power t) as [v Hv]; [lia|].
    destruct (lookup_lt_is_Some_2 storage_level t) as [l Hl]; [lia|].
    unfold update_unit, update_hydro_unit, update_thermal_unit,
      update_battery_unit.
    cbn [class_of id_of bind fst snd last_time].
    replace (S t - 1) with t by lia.
    rewrite Hv, Hl, (vget_lookup _ _ _ Hv), (vget_lookup _ _ _ Hl).
    reflexivity.
Qed.

(** the calls for the pairs of a list, pair after pair *)
Definition expected_all (pairs : list (Block * Block)) : list call :=
  flat_map (fun pc => expected d stage (fst pc) (snd pc)) pairs.

Lemma callback_loop_expected : forall fuel blocks previous_blocks calls,
  blocks_in blocks <= fuel ->
  readable_all previous_blocks = true ->
  agree_all previous_blocks blocks = true ->
  (forall p c, (p, c) ∈ matched_all previous_blocks blocks ->
               init_time_returns d stage p c) ->
  exists more,
    callback_loop d fuel stage blocks previous_blocks calls =
      Done (calls ++ more) /\
    more ≡ₚ expected_all (matched_all previous_blocks blocks).
Proof.
  induction fuel as [|fuel IH];
    intros blocks previous_blocks calls Hf Hr Ha Hinit.
  - destruct previous_blocks as [|p ps], blocks as [|c cs];
      try discriminate.
    + exists []. rewrite app_nil_r. split; reflexivity.
    + rewrite blocks_in_cons in Hf. destruct c.
      rewrite number_of_blocks_Node in Hf. lia.
  - destruct previous_blocks as [|[i kp np] ps], blocks as [|[j kc nc] cs];
      try discriminate.
    + exists []. rewrite app_nil_r. split; reflexivity.
    + cbn [agree_all] in Ha. rewrite agree_Node in Ha.
      apply andb_true_iff in Ha as [Ha Hrest].
      apply andb_true_iff in Ha as [Hk Hn].
      cbn [readable_all forallb] in Hr. rewrite readable_Node in Hr.
      apply andb_true_iff in Hr as [Hr Hrrest].
      apply andb_true_iff in Hr as [Hd Hrn].
      change (readable_all ps = true) in Hrrest.
      pose proof (agree_all_length _ _ Hn) as Hln.
      pose proof (agree_all_length _ _ Hrest) as Hlr.
      rewrite blocks_in_cons, number_of_blocks_Node in Hf.
      pose proof (matched_queue i kp np ps j kc nc cs Hlr) as Hsplit.
      assert (Eu : update_unit d (Node i kp np) (Node j kc nc) stage =
                   Done (expected d stage (Node i kp np) (Node j kc nc))).
      { apply (update_unit_expected (Node i kp np) (Node j kc nc) Hk Hd).
        apply Hinit, Hsplit. left. reflexivity. }
      destruct (IH (cs ++ nc) (ps ++ np)
                  (calls ++ expected d stage (Node i kp np) (Node j kc nc)))
        as (more & E & Hm).
      * rewrite blocks_in_app. lia.
      * rewrite readable_all_app, Hrrest, Hrn. reflexivity.
      * rewrite agree_all_app by exact Hlr. rewrite Hrest, Hn. reflexivity.
      * intros p c Hin. apply Hinit, Hsplit. right. exact Hin.
      * exists (expected d stage (Node i kp np) (Node j kc nc) ++ more).
        cbn [callback_loop].
        unfold get_number_nested_Blocks. cbn [get_nested_Blocks].
        destruct (decide (length nc <> length np)) as [N|_]; [lia|].
        rewrite Eu. cbn [bind]. rewrite E, <- app_assoc.
        split; [reflexivity|].
        rewrite Hm. cbn [matched_all]. rewrite matched_Node.
        rewrite matched_all_app by exact Hlr.
        unfold expected_all. cbn [flat_map fst snd app].
        rewrite !flat_map_app.
        apply Permutation_app_head, Permutation_app_comm.
Qed.

End Calls.

(** X17: the transfer between two trees that agree, when the values read
    of the earlier stage exist and the data of the initial up and down
    times are there.
    The calls made are, up to their order, the ones of each pair of Blocks
    at the same place, once: for two hydro units the flow rates of the
    generators at the last time, for two thermal units the up and down
    time (when one scenario is simulated) and the active power at the last
    time, for two batteries the active power and the storage level at the
    last time, and none for any other Block. *)
Theorem callback_sets_every_unit_once d stage previous_uc_block uc_block :
  stage <> 0 ->
  readable previous_uc_block = true ->
  (forall p c, (p, c) ∈ matched previous_uc_block uc_block ->
               init_time_data d stage p c) ->
  ~ mismatch previous_uc_block uc_block ->
  exists calls,
    callback d stage previous_uc_block uc_block = Done calls /\
    calls ≡ₚ flat_map (fun pc => expected d stage (fst pc) (snd pc))
                      (matched previous_uc_block uc_block).
Proof.
  intros Hs Hr Hi Hm. unfold callback.
  destruct (decide (stage = 0)) as [E|_]; [contradiction|].
  apply agree_iff in Hm.
  destruct (callback_loop_expected d stage (number_of_blocks uc_block)
              [uc_block] [previous_uc_block] [])
    as (more & E & Hp).
  - rewrite blocks_in_cons. cbn. lia.
  - cbn [readable_all forallb]. rewrite Hr. reflexivity.
  - cbn [agree_all]. rewrite Hm. reflexivity.
  - intros p c Hin. cbn [matched_all] in Hin. rewrite app_nil_r in Hin.
    apply (init_time_data_returns d stage p c Hs).
    + apply (readable_matched previous_uc_block uc_block p c Hin Hr).
    + apply Hi. exact Hin.
  - exists more. split; [exact E|]. rewrite Hp.
    unfold expected_all. cbn [matched_all]. rewrite app_nil_r. reflexivity.
Qed.

(** a battery below the earlier stage and below the later one *)
Definition earlier_with_battery : Block :=
  Node 0 UCBlock
    [Node 1 (ThermalUnitBlock 2 [lit 7; lit 8] [one; one] None) [];
     Node 2 (BatteryUnitBlock 2 [lit 1; lit 2] [lit 3; lit 4]) []].

Definition later_with_battery : Block :=
  Node 10 UCBlock
    [Node 11 (ThermalUnitBlock 2 [] [] None) [];
     Node 12 (BatteryUnitBlock 2 [] []) []].

Lemma callback_sets_every_unit_once_witness :
  exists calls,
    callback single_run 1 earlier_with_battery later_with_battery =
      Done calls /\
    calls ≡ₚ [set_init_updown_time 11 2; set_initial_power 11 (lit 8);
              set_initial_power 12 (lit 2); set_initial_storage 12 (lit 4)].
Proof.
  destruct (callback_sets_every_unit_once single_run 1 earlier_with_battery
              later_with_battery) as (calls & E & Hp).
  - lia.
  - vm_compute. reflexivity.
  - intros p c Hin _ T ap cm sd Ep.
    unfold earlier_with_battery, later_with_battery in Hin.
    rewrite !matched_Node in Hin. cbn [matched_all app] in Hin.
    rewrite !matched_Node in Hin. cbn [matched_all app] in Hin.
    apply elem_of_cons in Hin as [Hin | Hin].
    { inversion Hin; subst; cbn [class_of] in Ep. discriminate. }
    apply elem_of_cons in Hin as [Hin | Hin].
    { inversion Hin; subst; cbn [class_of] in Ep. inversion Ep; subst.
      split; [cbn; lia|]. split; [intros k Hk; lia|].
      vm_compute. discriminate. }
    apply elem_of_cons in Hin as [Hin | Hin].
    { inversion Hin; subst; cbn [class_of] in Ep. discriminate. }
    apply elem_of_nil in Hin. contradiction.
  - apply agree_iff. vm_compute. reflexivity.
  - exists calls. split; [exact E|]. rewrite Hp. vm_compute. reflexivity.
Defined.

End TransferFacts.

(** ** The initial up and down time *)

Module UpDownTimeFacts.
Import UpDownTime.

(** a commitment that is 0 or 1 *)
Definition binary (v : dbl) : Prop := v = zero \/ v = one.

(** the unit is on *)
Definition is_on (v : dbl) : bool := dgeb v half.

(** the unit has a time horizon of at least one time, and a commitment of
    0 or 1 at each of its times *)
Definition well_formed (u : ThermalUnit) : Prop :=
  0 < get_time_horizon u /\
  get_time_horizon u <= length (get_commitment u) /\
  Forall binary (take (get_time_horizon u) (get_commitment u)).

(** the states of the unit at the times of the stage, the last time first *)
Definition states (u : ThermalUnit) : list bool :=
  rev (map is_on (take (get_time_horizon u) (get_commitment u))).

(** the states at the times of the stages [j - 1], ..., 0, the latest time
    first *)
Fixpoint older (earlier : nat -> option ThermalUnit) (j : nat) : list bool :=
  match j with
  | 0 => []
  | S k => match earlier k with
           | Some u => states u
           | None => []
           end ++ older earlier k
  end.

(** the number of states equal to [b] at the head of the list *)
Fixpoint run (b : bool) (l : list bool) : nat :=
  match l with
  | x :: l' => if Bool.eqb x b then S (run b l') else 0
  | [] => 0
  end.

(** the time the unit has been in the state it is in at the head of the
    list: positive when it is on, negative when it is off *)
Definition up_down_time (l : list bool) : Z :=
  match l with
  | [] => 0
  | b :: _ => if b then Z.of_nat (run b l) else - Z.of_nat (run b l)
  end.

Definition step (b : bool) (z : Z) (k : nat) : Z :=
  if b then (z + Z.of_nat k)%Z else (z - Z.of_nat k)%Z.

(** the value is one of an [int] *)
Definition fits (z : Z) : Prop := (-2147483648 <= z <= 2147483647)%Z.

Lemma counted b init :
  fits (step b init 1) ->
  (if b then increment init else decrement init) = Done (step b init 1).
Proof.
  unfold fits, step, increment, decrement, int_fits. intros H.
  destruct b; change (Z.of_nat 1) with 1%Z in *.
  - destruct (Z.leb_spec (-2147483648) (init + 1)),
             (Z.leb_spec (init + 1) 2147483647); try lia. reflexivity.
  - destruct (Z.leb_spec (-2147483648) (init - 1)),
             (Z.leb_spec (init - 1) 2147483647); try lia. reflexivity.
Qed.

Lemma fits_between b init k n :
  fits init -> fits (step b init n) -> k <= n -> fits (step b init k).
Proof. unfold fits, step. destruct b; lia. Qed.

Lemma step_step b init k n : step b (step b init k) n = step b init (k + n).
Proof. unfold step. destruct b; lia. Qed.

Lemma run_le b l : run b l <= length l.
Proof.
  induction l as [|x l IH]; cbn [run length]; [lia|].
  destruct (Bool.eqb x b); lia.
Qed.

Lemma run_app_lt b l l' :
  run b l < length l -> run b (l ++ l') = run b l.
Proof.
  induction l as [|x l IH]; cbn [run length app]; [lia|].
  destruct (Bool.eqb x b); [|reflexivity]. intros H. rewrite IH by lia.
  reflexivity.
Qed.

Lemma run_app_all b l l' :
  run b l = length l -> run b (l ++ l') = length l + run b l'.
Proof.
  induction l as [|x l IH]; cbn [run length app]; [reflexivity|].
  destruct (Bool.eqb x b); [|discriminate]. intros H. rewrite IH by lia.
  reflexivity.
Qed.

Lemma binary_differ v v' :
  binary v -> binary v' ->
  dgtb (dabs (dsub v v')) half = negb (Bool.eqb (is_on v') (is_on v)).
Proof. intros [-> | ->] [-> | ->]; reflexivity. Qed.

Lemma binary_off v : binary v -> dltb v half = negb (is_on v).
Proof. intros [-> | ->]; reflexivity. Qed.

Lemma rev_take_S {A} (l : list A) n x :
  l !! n = Some x -> rev (take (S n) l) = x :: rev (take n l).
Proof.
  intros H. rewrite (take_S_r _ _ _ H), rev_app_distr. reflexivity.
Qed.

(** the loop inside a stage, from a time at which the unit is in state [b] *)
Lemma within_stage_run values b : forall p init v,
  values !! p = Some v -> is_on v = b ->
  Forall binary (take (S p) values) ->
  fits init -> fits (step b init p) ->
  within_stage values p p b init =
    Done (let n := run b (rev (map is_on (take (S p) values))) in
          if decide (n = S p) then inr (step b init p)
          else inl (step b init (n - 1))).
Proof.
  induction p as [|p IH]; intros init v Hv Hb Hall Hinit Hend.
  - cbn [within_stage]. rewrite <- map_rev, (rev_take_S _ _ _ Hv).
    cbn [take rev map run app]. rewrite Hb, Bool.eqb_reflx.
    cbn zeta. destruct (decide (1 = 1)); [|lia].
    unfold step. destruct b; do 2 f_equal; lia.
  - cbn [within_stage].
    assert (Hp : p < length values).
    { assert (S p < length values) by (apply lookup_lt_is_Some; eauto). lia. }
    destruct (lookup_lt_is_Some_2 values p Hp) as [v' Hv'].
    rewrite (vget_lookup _ _ _ Hv), (vget_lookup _ _ _ Hv'). cbn [bind].
    rewrite (take_S_r _ _ _ Hv) in Hall.
    apply Forall_app in Hall as [Hall Hbin].
    apply Forall_inv in Hbin.
    assert (Hbin' : binary v').
    { rewrite (take_S_r _ _ _ Hv') in Hall.
      apply Forall_app in Hall as [_ H]. apply Forall_inv in H. exact H. }
    rewrite (binary_differ _ _ Hbin Hbin'), Hb.
    rewrite <- map_rev, (rev_take_S _ _ _ Hv), (rev_take_S _ _ _ Hv').
    cbn [map run]. rewrite Hb, Bool.eqb_reflx.
    destruct (Bool.eqb (is_on v') b) eqn:Eb; cbn [negb].
    + apply Bool.eqb_prop in Eb.
      replace (S p - 1) with p by lia.
      rewrite counted by (apply (fits_between _ _ _ (S p)); [assumption..|lia]).
      cbn [bind].
      rewrite (IH _ v' Hv' Eb Hall)
        by (rewrite ?step_step;
            apply (fits_between _ _ _ (S p)); [assumption..|lia]).
      rewrite <- map_rev, (rev_take_S _ _ _ Hv'). cbn [map run].
      rewrite Eb, Bool.eqb_reflx. cbn zeta.
      set (n := run b (map is_on (rev (take p values)))).
      destruct (decide (S n = S p)), (decide (S (S n) = S (S p))); try lia;
        unfold step; destruct b; do 2 f_equal; lia.
    + cbn zeta. destruct (decide (1 = S (S p))); [lia|].
      unfold step. destruct b; do 2 f_equal; lia.
Qed.

Lemma states_head u :
  well_formed u ->
  exists v, last_time (get_commitment u) (get_time_horizon u) =
              Done v /\
            get_commitment u !! (get_time_horizon u - 1) = Some v /\
            binary v /\
            exists rest, states u = is_on v :: rest.
Proof.
  intros (HT & Hlen & Hall). unfold states.
  destruct (get_time_horizon u) as [|t]; [lia|].
  destruct (lookup_lt_is_Some_2 (get_commitment u) t) as [v Hv]; [lia|].
  exists v. cbn [last_time]. rewrite (vget_lookup _ _ _ Hv).
  replace (S t - 1) with t by lia.
  split; [reflexivity|]. split; [exact Hv|]. split.
  - rewrite (take_S_r _ _ _ Hv) in Hall.
    apply Forall_app in Hall as [_ H]. apply Forall_inv in H. exact H.
  - rewrite <- map_rev, (rev_take_S _ _ _ Hv). cbn [map]. eauto.
Qed.

Lemma length_states u :
  well_formed u -> length (states u) = get_time_horizon u.
Proof.
  intros (HT & Hlen & _). unfold states.
  rewrite length_rev, length_map, length_take. lia.
Qed.

Lemma across_stages_run earlier stage b : forall j outer_t u init v,
  stage = outer_t + S j ->
  well_formed u ->
  get_commitment u !! (get_time_horizon u - 1) = Some v -> is_on v = b ->
  (forall k, k < j -> exists u', earlier k = Some u' /\ well_formed u') ->
  fits init ->
  fits (step b init (length (states u ++ older earlier j) - 1)) ->
  across_stages earlier stage (seq outer_t (S j)) u b init =
    Done (step b init (run b (states u ++ older earlier j) - 1)).
Proof.
  induction j as [|j IH];
    intros outer_t u init v Hstage Hu Hv Hb Hearlier Hinit Hend.
  - cbn [seq across_stages]. pose proof Hu as (HT & Hlen & Hall).
    cbn [older] in Hend. rewrite app_nil_r, (length_states u Hu) in Hend.
    rewrite (within_stage_run _ b _ init v Hv Hb); try assumption.
    2:{ replace (S (get_time_horizon u - 1)) with (get_time_horizon u)
          by lia. exact Hall. }
    cbn [bind older]. rewrite app_nil_r. unfold states.
    replace (S (get_time_horizon u - 1)) with (get_time_horizon u) by lia.
    cbn zeta.
    destruct (decide (_ = get_time_horizon u)) as [E|E].
    + destruct (decide (outer_t = stage - 1)); [|lia]. rewrite E.
      reflexivity.
    + reflexivity.
  - change (seq outer_t (S (S j))) with (outer_t :: seq (S outer_t) (S j)).
    remember (seq (S outer_t) (S j)) as later eqn:Hlater.
    cbn [across_stages]. subst later.
    pose proof Hu as (HT & Hlen & Hall).
    pose proof (length_states u Hu) as Hls.
    destruct (Hearlier j) as (u' & Eu' & Hu'); [lia|].
    pose proof (length_states u' Hu') as Hls'.
    pose proof Hu' as (HT' & _ & _).
    cbn [older] in Hend. rewrite Eu', !length_app, Hls, Hls' in Hend.
    rewrite (within_stage_run _ b _ init v Hv Hb); try assumption.
    2:{ replace (S (get_time_horizon u - 1)) with (get_time_horizon u)
          by lia. exact Hall. }
    2:{ apply (fits_between _ _ _ _ Hinit Hend). lia. }
    cbn [bind older].
    replace (S (get_time_horizon u - 1)) with (get_time_horizon u) by lia.
    cbn zeta. fold (states u).
    destruct (decide (run b (states u) = get_time_horizon u)) as [E|E].
    2:{ rewrite run_app_lt; [reflexivity|].
        pose proof (run_le b (states u)). lia. }
    destruct (decide (outer_t = stage - 1)); [lia|].
    replace (stage - outer_t - 2) with j by lia. rewrite Eu'.
    destruct (states_head u' Hu') as (v' & -> & Hv' & Hbin & rest & Hrest).
    cbn [bind].
    rewrite run_app_all by lia. rewrite Hls, Hrest.
    cbn [app run].
    assert (Hone : fits (step b (step b init (get_time_horizon u - 1)) 1)).
    { rewrite step_step. apply (fits_between _ _ _ _ Hinit Hend). lia. }
    assert (Hnext : is_on v' = b ->
              across_stages earlier stage (seq (S outer_t) (S j)) u' b
                (step b (step b init (get_time_horizon u - 1)) 1) =
                Done (step b (step b (step b init (get_time_horizon u - 1)) 1)
                        (run b (states u' ++ older earlier j) - 1))).
    { intros Eb. apply (IH (S outer_t) u' _ v'); try assumption.
      - lia.
      - intros k Hk. apply Hearlier. lia.
      - rewrite !step_step, length_app, Hls'.
        apply (fits_between _ _ _ _ Hinit Hend). lia. }
    rewrite Hrest in Hnext. cbn [app run] in Hnext.
    rewrite !step_step in Hnext.
    destruct b.
    + change (dgeb v' half) with (is_on v').
      destruct (is_on v') eqn:Eb; cbn [Bool.eqb].
      * rewrite (counted true) by exact Hone. cbn [bind].
        rewrite step_step, (Hnext eq_refl). cbn [Bool.eqb].
        unfold step. f_equal. lia.
      * unfold step. f_equal. lia.
    + rewrite (binary_off _ Hbin).
      destruct (is_on v') eqn:Eb; cbn [Bool.eqb negb].
      * unfold step. f_equal. lia.
      * rewrite (counted false) by exact Hone. cbn [bind].
        rewrite step_step, (Hnext eq_refl). cbn [Bool.eqb].
        unfold step. f_equal. lia.
Qed.

(** X18: the initial up and down time, when the commitment of every stage up
    to [stage - 1] is 0 or 1 at each time and the number of these times is
    one of an [int].  It is 0 when the unit was shut down at the last time.
    Otherwise it is the number of times, counted back from the last time of
    stage [stage - 1] through the earlier stages down to stage 0, for which
    the unit has been in the state it is in at the last time: with a plus
    sign when it is on, with a minus sign when it is off. *)
Theorem compute_init_up_down_time_counts_back earlier previous_unit shutdown
    stage :
  stage <> 0 ->
  well_formed previous_unit ->
  (forall k, k < stage - 1 ->
             exists u, earlier k = Some u /\ well_formed u) ->
  (Z.of_nat (length (states previous_unit ++ older earlier (stage - 1)))
   <= 2147483647)%Z ->
  compute_init_up_down_time earlier previous_unit shutdown stage =
    Done (if match shutdown with Some v => dgeb v half | None => false end
          then 0%Z
          else up_down_time (states previous_unit ++
                             older earlier (stage - 1))).
Proof.
  intros Hs Hu Hearlier Hsize. unfold compute_init_up_down_time.
  destruct (decide (get_time_horizon previous_unit = 0));
    [destruct Hu; lia|].
  destruct (match shutdown with Some v => dgeb v half | None => false end);
    [reflexivity|].
  pose proof (length_states previous_unit Hu) as Hls.
  pose proof Hu as (HT & _ & _).
  destruct (states_head previous_unit Hu)
    as (v & -> & Hv & Hbin & rest & Hrest).
  cbn [bind].
  replace stage with (0 + S (stage - 1)) at 2 by lia.
  rewrite (across_stages_run earlier stage (dgeb v half) (stage - 1) 0
             previous_unit _ v); try assumption; try reflexivity.
  - f_equal. rewrite Hrest. cbn [app up_down_time run].
    change (is_on v) with (dgeb v half). rewrite Bool.eqb_reflx.
    unfold step. destruct (dgeb v half); lia.
  - lia.
  - unfold fits. destruct (dgeb v half); lia.
  - rewrite length_app, Hls in Hsize |- *.
    unfold fits, step. destruct (dgeb v half); lia.
Qed.

(** on at the two times of stage 1, and at the last time of stage 0 *)
Definition stage_one : ThermalUnit := mkThermalUnit 2 [one; one].
Definition stage_zero : ThermalUnit := mkThermalUnit 3 [one; zero; one].

Lemma compute_init_up_down_time_counts_back_witness :
  compute_init_up_down_time (fun _ => Some stage_zero) stage_one None 2 =
    Done 3%Z /\
  compute_init_up_down_time (fun _ => Some stage_zero) stage_one
    (Some one) 2 = Done 0%Z.
Proof.
  assert (H1 : well_formed stage_one).
  { split; [cbn; lia|]. split; [cbn; lia|].
    repeat constructor; right; reflexivity. }
  assert (H0 : well_formed stage_zero).
  { split; [cbn; lia|]. split; [cbn; lia|].
    repeat constructor; (left; reflexivity) || (right; reflexivity). }
  split.
  - apply (compute_init_up_down_time_counts_back (fun _ => Some stage_zero)
             stage_one None 2); [lia | exact H1 | | vm_compute; discriminate].
    intros k _. eauto.
  - apply (compute_init_up_down_time_counts_back (fun _ => Some stage_zero)
             stage_one (Some one) 2);
      [lia | exact H1 | | vm_compute; discriminate].
    intros k _. eauto.
Defined.

End UpDownTimeFacts.

(** ** compute: what its ways out leave behind *)

Module WayOutFacts.
Import InvestmentFunction CutFacts ComputeFacts.

(** the flags that tell [compute] and [add_Modification] what to do *)
Definition flags (s : t) := (f_blocks_are_updated s, f_ignore_modifications s).






(** *** The flags along [compute] *)

Lemma outer_flags s s' : outer s' = outer s -> flags s' = flags s.
Proof. unfold outer, flags. intros H. inversion H. reflexivity. Qed.

Lemma lock_blocks_succeeds w idx : forall owned s,
  (forall i, i ∈ idx -> is_owned_by w i = true \/ lock w i = true) ->
  exists s',
    lock_blocks w idx owned s =
      inl (owned ++ map (is_owned_by w) idx, s') /\
    flags s' = flags s.
Proof.
  induction idx as [|i idx IH]; intros owned s H; cbn [lock_blocks map].
  - exists s. rewrite app_nil_r. split; reflexivity.
  - replace (negb (is_owned_by w i) && negb (lock w i)) with false.
    2:{ destruct (H i) as [-> | ->]; [apply elem_of_cons; auto | |];
          [reflexivity | apply eq_sym, andb_false_r]. }
    edestruct (IH (owned ++ [is_owned_by w i])) as (s' & -> & Hf).
    { intros j Hj. apply H. apply elem_of_cons. auto. }
    exists s'. rewrite <- app_assoc. split; [reflexivity|].
    rewrite Hf. destruct (is_owned_by w i); reflexivity.
Qed.

Lemma lock_blocks_flags w idx : forall owned s owned' s',
  lock_blocks w idx owned s = inl (owned', s') -> flags s' = flags s.
Proof.
  induction idx as [|i idx IH]; intros owned s owned' s' H;
    cbn [lock_blocks] in H.
  - inversion H; subst. reflexivity.
  - destruct (negb (is_owned_by w i) && negb (lock w i)); [discriminate|].
    apply IH in H. rewrite H. destruct (is_owned_by w i); reflexivity.
Qed.

Lemma lend_identity_flags w s : flags (lend_identity w s) = flags s.
Proof.
  unfold lend_identity. generalize (seq 0 (number_sub_blocks w)).
  intros l. revert s. induction l as [|i l IH]; intros s; cbn [foldl].
  - reflexivity.
  - rewrite IH. destruct (has_solver w i); reflexivity.
Qed.

Lemma release_flags w owned slots s s' :
  release w owned slots s = Done s' -> flags s' = flags s.
Proof.
  unfold release.
  apply (for_each_invariant (fun s1 => flags s1 = flags s)); [|reflexivity].
  intros i s1 s2 H1 Hb.
  destruct (has_solver w i), slots; inv_all;
    repeat match goal with
    | H : unlock_sub_block _ _ = Done _ |- _ =>
        apply unlock_sub_block_frame in H as (_ & H & _);
        apply outer_flags in H; rewrite H
    end;
    match goal with
    | |- flags (if negb ?a then _ else _) = _ => destruct a; exact H1
    end.
Qed.

Lemma linear_term_flags s s' : linear_term s = Done s' -> flags s' = flags s.
Proof.
  unfold linear_term.
  apply (for_each_invariant (fun s1 => flags s1 = flags s)); [|reflexivity].
  intros i s1 s2 H1 Hb. inv_all; exact H1.
Qed.

Lemma scenario_body_flags w sc l l' :
  scenario_body w sc l = Done l' -> flags (this l') = flags (this l).
Proof.
  unfold scenario_body. intros H.
  destruct (interrupt_loop l); [inversion H; subst; reflexivity|].
  unfold lock_sub_block in H.
  destruct (first_unlocked _ 0); cbn [bind fst snd] in H; [|discriminate].
  destruct (negb (has_solver w n)); [discriminate|].
  destruct (negb (has_var_solution w sc n)).
  - inv_all. apply unlock_sub_block_frame in E as (_ & Hu & _).
    cbn [this]. rewrite (outer_flags _ _ Hu). reflexivity.
  - match type of H with
    | bind ?u _ = _ => destruct u as [[s1 e]| | |] eqn:Eu
    end; cbn [bind fst snd] in H; try discriminate.
    assert (Hs1 : flags s1 = flags (this l)).
    { destruct (f_compute_linearization _) in Eu.
      - apply update_linearization_frame in Eu as (_ & Ho & _).
        rewrite (outer_flags _ _ Ho). reflexivity.
      - inversion Eu; subst. reflexivity. }
    destruct e; inv_all;
      match goal with
      | H : unlock_sub_block _ _ = Done _ |- _ =>
          apply unlock_sub_block_frame in H as (_ & Hu & _)
      end; cbn [this]; rewrite (outer_flags _ _ Hu); exact Hs1.
Qed.

Lemma scenario_loop_flags w scenarios : forall l l',
  for_each (scenario_body w) scenarios l = Done l' ->
  flags (this l') = flags (this l).
Proof.
  induction scenarios as [|sc scenarios IH]; intros l l' H;
    cbn [for_each] in H.
  - inversion H; subst. reflexivity.
  - destruct (scenario_body w sc l) as [l1| | |] eqn:E; cbn [bind] in H;
      try discriminate.
    rewrite (IH _ _ H). apply (scenario_body_flags _ _ _ _ E).
Qed.

(** [compute] gets to the loop over the scenarios only after
    [update_blocks] has run to its end *)
Lemma prologue_continue_flags w cv s owned s1 :
  compute_prologue w cv s = Done (inr (owned, s1)) ->
  flags s1 = (true, f_ignore_modifications s).
Proof.
  unfold compute_prologue. intros H.
  destruct (negb cv && f_blocks_are_updated s) eqn:Ecv; [discriminate|].
  fold (fresh s) in H.
  destruct (is_feasible (fresh s)) as [[b s0]| | |] eqn:Ef;
    cbn [bind fst snd] in H; try discriminate.
  destruct b; cbn [negb] in H; cycle 1.
  { destruct (worst_value w); cbn [bind] in H; discriminate. }
  apply is_feasible_true in Ef as [-> _].
  destruct (decide (number_sub_blocks w = 0)) as [|Hn]; [discriminate|].
  destruct (lock_blocks w (seq 0 (number_sub_blocks w)) [] (fresh s))
    as [[ow s2]|s2] eqn:El; cycle 1.
  { destruct (return_error w s2); cbn [bind] in H; discriminate. }
  apply lock_blocks_flags in El.
  pose proof (lend_identity_flags w s2) as Hl.
  assert (Hf : flags (lend_identity w s2) = flags s)
    by (rewrite Hl, El; reflexivity).
  unfold flags in Hf. injection Hf as Hu Hi.
  rewrite Hu in H.
  replace (cv || negb (f_blocks_are_updated s)) with true in H
    by (destruct cv, (f_blocks_are_updated s); try reflexivity;
        discriminate Ecv).
  unfold update_blocks in H.
  match type of H with
  | bind (bind ?u _) _ = _ => destruct u as [c| | |]
  end; cbn [bind fst snd] in H; try discriminate.
  destruct (snd c).
  { cbn [bind fst snd] in H.
    destruct (release w ow false _); cbn [bind] in H; [|discriminate..].
    destruct (return_error w a); cbn [bind] in H; discriminate. }
  destruct (update_sub_blocks w); cbn [bind fst snd] in H.
  { destruct (release w ow false _); cbn [bind] in H; [|discriminate..].
    destruct (return_error w a); cbn [bind] in H; discriminate. }
  inversion H; subst. unfold flags. cbn. rewrite Hi. reflexivity.
Qed.

(** *** After the loop over the scenarios *)

(** X20: what [compute] leaves when it has got to the loop over the
    scenarios and returns.  The status is [kOK] and [f_ignore_modifications]
    is what it was, or the status is [kError], [f_ignore_modifications] is
    left set and a Modification of an inner Block is dropped.  In both
    cases [f_blocks_are_updated] is set, so that [compute( false )] called
    next runs nothing but the handlers of the termination event and
    returns the same status. *)
Theorem compute_after_the_loop w cv s owned s1 st s' :
  compute_prologue w cv s = Done (inr (owned, s1)) ->
  compute w cv s = Done (st, s') ->
  f_blocks_are_updated s' = true /\
  compute w false s' = Done (st, handle_events s') /\
  ((st = kOK /\ f_has_value s' = true /\
    f_ignore_modifications s' = f_ignore_modifications s) \/
   (st = kError /\ f_ignore_modifications s' = true /\
    Observing.add_Modification s' = s')).
Proof.
  intros Hp Hc.
  pose proof (prologue_continue_flags w cv s owned s1 Hp) as H1.
  unfold compute in Hc. rewrite Hp in Hc. cbn [bind] in Hc.
  unfold compute_scenarios in Hc. fold (at_loop s1) in Hc.
  match type of Hc with
  | bind ?u _ = _ => destruct u as [l| | |] eqn:El
  end; cbn [bind] in Hc; try discriminate.
  apply scenario_loop_flags in El. cbn [this] in El.
  assert (Hl : flags (this l) = (true, true)).
  { rewrite El. unfold flags in *. injection H1 as Hu _. cbn.
    rewrite Hu. reflexivity. }
  assert (Hagain : forall s2,
            f_blocks_are_updated s2 = true ->
            compute w false s2 = Done (f_status s2, handle_events s2)).
  { intros s2 H2. unfold compute, compute_prologue. cbn [negb andb].
    rewrite H2. reflexivity. }
  destruct (interrupt_loop l).
  - destruct (release w owned true (this l)) as [s2| | |] eqn:Er;
      cbn [bind] in Hc; try discriminate.
    apply release_flags in Er. rewrite Hl in Er.
    unfold return_error in Hc.
    destruct (worst_value w) as [wv| | |]; cbn [bind] in Hc;
      try discriminate.
    inversion Hc; subst. clear Hc.
    unfold flags in Er. injection Er as Eu Ei.
    split; [exact Eu|].
    split; [apply (Hagain (handle_events
                             (set_f_status kError (set_f_value wv s2))) Eu)|].
    right. split; [reflexivity|]. split; [exact Ei|].
    unfold Observing.add_Modification. cbn. rewrite Ei. reflexivity.
  - match type of Hc with
    | bind ?u _ = _ => destruct u as [s2| | |] eqn:Elin
    end; cbn [bind] in Hc; try discriminate.
    apply linear_term_flags in Elin.
    destruct (release w owned false s2) as [s3| | |] eqn:Er;
      cbn [bind] in Hc; try discriminate.
    apply release_flags in Er. rewrite Elin in Er.
    inversion Hc; subst. clear Hc.
    unfold flags in Er, Hl, H1. cbn in Er.
    injection Er as Eu Ei. injection Hl as Lu Li. injection H1 as _ Hi.
    assert (Eu' : f_blocks_are_updated s3 = true) by congruence.
    split; [exact Eu'|].
    split; [apply (Hagain
                     (handle_events
                        (set_f_status kOK
                           (set_f_has_value true
                              (set_f_has_diagonal_linearization
                                 (f_compute_linearization s3) s3)))) Eu')|].
    left. split; [reflexivity|]. split; [reflexivity|].
    cbn. rewrite Ei. cbn. exact Hi.
Qed.

Lemma compute_after_the_loop_witness :
  (exists s',
     compute ComputeTheorems.calm true (ComputeTheorems.one_asset 2 true) =
       Done (kOK, s') /\
     compute ComputeTheorems.calm false s' = Done (kOK, handle_events s')) /\
  (exists s',
     compute ComputeTheorems.failing true (ComputeTheorems.one_asset 2 true) =
       Done (kError, s') /\
     f_ignore_modifications s' = true /\
     compute ComputeTheorems.failing false s' =
       Done (kError, handle_events s')).
Proof.
  split.
  - eexists. split; [vm_compute; reflexivity|].
    eapply (compute_after_the_loop ComputeTheorems.calm true
              (ComputeTheorems.one_asset 2 true)).
    + vm_compute. reflexivity.
    + vm_compute. reflexivity.
  - eexists. split; [vm_compute; reflexivity|].
    edestruct (compute_after_the_loop ComputeTheorems.failing true
                 (ComputeTheorems.one_asset 2 true))
      as (_ & Ha & [(Hk & _) | (_ & Hi & _)]).
    + vm_compute. reflexivity.
    + vm_compute. reflexivity.
    + discriminate Hk.
    + split; [exact Hi | exact Ha].
Defined.

End WayOutFacts.
